(** * StoryStore: the story index and preparation cache of the preview API

    A shallow embedding of
    [code/lib/preview-api/src/modules/store/StoryStore.ts] and the proofs of
    its specification.

    Conventions of the embedding.
    - A JavaScript object that is compared by identity is a pair of a
      reference and a content ([Obj]); references are allocated from the
      counter [nextRef] of the store.
    - A JavaScript object used as a record with string keys is a list of
      pairs in insertion order (the order of [Object.entries]); import paths
      and story identifiers are never canonical array indices, so insertion
      order is the enumeration order.
    - An operation issued on an initialized store is run alone: it is
      followed until every promise it created has settled, and the store it
      leaves is the store at that point.  The operations that wait for
      [initialize] go on together when it is called: they are followed in a
      loop of the jobs of the microtask queue and of the imports that
      settle, until nothing is left to do.
    - Time is a natural number; a module import issued at time [t] settles
      at [t] plus the latency that the loader has for it.  The loader is a
      function of the client: what it answers may depend on the calls made
      to it before, and every import settles.
    - A synchronous operation ends in a sum, the left side being the
      exception thrown; a promise is [Fulfilled], [Rejected] or still
      [Pending]. *)

From stdpp Require Import base option list strings gmap sorting.
From Stdlib Require Import ZArith Lia.

Local Open Scope string_scope.
Local Open Scope list_scope.
Local Open Scope nat_scope.
#[local] Set Warnings "-register-all,-abstract-large-number".

(** ** Values and errors *)

Definition ObjRef := nat.
Definition FnId := nat.
Definition Time := nat.
Definition StoryId := string.
Definition Path := string.
Definition ComponentTitle := string.

(** The JavaScript values that occur as fields of a prepared story.  Numbers
    are restricted to integers and arrays to arrays of strings (the arrays
    of a prepared story are its tags). *)
Inductive JsValue :=
| JsUndefined
| JsNull
| JsBool (b : bool)
| JsNumber (n : Z)
| JsString (s : string)
| JsFunction (f : FnId)
| JsArray (items : list string)
| JsObject (props : list (string * JsValue)).

(** An object in insertion order. *)
Definition JsRecord := list (string * JsValue).

(** [if (v)]: the falsy values are undefined, null, false, 0 and the empty
    string. *)
Definition truthy (v : JsValue) : bool :=
  match v with
  | JsUndefined | JsNull => false
  | JsBool b => b
  | JsNumber n => negb (n =? 0)%Z
  | JsString s => negb (String.eqb s "")
  | JsFunction _ | JsArray _ | JsObject _ => true
  end.

(** [typeof value === 'function'] *)
Definition isFunction (v : JsValue) : bool :=
  match v with JsFunction _ => true | _ => false end.

(** [Array.isArray(value)] *)
Definition isArray (v : JsValue) : bool :=
  match v with JsArray _ => true | _ => false end.

(** The errors of the store, which are all instances of [Error] told apart
    by their message. *)
Inductive Error :=
| NotInitialized (operation : string)
| CacheNotReady (operation : string)
| StoryNotInCSFFile (storyId : StoryId)
| NotFound (storyId : StoryId)
| TypeError (msg : string)
| RangeError
| OtherError (msg : string).

Definition message (e : Error) : string :=
  match e with
  | NotInitialized op => (op ++ " called before initialization")%string
  | CacheNotReady op =>
      ("Cannot call " ++ op ++ " unless you call cacheAllCSFFiles() first.")%string
  | StoryNotInCSFFile id =>
      ("Didn't find '" ++ id ++ "' in CSF file, this is unexpected")%string
  | NotFound id => ("Didn't find '" ++ id ++ "' in story index")%string
  | TypeError msg => msg
  | RangeError => "Maximum call stack size exceeded"
  | OtherError msg => msg
  end.

(** A synchronous operation ends in [Error + A]: [inl e] is the exception
    [e] thrown, [inr a] the value returned.  A promise is in one of three
    states. *)
Inductive Promise (A : Type) :=
| Fulfilled (a : A)
| Rejected (e : Error)
| Pending.
Arguments Fulfilled {A} a.
Arguments Rejected {A} e.
Arguments Pending {A}.

(** An object with an identity. *)
Record Obj (C : Type) := mkObj { ref : ObjRef; content : C }.
Arguments mkObj {C} ref content.
Arguments ref {C} o.
Arguments content {C} o.

(** ** Lookup and update of insertion-ordered objects *)

Section Assoc.
Context {K V : Type} `{EqDecision K}.

(** [obj[k]], [None] standing for [undefined]. *)
Fixpoint assoc (k : K) (l : list (K * V)) : option V :=
  match l with
  | [] => None
  | (k', v) :: l' => if decide (k' = k) then Some v else assoc k l'
  end.

(** [obj[k] = v]: an existing key keeps its place, a new key goes last. *)
Fixpoint assign (k : K) (v : V) (l : list (K * V)) : list (K * V) :=
  match l with
  | [] => [(k, v)]
  | (k', v') :: l' =>
      if decide (k' = k) then (k, v) :: l' else (k', v') :: assign k v l'
  end.

(** The entries whose key is not [k]. *)
Definition without (k : K) (l : list (K * V)) : list (K * V) :=
  filter (λ e, e.1 ≠ k) l.
End Assoc.

(** ** The bounded memoization of [memoizerific] *)

(** Modelled from the spec: [memoize] of the [memoizerific] package, which
    is not part of the sources.  "Bounded memoization: retains at most the
    most recently used [limit] distinct argument-identity results; eviction
    is least-recently-used."  The cache is the list of the retained calls,
    least recently used first; [wasMemoized] tells whether the last call was
    answered from the cache.  A limit of zero means no bound.  The result of
    a computation is a new object, whose reference is taken from [next]; a
    computation that throws leaves the cache as it is. *)
Record Memoized (K C : Type) := mkMemoized {
  lru : list (K * Obj C);
  wasMemoized : bool
}.
Arguments mkMemoized {K C} lru wasMemoized.
Arguments lru {K C} m.
Arguments wasMemoized {K C} m.

Section Memoize.
Context {K C : Type} `{EqDecision K}.

Definition memo_empty : Memoized K C := mkMemoized [] false.

(** Modelled from the spec: the eviction of [memoizerific], "eviction is
    least-recently-used": the least recently used call is dropped when the
    list is over the limit. *)
Definition purge (limit : nat) (l : list (K * Obj C)) : list (K * Obj C) :=
  if bool_decide (0 < limit ∧ limit < length l) then tail l else l.

(** Modelled from the spec: a call of a function memoized by
    [memoizerific], which is not part of the sources.  [key] is the
    identity of the arguments and [fn] what the function gives for them.
    A call that is in the cache is answered from it and becomes the most
    recently used; otherwise the function is computed and, unless it
    throws, its result is stored as a new object. *)
Definition memoize (limit : nat) (key : K) (fn : Error + C)
    (m : Memoized K C) (next : ObjRef)
  : (Error + Obj C) * Memoized K C * ObjRef :=
  match assoc key (lru m) with
  | Some v =>
      (inr v, mkMemoized (without key (lru m) ++ [(key, v)])%list true, next)
  | None =>
      match fn with
      | inl e => (inl e, m, next)
      | inr c =>
          let v := mkObj next c in
          (inr v, mkMemoized (purge limit (lru m ++ [(key, v)])%list) false,
           S next)
      end
  end.
End Memoize.

(** ** The data of the store *)

Inductive EntryType := StoryEntry | DocsEntry.

#[global] Instance EntryType_eq_dec : EqDecision EntryType.
Proof. solve_decision. Defined.

(** An entry of the index: [{ type, importPath, title }]. *)
Record IndexEntry := mkIndexEntry {
  entryType : EntryType;
  importPath : Path;
  entryTitle : ComponentTitle
}.

(** The object [StoryIndex.entries], from story identifier to entry. *)
Definition StoryIndex := list (StoryId * IndexEntry).

(** Modelled from the spec: [StoryIndexStore.storyIdToEntry], which is not
    part of the sources.  "entryFor(id) fails with NotFound when the
    identifier is absent." *)
Definition storyIdToEntry (entries : StoryIndex) (storyId : StoryId)
  : Error + IndexEntry :=
  match assoc storyId entries with
  | Some entry => inr entry
  | None => inl (NotFound storyId)
  end.

(** What a story module exports: a function or an annotations object. *)
Inductive StoryExport :=
| ExportFunction (f : FnId)
| ExportObject (props : JsRecord).

(** Modelled from the spec: the declaration of [PreparedStory] in
    [@storybook/types], which is not part of the sources: "identifier,
    title, name, merged parameter set, argument-type metadata, initial
    argument values, render/unbound-render function, docs-only flag" (the
    flag is the parameter [docsOnly]), the "lifecycle tags", and the fields
    [moduleExport] and [playFunction] (optional). *)
Record PreparedStoryData := mkPreparedStory {
  story_id : StoryId;
  story_name : string;
  story_title : ComponentTitle;
  story_tags : list string;
  story_parameters : JsRecord;
  story_argTypes : JsRecord;
  story_initialArgs : JsRecord;
  story_moduleExport : StoryExport;
  story_unboundStoryFn : FnId;
  story_playFunction : option FnId
}.

Definition PreparedStory := Obj PreparedStoryData.

(** [Object.entries(story)] *)
Definition object_entries (story : PreparedStoryData) : JsRecord :=
  ([ ("id", JsString (story_id story));
    ("name", JsString (story_name story));
    ("title", JsString (story_title story));
    ("tags", JsArray (story_tags story));
    ("parameters", JsObject (story_parameters story));
    ("argTypes", JsObject (story_argTypes story));
    ("initialArgs", JsObject (story_initialArgs story));
    ("moduleExport",
      match story_moduleExport story with
      | ExportFunction f => JsFunction f
      | ExportObject props => JsObject props
      end);
    ("unboundStoryFn", JsFunction (story_unboundStoryFn story)) ]
  ++ match story_playFunction story with
     | Some f => [("playFunction", JsFunction f)]
     | None => []
     end)%list.

(** [story.parameters.docsOnly] *)
Definition docsOnly (story : PreparedStoryData) : JsValue :=
  default JsUndefined (assoc "docsOnly" (story_parameters story)).

(** A CSF file: the annotations of the component ([meta]) and of its
    stories.  The objects [meta] and [stories[id]] are created together
    with the file, so that the identity of the file determines theirs. *)
Record CSFFileData (M S : Type) := mkCSFFile {
  meta : M;
  stories : list (StoryId * S)
}.
Arguments mkCSFFile {M S} meta stories.
Arguments meta {M S} c.
Arguments stories {M S} c.

(** The functions of [./csf], which is not part of the sources, and the
    types of what they work on, taken as parameters: the theorems hold for
    every one of them. *)
Class CsfModule := {
  ModuleContent : Type;
  ComponentAnnotations : Type;
  StoryAnnotations : Type;
  ProjectAnnotations : Type;
  NormalizedProjectAnnotations : Type;
  processCSFFile :
    ModuleContent → Path → ComponentTitle →
    Error + CSFFileData ComponentAnnotations StoryAnnotations;
  prepareStory :
    StoryAnnotations → ComponentAnnotations → NormalizedProjectAnnotations →
    Error + PreparedStoryData;
  normalizeProjectAnnotations : ProjectAnnotations → NormalizedProjectAnnotations
}.

(** A string is the sequence of the bytes of its UTF-8 encoding, and
    JavaScript compares strings by their UTF-16 code units.  The code
    points of a string: a byte that begins no sequence of the right length
    stands for U+FFFD. *)
Definition is_continuation (b : N) : bool := ((128 <=? b) && (b <? 192))%N.

Fixpoint code_points (s : string) : list N :=
  match s with
  | EmptyString => []
  | String a0 rest =>
      let b0 := Ascii.N_of_ascii a0 in
      if (b0 <? 128)%N then b0 :: code_points rest
      else
        match rest with
        | String a1 rest1 =>
            let b1 := Ascii.N_of_ascii a1 in
            if ((192 <=? b0) && (b0 <? 224))%N && is_continuation b1
            then ((b0 mod 32) * 64 + b1 mod 64)%N :: code_points rest1
            else
              match rest1 with
              | String a2 rest2 =>
                  let b2 := Ascii.N_of_ascii a2 in
                  if ((224 <=? b0) && (b0 <? 240))%N
                     && is_continuation b1 && is_continuation b2
                  then (((b0 mod 16) * 64 + b1 mod 64) * 64 + b2 mod 64)%N
                       :: code_points rest2
                  else
                    match rest2 with
                    | String a3 rest3 =>
                        let b3 := Ascii.N_of_ascii a3 in
                        if ((240 <=? b0) && (b0 <? 248))%N
                           && is_continuation b1 && is_continuation b2
                           && is_continuation b3
                        then ((((b0 mod 8) * 64 + b1 mod 64) * 64 + b2 mod 64) * 64
                              + b3 mod 64)%N :: code_points rest3
                        else 65533%N :: code_points rest
                    | EmptyString => 65533%N :: code_points rest
                    end
              | EmptyString => 65533%N :: code_points rest
              end
        | EmptyString => [65533%N]
        end
  end.

(** The code units of a code point: itself, or a pair of surrogates. *)
Definition code_units_of (cp : N) : list N :=
  if (cp <? 65536)%N then [cp]
  else [(55296 + (cp - 65536) / 1024)%N; (56320 + (cp - 65536) mod 1024)%N].

Definition utf16 (s : string) : list N := code_points s ≫= code_units_of.

(** The order of the code units, the first difference deciding; a
    string comes before the strings that it begins. *)
Fixpoint code_units_le (l1 l2 : list N) : bool :=
  match l1, l2 with
  | [], _ => true
  | _ :: _, [] => false
  | x :: l1', y :: l2' =>
      if (x <? y)%N then true
      else if (y <? x)%N then false
      else code_units_le l1' l2'
  end.

Definition string_le (s1 s2 : string) : Prop :=
  code_units_le (utf16 s1) (utf16 s2) = true.

#[export] Instance string_le_dec s1 s2 : Decision (string_le s1 s2) :=
  decide (code_units_le (utf16 s1) (utf16 s2) = true).

(** [Array.prototype.sort()] on an array of strings: ascending order of the
    UTF-16 code units. *)
Definition js_sort (items : list string) : list string :=
  merge_sort string_le items.

(** Modelled from the spec: [ArgsStore], which is not part of the sources, is
    a map from story identifier to the current argument values.
    "setInitial(preparedStory) seeds defaults only if none exist yet
    (idempotent per identifier); update(id, partial) merges into current
    values, never overwriting keys not present in the partial update." *)
Definition args_get (storyId : StoryId) (a : gmap StoryId JsRecord)
  : option JsRecord := a !! storyId.

(** Modelled from the spec: [ArgsStore.setInitial], which is not part of
    the sources, "seeds defaults only if none exist yet". *)
Definition args_setInitial (story : PreparedStoryData) (a : gmap StoryId JsRecord)
  : gmap StoryId JsRecord :=
  match a !! story_id story with
  | Some _ => a
  | None => <[story_id story := story_initialArgs story]> a
  end.

(** Modelled from the spec: the merge of [ArgsStore.update], which is not
    part of the sources, "never overwriting keys not present in the partial
    update". *)
Definition merge_args (partial current : JsRecord) : JsRecord :=
  fold_left (λ acc kv, assign kv.1 kv.2 acc) partial current.

(** Modelled from the spec: [ArgsStore.update], which is not part of the
    sources, "merges into current values". *)
Definition args_update (storyId : StoryId) (partial : JsRecord)
    (a : gmap StoryId JsRecord) : gmap StoryId JsRecord :=
  alter (merge_args partial) storyId a.

Definition CSF_CACHE_SIZE : nat := 1000.
Definition STORY_CACHE_SIZE : nat := 10000.
Definition EXTRACT_BATCH_SIZE : nat := 20.

(** The identity triple of a call of [processCSFFile]: the module exports
    (an object), the import path and the title. *)
Definition CsfKey : Type := ObjRef * Path * ComponentTitle.

(** The identity triple of a call of [prepareStory]: the story annotations
    (the object [stories[id]] of a CSF file), the component annotations (the
    object [meta] of a CSF file) and the project annotations. *)
Definition StoryKey : Type := (ObjRef * StoryId) * ObjRef * ObjRef.

(** A call of the module loader that is under way: what it was issued for,
    when, and when and how it settles. *)
Record ImportRecord := mkImport {
  imp_path : Path;
  imp_issued : Time;
  imp_settles : Time;
  imp_ok : bool
}.

(** ** Promises *)

(** [SynchronousPromise.all]: the results by position, the number of
    promises fulfilled so far and the first rejection. *)
Record AllState (A : Type) := mkAll {
  allData : list (option A);
  numResolved : nat;
  rejection : option Error
}.
Arguments mkAll {A} allData numResolved rejection.
Arguments allData {A} a.
Arguments numResolved {A} a.
Arguments rejection {A} a.

Definition all_init {A} (n : nat) : AllState A := mkAll (replicate n None) 0 None.

Definition all_resolve {A} (idx : nat) (x : A) (a : AllState A) : AllState A :=
  mkAll (<[idx := Some x]> (allData a)) (S (numResolved a)) (rejection a).

Definition all_reject {A} (e : Error) (a : AllState A) : AllState A :=
  mkAll (allData a) (numResolved a)
    (match rejection a with Some e0 => Some e0 | None => Some e end).

Definition all_promise {A} (n : nat) (a : AllState A) : Promise (list A) :=
  if decide (numResolved a = n) then Fulfilled (omap (λ x, x) (allData a))
  else match rejection a with
       | Some e => Rejected e
       | None => Pending
       end.

(** ** The store *)

Section Store.
Context `{csf : CsfModule}.

(** The exports of a module are an object of the loader, with its own
    identity (these references are the loader's, not the store's). *)
Definition ModuleExports := Obj ModuleContent.

Definition CSFFile := Obj (CSFFileData ComponentAnnotations StoryAnnotations).

(** What the promise of [importFn(path)] does: it settles [latency] units
    of time after the call, fulfilled with the exports or rejected.  (A
    promise that never settles is not among the loaders of this model.) *)
Record ImportResult := mkImportResult {
  latency : nat;
  loaded : Error + ModuleExports
}.

(** [importFn] is a function of the client, with effects of its own: what
    a call gives can depend on the calls made before, and two calls for
    the same path need not give the same module object.  It is a function
    of the log of the calls of the loader made so far and of the path. *)
Definition ModuleImportFn := list ImportRecord → Path → ImportResult.

(** The operations that wait on [initializationPromise], with their
    arguments. *)
Inductive GatedOp :=
| OnStoriesChanged (newImportFn : option ModuleImportFn)
                   (newStoryIndex : option StoryIndex)
| StoryIdToEntry (storyId : StoryId)
| LoadStory (storyId : StoryId)
| CacheAllCSFFiles.

(** What they resolve to. *)
Inductive Value :=
| VVoid
| VEntry (entry : IndexEntry)
| VStory (story : PreparedStory).

(** The fields of [StoryStore].  [storyIndex] holds the entries of the
    [StoryIndexStore]; [csfCache] and [storyCache] are the caches behind
    [processCSFFileWithCache] and [prepareStoryWithCache]; [initialized]
    tells whether [initializationPromise] is resolved and [waiting] holds
    the operations waiting on it, in the order they began to wait.
    [nextRef], [clock] and [imports] are the allocator of references, the
    current time and the log of the calls of [importFn]. *)
Record StoryStore := mkStore {
  storyIndex : option StoryIndex;
  importFn : option ModuleImportFn;
  projectAnnotations : option (Obj NormalizedProjectAnnotations);
  args : gmap StoryId JsRecord;
  hooks : gset StoryId;
  cachedCSFFiles : option (list (Path * CSFFile));
  csfCache : Memoized CsfKey (CSFFileData ComponentAnnotations StoryAnnotations);
  storyCache : Memoized StoryKey PreparedStoryData;
  initialized : bool;
  waiting : list GatedOp;
  nextRef : ObjRef;
  clock : Time;
  imports : list ImportRecord
}.

Definition set_storyIndex v (s : StoryStore) :=
  mkStore v (importFn s) (projectAnnotations s) (args s) (hooks s)
    (cachedCSFFiles s) (csfCache s) (storyCache s) (initialized s)
    (waiting s) (nextRef s) (clock s) (imports s).
Definition set_importFn v (s : StoryStore) :=
  mkStore (storyIndex s) v (projectAnnotations s) (args s) (hooks s)
    (cachedCSFFiles s) (csfCache s) (storyCache s) (initialized s)
    (waiting s) (nextRef s) (clock s) (imports s).
Definition set_projectAnnotations v (s : StoryStore) :=
  mkStore (storyIndex s) (importFn s) v (args s) (hooks s)
    (cachedCSFFiles s) (csfCache s) (storyCache s) (initialized s)
    (waiting s) (nextRef s) (clock s) (imports s).
Definition set_args v (s : StoryStore) :=
  mkStore (storyIndex s) (importFn s) (projectAnnotations s) v (hooks s)
    (cachedCSFFiles s) (csfCache s) (storyCache s) (initialized s)
    (waiting s) (nextRef s) (clock s) (imports s).
Definition set_hooks v (s : StoryStore) :=
  mkStore (storyIndex s) (importFn s) (projectAnnotations s) (args s) v
    (cachedCSFFiles s) (csfCache s) (storyCache s) (initialized s)
    (waiting s) (nextRef s) (clock s) (imports s).
Definition set_cachedCSFFiles v (s : StoryStore) :=
  mkStore (storyIndex s) (importFn s) (projectAnnotations s) (args s)
    (hooks s) v (csfCache s) (storyCache s) (initialized s)
    (waiting s) (nextRef s) (clock s) (imports s).
Definition set_csfCache v (s : StoryStore) :=
  mkStore (storyIndex s) (importFn s) (projectAnnotations s) (args s)
    (hooks s) (cachedCSFFiles s) v (storyCache s) (initialized s)
    (waiting s) (nextRef s) (clock s) (imports s).
Definition set_storyCache v (s : StoryStore) :=
  mkStore (storyIndex s) (importFn s) (projectAnnotations s) (args s)
    (hooks s) (cachedCSFFiles s) (csfCache s) v (initialized s)
    (waiting s) (nextRef s) (clock s) (imports s).
Definition set_initialized v (s : StoryStore) :=
  mkStore (storyIndex s) (importFn s) (projectAnnotations s) (args s)
    (hooks s) (cachedCSFFiles s) (csfCache s) (storyCache s) v
    (waiting s) (nextRef s) (clock s) (imports s).
Definition set_waiting v (s : StoryStore) :=
  mkStore (storyIndex s) (importFn s) (projectAnnotations s) (args s)
    (hooks s) (cachedCSFFiles s) (csfCache s) (storyCache s)
    (initialized s) v (nextRef s) (clock s) (imports s).
Definition set_nextRef v (s : StoryStore) :=
  mkStore (storyIndex s) (importFn s) (projectAnnotations s) (args s)
    (hooks s) (cachedCSFFiles s) (csfCache s) (storyCache s)
    (initialized s) (waiting s) v (clock s) (imports s).
Definition set_clock v (s : StoryStore) :=
  mkStore (storyIndex s) (importFn s) (projectAnnotations s) (args s)
    (hooks s) (cachedCSFFiles s) (csfCache s) (storyCache s)
    (initialized s) (waiting s) (nextRef s) v (imports s).
Definition set_imports v (s : StoryStore) :=
  mkStore (storyIndex s) (importFn s) (projectAnnotations s) (args s)
    (hooks s) (cachedCSFFiles s) (csfCache s) (storyCache s)
    (initialized s) (waiting s) (nextRef s) (clock s) v.

(** [new StoryStore()] *)
Definition new_StoryStore : StoryStore :=
  mkStore None None None ∅ ∅ None memo_empty memo_empty false [] 0 0 [].

(** [memoize(CSF_CACHE_SIZE)(processCSFFile)] *)
Definition processCSFFileWithCache (moduleExports : ModuleExports)
    (path : Path) (title : ComponentTitle) (s : StoryStore)
  : (Error + CSFFile) * StoryStore :=
  let '(r, m, n) :=
    memoize CSF_CACHE_SIZE (ref moduleExports, path, title)
      (processCSFFile (content moduleExports) path title)
      (csfCache s) (nextRef s) in
  (r, set_nextRef n (set_csfCache m s)).

(** [memoize(STORY_CACHE_SIZE)(prepareStory)], on the story [storyId] of
    a CSF file. *)
Definition prepareStoryWithCache (csfFile : CSFFile) (storyId : StoryId)
    (storyAnnotations : StoryAnnotations)
    (projectAnn : Obj NormalizedProjectAnnotations) (s : StoryStore)
  : (Error + PreparedStory) * StoryStore :=
  let '(r, m, n) :=
    memoize STORY_CACHE_SIZE
      ((ref csfFile, storyId), ref csfFile, ref projectAnn)
      (prepareStory storyAnnotations (meta (content csfFile))
         (content projectAnn))
      (storyCache s) (nextRef s) in
  (r, set_nextRef n (set_storyCache m s)).

(** [setProjectAnnotations]: the normalized annotations are a new
    object. *)
Definition setProjectAnnotations (pa : ProjectAnnotations) (s : StoryStore)
  : StoryStore :=
  set_nextRef (S (nextRef s))
    (set_projectAnnotations
       (Some (mkObj (nextRef s) (normalizeProjectAnnotations pa))) s).

(** [storyFromCSFFile]; the file is [None] when the caller read it from
    a key that is not there. *)
Definition storyFromCSFFile (storyId : StoryId) (csfFile : option CSFFile)
    (s : StoryStore) : (Error + PreparedStory) * StoryStore :=
  match projectAnnotations s with
  | None => (inl (NotInitialized "storyFromCSFFile"), s)
  | Some projectAnn =>
      match csfFile with
      | None =>
          (inl (TypeError "Cannot read properties of undefined (reading 'stories')"), s)
      | Some file =>
          match assoc storyId (stories (content file)) with
          | None => (inl (StoryNotInCSFFile storyId), s)
          | Some storyAnnotations =>
              match prepareStoryWithCache file storyId storyAnnotations
                      projectAnn s with
              | (inl e, s1) => (inl e, s1)
              | (inr story, s1) =>
                  let id := story_id (content story) in
                  (inr story,
                   set_hooks ({[ id ]} ∪ hooks s1)
                     (set_args (args_setInitial (content story) (args s1)) s1))
              end
          end
      end
  end.

(** *** Loading modules *)

(** The promise that [loadCSFFileByStoryId] returns: the import it waits
    for and the arguments its callback passes on. *)
Record Job := mkJob {
  job_importPath : Path;
  job_title : ComponentTitle;
  job_settles : Time;
  job_loaded : Error + ModuleExports
}.

(** [loadCSFFileByStoryId]: throws before initialization and for an
    unknown identifier, and calls [importFn] otherwise. *)
Definition loadCSFFileByStoryId (storyId : StoryId) (s : StoryStore)
  : Error + Job * StoryStore :=
  match storyIndex s, importFn s with
  | Some entries, Some import =>
      match storyIdToEntry entries storyId with
      | inl e => inl e
      | inr entry =>
          let r := import (imports s) (importPath entry) in
          let settles := clock s + latency r in
          inr (mkJob (importPath entry) (entryTitle entry) settles (loaded r),
               set_imports
                 (imports s ++
                  [mkImport (importPath entry) (clock s) settles
                     (if loaded r is inr _ then true else false)])%list s)
      end
  | _, _ => inl (NotInitialized "loadCSFFileByStoryId")
  end.

(** The callback [(moduleExports) => this.processCSFFileWithCache(...)],
    run at the time the import settles; a rejected import skips it. *)
Definition settle (job : Job) (s : StoryStore) : (Error + CSFFile) * StoryStore :=
  let s1 := set_clock (clock s `max` job_settles job) s in
  match job_loaded job with
  | inl e => (inl e, s1)
  | inr moduleExports =>
      processCSFFileWithCache moduleExports (job_importPath job)
        (job_title job) s1
  end.

(** [remainingImportPaths.slice(0, batchSize).map(...)]: the loads of a
    batch are all issued, one after the other, before any of them
    settles.  An exception ends the loop; the loads issued by then are
    under way. *)
Fixpoint issue (batch : list (Path * StoryId)) (s : StoryStore)
  : list (Path * Job) * option Error * StoryStore :=
  match batch with
  | [] => ([], None, s)
  | (path, storyId) :: rest =>
      match loadCSFFileByStoryId storyId s with
      | inl e => ([], Some e, s)
      | inr (job, s1) =>
          let '(jobs, thrown, s2) := issue rest s1 in
          ((path, job) :: jobs, thrown, s2)
      end
  end.

(** The order in which the promises of a batch settle: by time, and by
    position among those that settle at the same time. *)
Fixpoint insert_by_time (x : nat * (Path * Job)) (l : list (nat * (Path * Job)))
  : list (nat * (Path * Job)) :=
  match l with
  | [] => [x]
  | y :: l' =>
      if decide (job_settles y.2.2 < job_settles x.2.2)
      then y :: insert_by_time x l'
      else x :: l
  end.

Definition completion_order (jobs : list (Path * Job))
  : list (nat * (Path * Job)) :=
  foldr insert_by_time [] (imap (λ i j, (i, j)) jobs).

Definition by_time (x y : nat * (Path * Job)) : Prop :=
  job_settles x.2.2 ≤ job_settles y.2.2.

(** The promises of a batch settle in their order of completion; each
    runs its callbacks. *)
Fixpoint settle_all (order : list (nat * (Path * Job)))
    (a : AllState (Path * CSFFile)) (s : StoryStore)
  : AllState (Path * CSFFile) * StoryStore :=
  match order with
  | [] => (a, s)
  | (idx, (path, job)) :: rest =>
      match settle job s with
      | (inr csfFile, s1) => settle_all rest (all_resolve idx (path, csfFile) a) s1
      | (inl e, s1) => settle_all rest (all_reject e a) s1
      end
  end.

(** [loadInBatches].  Each call handles one batch; [depth] bounds the
    nesting of the calls, which runs out only when the batch size is
    zero, where the recursion of the source does not end (the stack
    overflows). *)
Fixpoint loadInBatches (depth : nat) (batchSize : nat)
    (remainingImportPaths : list (Path * StoryId)) (s : StoryStore)
  : (Error + Promise (list (Path * CSFFile))) * StoryStore :=
  match remainingImportPaths with
  | [] => (inr (Fulfilled []), s)
  | _ :: _ =>
      match depth with
      | 0 => (inl RangeError, s)
      | S depth' =>
          let '(jobs, thrown, s1) := issue (take batchSize remainingImportPaths) s in
          let '(a, s2) :=
            settle_all (completion_order jobs) (all_init (length jobs)) s1 in
          match thrown with
          | Some e => (inl e, s2)
          | None =>
              match all_promise (length jobs) a with
              | Fulfilled firstResults =>
                  match loadInBatches depth' batchSize
                          (drop batchSize remainingImportPaths) s2 with
                  | (inl e, s3) => (inr (Rejected e), s3)
                  | (inr (Fulfilled restResults), s3) =>
                      (inr (Fulfilled (firstResults ++ restResults)%list), s3)
                  | (inr (Rejected e), s3) => (inr (Rejected e), s3)
                  | (inr Pending, s3) => (inr Pending, s3)
                  end
              | Rejected e => (inr (Rejected e), s2)
              | Pending => (inr Pending, s2)
              end
          end
      end
  end.

(** [Object.entries(entries).map(([storyId, { importPath }]) =>
    [importPath, storyId])] *)
Definition importPaths (entries : StoryIndex) : list (Path * StoryId) :=
  map (λ e, (importPath e.2, e.1)) entries.

(** [list.reduce((acc, { importPath, csfFile }) => ..., {})] *)
Definition to_record (l : list (Path * CSFFile)) : list (Path * CSFFile) :=
  fold_left (λ acc e, assign e.1 e.2 acc) l [].

Definition loadAllCSFFiles (batchSize : nat) (s : StoryStore)
  : (Error + Promise (list (Path * CSFFile))) * StoryStore :=
  match storyIndex s with
  | None => (inl (NotInitialized "loadAllCSFFiles"), s)
  | Some entries =>
      let paths := importPaths entries in
      match loadInBatches (length paths) batchSize paths s with
      | (inr (Fulfilled l), s1) => (inr (Fulfilled (to_record l)), s1)
      | other => other
      end
  end.

(** *** The operations that wait for the initialization *)

(** The callbacks of [cacheAllCSFFiles]. *)
Definition cacheAllCSFFiles_now (s : StoryStore) : Promise Value * StoryStore :=
  match loadAllCSFFiles EXTRACT_BATCH_SIZE s with
  | (inl e, s1) => (Rejected e, s1)
  | (inr (Fulfilled csfFiles), s1) =>
      (Fulfilled VVoid, set_cachedCSFFiles (Some csfFiles) s1)
  | (inr (Rejected e), s1) => (Rejected e, s1)
  | (inr Pending, s1) => (Pending, s1)
  end.

(** [onStoriesChanged] after its [await]. *)
Definition onStoriesChanged_now (newImportFn : option ModuleImportFn)
    (newStoryIndex : option StoryIndex) (s : StoryStore)
  : Promise Value * StoryStore :=
  let s1 := match newImportFn with
            | Some f => set_importFn (Some f) s
            | None => s
            end in
  let s2 := match newStoryIndex with
            | Some entries =>
                match storyIndex s1 with
                | Some _ => inr (set_storyIndex (Some entries) s1)
                | None =>
                    inl (TypeError
                           "Cannot set properties of undefined (setting 'entries')")
                end
            | None => inr s1
            end in
  match s2 with
  | inl e => (Rejected e, s1)
  | inr s2 =>
      match cachedCSFFiles s2 with
      | Some _ => cacheAllCSFFiles_now s2
      | None => (Fulfilled VVoid, s2)
      end
  end.

(** [storyIdToEntry] after its [await]. *)
Definition storyIdToEntry_now (storyId : StoryId) (s : StoryStore)
  : Promise Value * StoryStore :=
  match storyIndex s with
  | Some entries =>
      match storyIdToEntry entries storyId with
      | inl e => (Rejected e, s)
      | inr entry => (Fulfilled (VEntry entry), s)
      end
  | None =>
      (Rejected
         (TypeError
            "Cannot read properties of undefined (reading 'storyIdToEntry')"), s)
  end.

(** [loadStory] after its first [await]. *)
Definition loadStory_now (storyId : StoryId) (s : StoryStore)
  : Promise Value * StoryStore :=
  match loadCSFFileByStoryId storyId s with
  | inl e => (Rejected e, s)
  | inr (job, s1) =>
      match settle job s1 with
      | (inl e, s2) => (Rejected e, s2)
      | (inr csfFile, s2) =>
          match storyFromCSFFile storyId (Some csfFile) s2 with
          | (inl e, s3) => (Rejected e, s3)
          | (inr story, s3) => (Fulfilled (VStory story), s3)
          end
      end
  end.

(** What an operation does once [initializationPromise] is resolved. *)
Definition resume (op : GatedOp) (s : StoryStore) : Promise Value * StoryStore :=
  match op with
  | OnStoriesChanged f entries => onStoriesChanged_now f entries s
  | StoryIdToEntry storyId => storyIdToEntry_now storyId s
  | LoadStory storyId => loadStory_now storyId s
  | CacheAllCSFFiles => cacheAllCSFFiles_now s
  end.

(** A call of one of these operations: it goes on when the store is
    initialized and waits otherwise. *)
Definition gated (op : GatedOp) (s : StoryStore) : Promise Value * StoryStore :=
  if initialized s then resume op s
  else (Pending, set_waiting (waiting s ++ [op])%list s).

Definition onStoriesChanged f entries := gated (OnStoriesChanged f entries).
Definition storyIdToEntry_async storyId := gated (StoryIdToEntry storyId).
Definition loadStory storyId := gated (LoadStory storyId).
Definition cacheAllCSFFiles := gated CacheAllCSFFiles.

(** The operations in a list, one after the other. *)
Fixpoint run_all (f : GatedOp → StoryStore → Promise Value * StoryStore)
    (ops : list GatedOp) (s : StoryStore)
  : list (Promise Value) * StoryStore :=
  match ops with
  | [] => ([], s)
  | op :: rest =>
      let '(p, s1) := f op s in
      let '(ps, s2) := run_all f rest s1 in
      (p :: ps, s2)
  end.

(** *** The operations that wait, when the promise is resolved

    The operations that wait on [initializationPromise] go on together
    once it is resolved, each with its own imports under way, and so does
    the caching of the CSF files that [initialize] starts.  What runs
    without interruption is the code between two [await]s or callbacks:
    - the code of [initialize] itself, in which a callback put on
      [initializationPromise] with [then] runs at once (a
      [SynchronousPromise] calls them when it is resolved): these are the
      callbacks of [cacheAllCSFFiles];
    - then the jobs of the microtask queue, in their order: an [async]
      function that was at [await this.initializationPromise] goes on in
      such a job, until its next [await];
    - then, each time an import settles, its callbacks, up to the next
      [await] of the operation that issued it.  Imports settle by time,
      and those of the same time in the order they were issued. *)

(** What an operation is at. *)
Inductive Activity :=
| AwaitingInit (op : GatedOp)
    (** at [await this.initializationPromise] *)
| LoadingStory (storyId : StoryId)
    (** [loadStory] at [await this.loadCSFFileByStoryId(storyId)] *)
| LoadingBatch (a : AllState (Path * CSFFile)) (n : nat)
               (remaining : list (Path * StoryId))
               (results : list (Path * CSFFile))
    (** [loadInBatches] at [SynchronousPromise.all] over the [n] loads of
        a batch; [remaining] are the paths after this batch and
        [results] the files of the batches before *)
| Settled (p : Promise Value).

(** An import under way: the operation that issued it, its position in
    the batch, and the import. *)
Definition Flight : Type := nat * (nat * (Path * Job)).

Definition flight_settles (x : Flight) : Time := job_settles x.2.2.2.

Record Loop := mkLoop {
  loop_store : StoryStore;
  loop_activities : list Activity;
  loop_flights : list Flight
}.

(** The imports under way are kept in the order in which they settle. *)
Fixpoint enqueue (x : Flight) (q : list Flight) : list Flight :=
  match q with
  | [] => [x]
  | y :: q' =>
      if decide (flight_settles x < flight_settles y) then x :: q
      else y :: enqueue x q'
  end.

Definition settled (tid : nat) (p : Promise Value) (s : StoryStore) (l : Loop)
  : Loop :=
  mkLoop s (<[tid := Settled p]> (loop_activities l)) (loop_flights l).

(** [loadInBatches(remainingImportPaths)] for the operation [tid].  With
    no path left, the promise is resolved and the callbacks of
    [loadAllCSFFiles] and [cacheAllCSFFiles] run: [cachedCSFFiles] is set.
    Otherwise the loads of the next batch are issued. *)
Definition next_batch (tid : nat) (remaining : list (Path * StoryId))
    (results : list (Path * CSFFile)) (l : Loop) : Loop :=
  match remaining with
  | [] =>
      settled tid (Fulfilled VVoid)
        (set_cachedCSFFiles (Some (to_record results)) (loop_store l)) l
  | _ :: _ =>
      let '(jobs, thrown, s1) :=
        issue (take EXTRACT_BATCH_SIZE remaining) (loop_store l) in
      mkLoop s1
        (<[tid := match thrown with
                  | Some e => Settled (Rejected e)
                  | None =>
                      LoadingBatch (all_init (length jobs)) (length jobs)
                        (drop EXTRACT_BATCH_SIZE remaining) results
                  end]> (loop_activities l))
        (fold_left (λ q x, enqueue (tid, x) q) (completion_order jobs)
           (loop_flights l))
  end.

(** The callback of [cacheAllCSFFiles] on [initializationPromise]:
    [this.loadAllCSFFiles()], up to the loads of the first batch. *)
Definition start_cacheAllCSFFiles (tid : nat) (l : Loop) : Loop :=
  match storyIndex (loop_store l) with
  | None =>
      settled tid (Rejected (NotInitialized "loadAllCSFFiles")) (loop_store l) l
  | Some entries => next_batch tid (importPaths entries) [] l
  end.

(** An operation goes on after [initializationPromise]: its code up to the
    next [await]. *)
Definition go_on (tid : nat) (op : GatedOp) (l : Loop) : Loop :=
  let s := loop_store l in
  match op with
  | OnStoriesChanged newImportFn newStoryIndex =>
      let s1 := match newImportFn with
                | Some f => set_importFn (Some f) s
                | None => s
                end in
      let s2 := match newStoryIndex with
                | Some entries =>
                    match storyIndex s1 with
                    | Some _ => inr (set_storyIndex (Some entries) s1)
                    | None =>
                        inl (TypeError
                               "Cannot set properties of undefined (setting 'entries')")
                    end
                | None => inr s1
                end in
      match s2 with
      | inl e => settled tid (Rejected e) s1 l
      | inr s2 =>
          match cachedCSFFiles s2 with
          | Some _ =>
              start_cacheAllCSFFiles tid
                (mkLoop s2 (loop_activities l) (loop_flights l))
          | None => settled tid (Fulfilled VVoid) s2 l
          end
      end
  | StoryIdToEntry storyId =>
      let '(p, s1) := storyIdToEntry_now storyId s in settled tid p s1 l
  | LoadStory storyId =>
      match loadCSFFileByStoryId storyId s with
      | inl e => settled tid (Rejected e) s l
      | inr (job, s1) =>
          mkLoop s1 (<[tid := LoadingStory storyId]> (loop_activities l))
            (enqueue (tid, (0, (job_importPath job, job))) (loop_flights l))
      end
  | CacheAllCSFFiles => start_cacheAllCSFFiles tid l
  end.

(** An import settles: its callback runs, and the operation that issued
    it goes on.  The callback of an import of a batch that was rejected
    runs all the same. *)
Definition deliver (x : Flight) (l : Loop) : Loop :=
  let '(tid, (idx, (path, job))) := x in
  let '(r, s1) := settle job (loop_store l) in
  match loop_activities l !! tid with
  | Some (LoadingStory storyId) =>
      match r with
      | inl e => settled tid (Rejected e) s1 l
      | inr csfFile =>
          match storyFromCSFFile storyId (Some csfFile) s1 with
          | (inl e, s2) => settled tid (Rejected e) s2 l
          | (inr story, s2) => settled tid (Fulfilled (VStory story)) s2 l
          end
      end
  | Some (LoadingBatch a n remaining results) =>
      let a' := match r with
                | inr csfFile => all_resolve idx (path, csfFile) a
                | inl e => all_reject e a
                end in
      match all_promise n a' with
      | Fulfilled firstResults =>
          next_batch tid remaining (results ++ firstResults)
            (mkLoop s1 (loop_activities l) (loop_flights l))
      | Rejected e => settled tid (Rejected e) s1 l
      | Pending =>
          mkLoop s1
            (<[tid := LoadingBatch a' n remaining results]> (loop_activities l))
            (loop_flights l)
      end
  | _ => mkLoop s1 (loop_activities l) (loop_flights l)
  end.

(** The jobs of the microtask queue: the operations that are at
    [await this.initializationPromise] go on, in their order. *)
Definition run_jobs (l : Loop) : Loop :=
  fold_left (λ l tid,
               match loop_activities l !! tid with
               | Some (AwaitingInit op) => go_on tid op l
               | _ => l
               end)
    (seq 0 (length (loop_activities l))) l.

(** The imports settle, one after the other, [fuel] of them at most. *)
Fixpoint run_imports (fuel : nat) (l : Loop) : Loop :=
  match fuel, loop_flights l with
  | S fuel', x :: rest =>
      run_imports fuel'
        (deliver x (mkLoop (loop_store l) (loop_activities l) rest))
  | _, _ => l
  end.

(** The imports that are still to settle: those under way and those of
    the batches to come. *)
Definition paths_left (a : Activity) : nat :=
  match a with
  | LoadingBatch _ _ remaining _ => length remaining
  | _ => 0
  end.

Definition imports_left (l : Loop) : nat :=
  length (loop_flights l) + sum_list (paths_left <$> loop_activities l).

(** The loop runs until nothing is left to do. *)
Definition run_loop (l : Loop) : Loop :=
  let l1 := run_jobs l in run_imports (imports_left l1) l1.

(** The operation is at [await this.initializationPromise]. *)
Definition at_await (a : Activity) : Prop := ∃ op, a = AwaitingInit op.

(** The imports under way that an operation issued. *)
Definition flights_of (tid : nat) (q : list Flight) : nat :=
  length (filter (λ x, x.1 = tid) q).

(** An operation and its imports under way: an operation that waits has
    imports to wait for, and [SynchronousPromise.all] waits for as many
    imports as it has promises that are not fulfilled. *)
Definition activity_ok (q : list Flight) (tid : nat) (a : Activity) : Prop :=
  match a with
  | AwaitingInit _ => flights_of tid q = 0
  | LoadingStory _ => flights_of tid q = 1
  | LoadingBatch a n _ _ =>
      rejection a = None ∧ numResolved a + flights_of tid q = n ∧
      0 < flights_of tid q
  | Settled (Fulfilled _) => flights_of tid q = 0
  | Settled (Rejected _) => True
  | Settled Pending => False
  end.

Definition loop_ok (acts : list Activity) (q : list Flight) : Prop :=
  (∀ tid a, acts !! tid = Some a → activity_ok q tid a) ∧
  (∀ tid, length acts ≤ tid → flights_of tid q = 0).

(** The promise of an operation. *)
Definition promise_of (a : Activity) : Promise Value :=
  match a with
  | Settled p => p
  | _ => Pending
  end.

(** A client issues an operation that waits on [initializationPromise]
    while the loop has work to do, the store being initialized:
    [cacheAllCSFFiles] puts its callback on the resolved promise with
    [then], which runs it at once; an [async] function stops at its first
    [await], and goes on in a job of the microtask queue. *)
Definition issue_gated (op : GatedOp) (l : Loop) : Loop :=
  let tid := length (loop_activities l) in
  let l1 := mkLoop (loop_store l) (loop_activities l ++ [AwaitingInit op])
              (loop_flights l) in
  match op with
  | CacheAllCSFFiles => start_cacheAllCSFFiles tid l1
  | _ => l1
  end.

(** [resolveInitializationPromise()]: the first call resolves the promise;
    the callbacks of the operations that wait are called in the order they
    began to wait, which runs [cacheAllCSFFiles] at once and lets an
    [async] function go on in a job of the microtask queue.  A later call
    does nothing. *)
Definition resolveInitializationPromise (l : Loop) : Loop :=
  let s := loop_store l in
  if initialized s then l
  else
    fold_left (λ l op, issue_gated op l) (waiting s)
      (mkLoop (set_waiting [] (set_initialized true s)) (loop_activities l)
         (loop_flights l)).

(** The code of [initialize]: the first operation of the loop is the
    promise that [initialize] returns. *)
Definition initialize_sync (newStoryIndex : option StoryIndex)
    (newImportFn : ModuleImportFn) (cache : bool) (s : StoryStore) : Loop :=
  let s1 := set_importFn (Some newImportFn)
              (set_storyIndex (Some (default [] newStoryIndex)) s) in
  let l1 := resolveInitializationPromise
              (mkLoop s1 [Settled (Fulfilled VVoid)] []) in
  if cache then start_cacheAllCSFFiles 0 l1 else l1.

(** What a client sees of the loop: the promise of its first operation,
    the promises of the others, and the store. *)
Definition outcome (l : Loop)
  : Promise Value * list (Promise Value) * StoryStore :=
  (promise_of (default (Settled Pending) (head (loop_activities l))),
   promise_of <$> tail (loop_activities l),
   loop_store l).

(** [initialize], followed until nothing is left to do: its own promise,
    the promises of the operations that were waiting, and the store. *)
Definition initialize (newStoryIndex : option StoryIndex)
    (newImportFn : ModuleImportFn) (cache : bool) (s : StoryStore)
  : Promise Value * list (Promise Value) * StoryStore :=
  outcome (run_loop (initialize_sync newStoryIndex newImportFn cache s)).

(** [initialize], after which its caller issues the operations [ops], one
    after the other and before anything else happens; then the loop runs
    until nothing is left to do. *)
Definition initialize_then (newStoryIndex : option StoryIndex)
    (newImportFn : ModuleImportFn) (cache : bool) (ops : list GatedOp)
    (s : StoryStore) : Promise Value * list (Promise Value) * StoryStore :=
  outcome
    (run_loop
       (fold_left (λ l op, issue_gated op l) ops
          (initialize_sync newStoryIndex newImportFn cache s))).

(** The result of [loadInBatches] for the paths that were left when
    [results] had been loaded, with the callbacks of [loadAllCSFFiles] and
    [cacheAllCSFFiles], as the promise of an operation. *)
Definition cached_from (results : list (Path * CSFFile))
    (r : (Error + Promise (list (Path * CSFFile))) * StoryStore)
  : Promise Value * StoryStore :=
  match r with
  | (inl e, s1) => (Rejected e, s1)
  | (inr (Fulfilled rest), s1) =>
      (Fulfilled VVoid, set_cachedCSFFiles (Some (to_record (results ++ rest))) s1)
  | (inr (Rejected e), s1) => (Rejected e, s1)
  | (inr Pending, s1) => (Pending, s1)
  end.

(** *** The views *)

(** The inner [reduce] of [extract], on the entries of a story. *)
Definition extract_field (storyAcc : JsRecord) (kv : string * JsValue) : JsRecord :=
  if decide (kv.1 = "moduleExport") then storyAcc
  else if isFunction kv.2 then storyAcc
  else match kv.2 with
       | JsArray items => assign kv.1 (JsArray (js_sort items)) storyAcc
       | value => assign kv.1 value storyAcc
       end.

Definition extract_story (story : PreparedStoryData) : JsRecord :=
  fold_left extract_field (object_entries story)
    [("args", JsObject (story_initialArgs story))].

(** The calls [f x] for the [x] of a list, in the order of the list, each
    on the store that the call before left, none of which throws: the
    values they return and the store that the last one leaves. *)
Inductive threaded {X Y : Type}
    (f : X → StoryStore → (Error + Y) * StoryStore)
  : list X → StoryStore → list Y → StoryStore → Prop :=
| threaded_nil s : threaded f [] s [] s
| threaded_cons x xs s y s1 ys s' :
    f x s = (inr y, s1) → threaded f xs s1 ys s' →
    threaded f (x :: xs) s (y :: ys) s'.

(** The entries of the index that are stories: those that the loop of
    [extract] does not leave at [if (type === 'docs') return acc]. *)
Definition story_entries (entries : list (StoryId * IndexEntry))
  : list (StoryId * IndexEntry) :=
  filter (λ e, entryType e.2 = StoryEntry) entries.

(** The call of [storyFromCSFFile] in [extract], for an entry of the
    index. *)
Definition prepare_entry (cached : list (Path * CSFFile))
    (e : StoryId * IndexEntry) (s : StoryStore)
  : (Error + PreparedStory) * StoryStore :=
  storyFromCSFFile e.1 (assoc (importPath e.2) cached) s.

(** What the loop of [extract] does with a prepared story: it leaves it
    out or puts its record under the key of the entry. *)
Definition extract_put (includeDocsOnly : bool)
    (acc : list (StoryId * JsRecord)) (es : (StoryId * IndexEntry) * PreparedStory)
  : list (StoryId * JsRecord) :=
  if negb includeDocsOnly && truthy (docsOnly (content es.2)) then acc
  else assign es.1.1 (extract_story (content es.2)) acc.

(** The outer [reduce] of [extract], on the entries of the index. *)
Fixpoint extract_entries (includeDocsOnly : bool)
    (cached : list (Path * CSFFile)) (entries : StoryIndex)
    (acc : list (StoryId * JsRecord)) (s : StoryStore)
  : (Error + list (StoryId * JsRecord)) * StoryStore :=
  match entries with
  | [] => (inr acc, s)
  | (storyId, entry) :: rest =>
      match entryType entry with
      | DocsEntry => extract_entries includeDocsOnly cached rest acc s
      | StoryEntry =>
          match storyFromCSFFile storyId (assoc (importPath entry) cached) s with
          | (inl e, s1) => (inl e, s1)
          | (inr story, s1) =>
              if negb includeDocsOnly && truthy (docsOnly (content story))
              then extract_entries includeDocsOnly cached rest acc s1
              else extract_entries includeDocsOnly cached rest
                     (assign storyId (extract_story (content story)) acc) s1
          end
      end
  end.

Definition extract (includeDocsOnly : bool) (s : StoryStore)
  : (Error + list (StoryId * JsRecord)) * StoryStore :=
  match storyIndex s with
  | None => (inl (NotInitialized "extract"), s)
  | Some entries =>
      match cachedCSFFiles s with
      | None => (inl (CacheNotReady "extract()"), s)
      | Some cached => extract_entries includeDocsOnly cached entries [] s
      end
  end.

(** [fromId]; the value is the prepared story that the bound story
    extends, [None] standing for [null]. *)
Definition fromId (storyId : StoryId) (s : StoryStore)
  : (Error + option PreparedStory) * StoryStore :=
  match storyIndex s with
  | None => (inl (NotInitialized "fromId"), s)
  | Some entries =>
      match cachedCSFFiles s with
      | None => (inl (CacheNotReady "fromId/raw()"), s)
      | Some cached =>
          match storyIdToEntry entries storyId with
          | inl _ => (inr None, s)
          | inr entry =>
              match storyFromCSFFile storyId (assoc (importPath entry) cached) s with
              | (inl e, s1) => (inl e, s1)
              | (inr story, s1) => (inr (Some story), s1)
              end
          end
      end
  end.

(** *** Runs of the store *)

(** The calls a client can make. *)
Inductive Call :=
| CallSetProjectAnnotations (pa : ProjectAnnotations)
| CallInitialize (newStoryIndex : option StoryIndex)
                 (newImportFn : ModuleImportFn) (cache : bool)
| CallGated (op : GatedOp)
| CallLoadCSFFileByStoryId (storyId : StoryId)
| CallLoadAllCSFFiles (batchSize : nat)
| CallStoryFromCSFFile (storyId : StoryId) (csfFile : option CSFFile)
| CallExtract (includeDocsOnly : bool)
| CallFromId (storyId : StoryId)
| CallUpdateArgs (storyId : StoryId) (partial : JsRecord).

(** The store after a call. *)
Definition step (c : Call) (s : StoryStore) : StoryStore :=
  match c with
  | CallSetProjectAnnotations pa => setProjectAnnotations pa s
  | CallInitialize entries f cache => (initialize entries f cache s).2
  | CallGated op => (gated op s).2
  | CallLoadCSFFileByStoryId storyId =>
      match loadCSFFileByStoryId storyId s with
      | inl _ => s
      | inr (job, s1) => (settle job s1).2
      end
  | CallLoadAllCSFFiles batchSize => (loadAllCSFFiles batchSize s).2
  | CallStoryFromCSFFile storyId csfFile => (storyFromCSFFile storyId csfFile s).2
  | CallExtract includeDocsOnly => (extract includeDocsOnly s).2
  | CallFromId storyId => (fromId storyId s).2
  | CallUpdateArgs storyId partial =>
      set_args (args_update storyId partial (args s)) s
  end.

Definition run (calls : list Call) (s : StoryStore) : StoryStore :=
  fold_left (λ s c, step c s) calls s.

(** The stores along a run, the first one included. *)
Fixpoint trajectory (calls : list Call) (s : StoryStore) : list StoryStore :=
  match calls with
  | [] => [s]
  | c :: rest => s :: trajectory rest (step c s)
  end.

(** The number of times [initializationPromise] goes from pending to
    resolved along a list of stores. *)
Fixpoint transitions (l : list StoryStore) : nat :=
  match l with
  | s :: ((s' :: _) as rest) =>
      (if negb (initialized s) && initialized s' then 1 else 0) + transitions rest
  | _ => 0
  end.
End Store.

Arguments initialize {csf} newStoryIndex newImportFn cache s : simpl never.
Arguments flights_of {csf} tid q : simpl never.
Arguments initialize_then {csf} newStoryIndex newImportFn cache ops s : simpl never.
Arguments run_loop {csf} l : simpl never.

(** ** Predicates of the specification *)

Section MemoizePredicates.
Context {K C : Type} `{EqDecision K}.
Implicit Types (k : K) (l : list (K * Obj C)).

(** What holds of every cache that the store can reach: a key and a
    reference occur once, the limit is kept, and the references are
    allocated ones. *)
Definition cache_ok (limit : nat) l (next : ObjRef) : Prop :=
  NoDup l.*1 ∧ NoDup ((λ e, ref e.2) <$> l) ∧
  (0 < limit → length l ≤ limit) ∧
  ∀ k v, (k, v) ∈ l → ref v < next.

(** [retains k v bound l]: the call [k] is in the cache with the result
    [v], and the calls used more recently are among [bound]. *)
Definition retains k (v : Obj C) (bound : list K) l : Prop :=
  ∃ l1 l2, l = l1 ++ (k, v) :: l2 ∧ l2.*1 ⊆ bound.

(** [owned r k l]: in the cache, the object [r] is the result of the
    call [k] and of no other. *)
Definition owned (r : ObjRef) k l : Prop :=
  ∀ k' v', (k', v') ∈ l → ref v' = r → k' = k.

(** Calls in a row, each with its key and what its computation gives. *)
Definition memo_calls (limit : nat) (calls : list (K * (Error + C)))
    (st : Memoized K C * ObjRef) : Memoized K C * ObjRef :=
  fold_left (λ st c, ((memoize limit c.1 c.2 st.1 st.2).1.2,
                      (memoize limit c.1 c.2 st.1 st.2).2))
    calls st.
Arguments memo_calls limit calls st : simpl never.

(** The keys of [calls] other than [k], each one once. *)
Definition other_keys k (calls : list K) : list K :=
  remove_dups (filter (λ k', k' ≠ k) calls).
End MemoizePredicates.

Section StorePredicates.
Context `{csf : CsfModule}.

(** A call of [processCSFFileWithCache], and calls in a row. *)
Definition CsfCall : Type := ModuleExports * Path * ComponentTitle.

Definition csf_key (c : CsfCall) : CsfKey := (ref c.1.1, c.1.2, c.2).

Definition csf_call (c : CsfCall) (s : StoryStore) : (Error + CSFFile) * StoryStore :=
  processCSFFileWithCache c.1.1 c.1.2 c.2 s.

Definition csf_calls (calls : list CsfCall) (s : StoryStore) : StoryStore :=
  fold_left (λ s c, (csf_call c s).2) calls s.

(** A call of [prepareStoryWithCache], and calls in a row. *)
Record StoryCall := mkStoryCall {
  call_file : CSFFile;
  call_storyId : StoryId;
  call_annotations : StoryAnnotations;
  call_project : Obj NormalizedProjectAnnotations
}.

Definition story_key (c : StoryCall) : StoryKey :=
  ((ref (call_file c), call_storyId c), ref (call_file c), ref (call_project c)).

Definition story_call (c : StoryCall) (s : StoryStore)
  : (Error + PreparedStory) * StoryStore :=
  prepareStoryWithCache (call_file c) (call_storyId c) (call_annotations c)
    (call_project c) s.

Definition story_calls (calls : list StoryCall) (s : StoryStore) : StoryStore :=
  fold_left (λ s c, (story_call c s).2) calls s.

(** The two caches of a store are in order. *)
Definition caches_ok (s : StoryStore) : Prop :=
  cache_ok CSF_CACHE_SIZE (lru (csfCache s)) (nextRef s) ∧
  cache_ok STORY_CACHE_SIZE (lru (storyCache s)) (nextRef s).

(** What every operation but [initialize] keeps or lets grow. *)
Definition evolves (s s' : StoryStore) : Prop :=
  nextRef s ≤ nextRef s' ∧
  (caches_ok s → caches_ok s') ∧
  initialized s' = initialized s ∧
  waiting s' = waiting s ∧
  (storyIndex s = None → storyIndex s' = None).

(** The record of the call of the loader behind a job issued at [t]. *)
Definition import_of (t : Time) (pj : Path * Job) : ImportRecord :=
  mkImport (job_importPath pj.2) t (job_settles pj.2)
    (if job_loaded pj.2 is inr _ then true else false).

(** The import behind a job is rejected. *)
Definition import_failed (pj : Path * Job) : Prop :=
  ∃ e, job_loaded pj.2 = inl e.

(** [batched batchSize t log]: the calls of the loader in [log] come in
    batches, the first of which is issued at [t]; the calls of a batch,
    [batchSize] of them at most, are issued at the same time, those of the
    next batch not before each of them has settled; only the last batch can
    be smaller. *)
Inductive batched (batchSize : nat) : Time → list ImportRecord → Prop :=
| batched_nil t : batched batchSize t []
| batched_cons t t' batch rest :
    batch ≠ [] →
    length batch ≤ batchSize →
    Forall (λ r, imp_issued r = t ∧ imp_settles r ≤ t') batch →
    (rest ≠ [] → length batch = batchSize) →
    batched batchSize t' rest →
    batched batchSize t (batch ++ rest).

(** The keys of an object that is filled in the order of [paths]. *)
Definition insertion_order (paths : list Path) : list Path :=
  fold_left (λ acc p, if decide (p ∈ acc) then acc else acc ++ [p]) paths [].

Definition is_initialize (c : Call) : bool :=
  match c with CallInitialize _ _ _ => true | _ => false end.

(** The store with another loader or index, when one is given. *)
Definition with_changes (newImportFn : option ModuleImportFn)
    (newStoryIndex : option StoryIndex) (s : StoryStore) : StoryStore :=
  let s1 := match newImportFn with
            | Some f => set_importFn (Some f) s
            | None => s
            end in
  match newStoryIndex with
  | Some entries => set_storyIndex (Some entries) s1
  | None => s1
  end.

(** What holds of every store that a client can reach: the caches are in
    order and the index is not set before the initialization. *)
Definition store_inv (s : StoryStore) : Prop :=
  caches_ok s ∧ (initialized s = false → storyIndex s = None).

(** The stores that a client can reach from a new one. *)
Definition reachable (s : StoryStore) : Prop :=
  ∃ calls, s = run calls new_StoryStore.
End StorePredicates.

(** ** A sample project

    A [./csf] whose modules export, for each story, its parameters; the
    component annotations are the title.  It is used to run the store on
    concrete inputs. *)

Definition sample_story (storyId : StoryId) (parameters : JsRecord)
    (title : ComponentTitle) (project : JsRecord) : PreparedStoryData :=
  {| story_id := storyId;
     story_name := storyId;
     story_title := title;
     story_tags := ["story"; "autodocs"];
     story_parameters := merge_args parameters project;
     story_argTypes := [];
     story_initialArgs := [("label", JsString "Button")];
     story_moduleExport := ExportObject parameters;
     story_unboundStoryFn := 7;
     story_playFunction := None |}.

#[local] Instance sample_csf : CsfModule := {|
  ModuleContent := list (StoryId * JsRecord);
  ComponentAnnotations := ComponentTitle;
  StoryAnnotations := StoryId * JsRecord;
  ProjectAnnotations := JsRecord;
  NormalizedProjectAnnotations := JsRecord;
  processCSFFile exports path title :=
    inr (mkCSFFile title (map (λ e, (e.1, e)) exports));
  prepareStory storyAnnotations title project :=
    inr (sample_story storyAnnotations.1 storyAnnotations.2 title project);
  normalizeProjectAnnotations pa := pa
|}.

Definition button_module : @ModuleExports sample_csf :=
  mkObj 1 [("button--primary", []);
           ("button--hidden", [("docsOnly", JsBool true)])].

Definition input_module : @ModuleExports sample_csf :=
  mkObj 2 [("input--basic", [])].

Definition sample_index : StoryIndex :=
  [ ("button--primary", mkIndexEntry StoryEntry "./Button.stories.js" "Button");
    ("input--basic", mkIndexEntry StoryEntry "./Input.stories.js" "Input");
    ("button--hidden", mkIndexEntry StoryEntry "./Button.stories.js" "Button") ].

(** A loader that answers for the two modules, the first one more slowly. *)
Definition sample_importFn : @ModuleImportFn sample_csf := λ _ path,
  if decide (path = "./Button.stories.js") then mkImportResult 5 (inr button_module)
  else if decide (path = "./Input.stories.js") then mkImportResult 2 (inr input_module)
  else mkImportResult 1 (inl (OtherError "Cannot find module")).

(** A loader that fails for the module of the buttons. *)
Definition failing_importFn : @ModuleImportFn sample_csf := λ _ path,
  if decide (path = "./Input.stories.js") then mkImportResult 2 (inr input_module)
  else mkImportResult 5 (inl (OtherError "Failed to fetch")).

(** A store with its project annotations, before and after
    [initialize]. *)
Definition configured_store : @StoryStore sample_csf :=
  setProjectAnnotations ([] : @ProjectAnnotations sample_csf) new_StoryStore.

Definition ready_store : @StoryStore sample_csf :=
  (initialize (Some sample_index) sample_importFn false configured_store).2.

(** The same with every CSF file cached. *)
Definition cached_store : @StoryStore sample_csf :=
  (initialize (Some sample_index) sample_importFn true configured_store).2.

(** An initialized store whose loader fails for one module. *)
Definition flaky_store : @StoryStore sample_csf :=
  (initialize (Some sample_index) failing_importFn false configured_store).2.

(** Calls of [processCSFFileWithCache] for the two modules. *)
Definition button_call : @CsfCall sample_csf :=
  (button_module, "./Button.stories.js", "Button").

Definition input_call : @CsfCall sample_csf :=
  (input_module, "./Input.stories.js", "Input").

(** The calls that lead to [ready_store]. *)
Definition sample_setup : list (@Call sample_csf) :=
  [CallSetProjectAnnotations ([] : @ProjectAnnotations sample_csf);
   CallInitialize (Some sample_index) sample_importFn false].

(** The CSF file of the buttons, as the store makes it first. *)
Definition button_file : @CSFFile sample_csf :=
  mkObj 1 (mkCSFFile "Button"
             [("button--primary", ("button--primary", []));
              ("button--hidden", ("button--hidden", [("docsOnly", JsBool true)]))]).

(** The story that the store prepares first from that file. *)
Definition primary_story : PreparedStory :=
  mkObj 1 (sample_story "button--primary" [] "Button" []).

(** The first batch of two of [flaky_store]: the loads it issues and what
    is left when they have settled. *)
Definition flaky_issue :=
  issue (take 2 (importPaths sample_index)) flaky_store.

Definition flaky_batch :=
  settle_all (completion_order flaky_issue.1.1)
    (all_init (length flaky_issue.1.1)) flaky_issue.2.

(** What [extract()] gives on [cached_store]. *)
Definition sample_extracted : list (StoryId * JsRecord) :=
  match (extract false cached_store).1 with
  | inr r => r
  | inl _ => []
  end.

(** Operations issued before the initialization. *)
Definition early_ops : list (@GatedOp sample_csf) :=
  [LoadStory "button--primary"; StoryIdToEntry "input--basic"].

(** Two strings that are not ASCII, in UTF-8: the characters U+FF5E and
    U+1F600.  In UTF-16 the second one is the pair D83D DE00, which comes
    before FF5E. *)
Definition fullwidth_tilde : string :=
  String (Ascii.ascii_of_N 239)
    (String (Ascii.ascii_of_N 189) (String (Ascii.ascii_of_N 158) EmptyString)).

Definition grinning_face : string :=
  String (Ascii.ascii_of_N 240)
    (String (Ascii.ascii_of_N 159)
       (String (Ascii.ascii_of_N 152)
          (String (Ascii.ascii_of_N 128) EmptyString))).

(** Operations issued before the initialization, one of them
    [cacheAllCSFFiles]. *)
Definition early_caching : list (@GatedOp sample_csf) :=
  [CacheAllCSFFiles; LoadStory "input--basic"].

(** ** More of the store *)

Section MoreStore.
Context `{csf : CsfModule}.

(** The [.map] of [componentStoriesFromCSFFile]: the stories of the
    identifiers, in their order; an exception ends it. *)
Fixpoint storiesFromCSFFile (storyIds : list StoryId) (csfFile : CSFFile)
    (s : StoryStore) : (Error + list PreparedStory) * StoryStore :=
  match storyIds with
  | [] => (inr [], s)
  | storyId :: rest =>
      match storyFromCSFFile storyId (Some csfFile) s with
      | (inl e, s1) => (inl e, s1)
      | (inr story, s1) =>
          match storiesFromCSFFile rest csfFile s1 with
          | (inl e, s2) => (inl e, s2)
          | (inr stories, s2) => (inr (story :: stories), s2)
          end
      end
  end.

(** [componentStoriesFromCSFFile]: the stories of the file whose
    identifiers are keys of the index, in the order of the index. *)
Definition componentStoriesFromCSFFile (csfFile : CSFFile) (s : StoryStore)
  : (Error + list PreparedStory) * StoryStore :=
  match storyIndex s with
  | None => (inl (NotInitialized "componentStoriesFromCSFFile"), s)
  | Some entries =>
      storiesFromCSFFile
        (filter (λ storyId, is_Some (assoc storyId (stories (content csfFile))))
           entries.*1)
        csfFile s
  end.

(** What [getSetIndexPayload] adds to the entry of a story: the fields
    [args], [initialArgs], [argTypes] and [parameters], read from the
    record that [extract] made of the story ([JsUndefined] for a field
    that the record does not have). *)
Record PreparedFields := mkPreparedFields {
  prepared_args : JsValue;
  prepared_initialArgs : JsValue;
  prepared_argTypes : JsValue;
  prepared_parameters : JsValue
}.

Definition js_field (key : string) (obj : JsRecord) : JsValue :=
  default JsUndefined (assoc key obj).

(** An entry of the payload: the entry of the index and, for a story that
    [extract] gave, the added fields. *)
Definition payload_entry (stories : list (StoryId * JsRecord))
    (e : StoryId * IndexEntry) : StoryId * (IndexEntry * option PreparedFields) :=
  (e.1,
   (e.2,
    match assoc e.1 stories with
    | Some story =>
        Some (mkPreparedFields (js_field "initialArgs" story)
                (js_field "initialArgs" story) (js_field "argTypes" story)
                (js_field "parameters" story))
    | None => None
    end)).

(** [Object.fromEntries]: a key keeps its first place and its last
    value. *)
Definition fromEntries {V} (l : list (StoryId * V)) : list (StoryId * V) :=
  fold_left (λ acc e, assign e.1 e.2 acc) l [].

(** [getSetIndexPayload]: the entries of [{ v: 4, entries }]. *)
Definition getSetIndexPayload (s : StoryStore)
  : (Error + list (StoryId * (IndexEntry * option PreparedFields))) * StoryStore :=
  match storyIndex s with
  | None => (inl (NotInitialized "getSetIndexPayload"), s)
  | Some _ =>
      match extract true s with
      | (inl e, s1) => (inl e, s1)
      | (inr stories, s1) =>
          match storyIndex s1 with
          | Some entries => (inr (fromEntries (payload_entry stories <$> entries)), s1)
          | None =>
              (inl (TypeError
                      "Cannot read properties of undefined (reading 'entries')"), s1)
          end
      end
  end.

(** [raw]: the stories that [fromId] gives for the identifiers of the
    records of [extract()], in their order, those for which it gives [null]
    left out.  The identifier of a record is the field [id] that [extract]
    copied from the prepared story, a string; a value that is no string is
    no identifier of the index, and [fromId] gives [null] for it. *)
Definition fromId_of_record (record : JsRecord) (s : StoryStore)
  : (Error + option PreparedStory) * StoryStore :=
  match js_field "id" record with
  | JsString storyId => fromId storyId s
  | _ => (inr None, s)
  end.

Fixpoint raw_stories (records : list JsRecord) (s : StoryStore)
  : (Error + list PreparedStory) * StoryStore :=
  match records with
  | [] => (inr [], s)
  | record :: rest =>
      match fromId_of_record record s with
      | (inl e, s1) => (inl e, s1)
      | (inr found, s1) =>
          match raw_stories rest s1 with
          | (inl e, s2) => (inl e, s2)
          | (inr stories, s2) =>
              (inr (match found with
                    | Some story => story :: stories
                    | None => stories
                    end), s2)
          end
      end
  end.

Definition raw (s : StoryStore) : (Error + list PreparedStory) * StoryStore :=
  match extract false s with
  | (inl e, s1) => (inl e, s1)
  | (inr records, s1) => raw_stories records.*2 s1
  end.

(** *** The functions that read [globals]

    The field [globals] of the store is set by [setProjectAnnotations] and
    read by the functions below, which do not change it.  It is not among
    the fields of [StoryStore]: these functions take it as an argument,
    [None] when the field is not set and the values that [globals.get()]
    gives otherwise. *)

(** The result of [getStoryContext]: the fields of the story, with
    [args], [globals] and [hooks]; [context_args] is [None] when the args
    store has no values for the story, and [context_hooks] tells whether
    [hooks] has a context for it. *)
Record StoryContextForLoaders := mkStoryContext {
  context_story : PreparedStoryData;
  context_args : option JsRecord;
  context_globals : JsRecord;
  context_hooks : bool
}.

Definition getStoryContext (globals : option JsRecord) (story : PreparedStory)
    (s : StoryStore) : Error + StoryContextForLoaders :=
  match globals with
  | None => inl (NotInitialized "getStoryContext")
  | Some g =>
      inr (mkStoryContext (content story)
             (args_get (story_id (content story)) (args s)) g
             (bool_decide (story_id (content story) ∈ hooks s)))
  end.

(** The property key that a value is used as.  The values used as keys
    below are the [id] and the [title] of the records of [extract], which
    are strings; a string is its own key.  The keys that JavaScript makes
    of other values are not modelled: [None]. *)
Definition property_key (v : JsValue) : option string :=
  match v with
  | JsString key => Some key
  | _ => None
  end.

(** The [reduce] of [getSetStoriesPayload]: [acc[title] = {}] for the title
    of each record. *)
Definition kindParameters (stories : list (StoryId * JsRecord))
  : list (string * JsRecord) :=
  fold_left (λ acc story,
               match property_key (js_field "title" story) with
               | Some title => assign title [] acc
               | None => acc
               end) stories.*2 [].

Record SetStoriesPayload := mkSetStoriesPayload {
  payload_v : Z;
  payload_globals : JsRecord;
  payload_globalParameters : JsRecord;
  payload_kindParameters : list (string * JsRecord);
  payload_stories : list (StoryId * JsRecord)
}.

Definition getSetStoriesPayload (globals : option JsRecord) (s : StoryStore)
  : (Error + SetStoriesPayload) * StoryStore :=
  match globals with
  | None => (inl (NotInitialized "getSetStoriesPayload"), s)
  | Some g =>
      match extract true s with
      | (inl e, s1) => (inl e, s1)
      | (inr stories, s1) =>
          (inr (mkSetStoriesPayload 2 g [] (kindParameters stories) stories), s1)
      end
  end.

(** [pick] of lodash on the properties of an object: those of the given
    keys that the object has, in the order of the keys. *)
Definition pick (keys : list string) (obj : JsRecord) : JsRecord :=
  omap (λ key, (λ v, (key, v)) <$> assoc key obj) keys.

(** [pick] on a value: a value that is no object has none of the keys. *)
Definition pick_value (keys : list string) (v : JsValue) : JsRecord :=
  match v with
  | JsObject props => pick keys props
  | _ => []
  end.

Definition allowedParameters : list string :=
  ["fileName"; "docsOnly"; "framework"; "__id"; "__isArgsStory"].

(** The callback of [mapValues] in [getStoriesJsonData], on a record of
    [extract]; destructuring [importPath] throws when the index has no
    entry under the [id] of the record. *)
Definition v2_compat_entry (entries : StoryIndex) (story : JsRecord)
  : Error + JsRecord :=
  match property_key (js_field "id" story) ≫= (λ storyId, assoc storyId entries) with
  | None =>
      inl (TypeError
             "Cannot destructure property 'importPath' of 'storyIndex.entries[story.id]' as it is undefined.")
  | Some entry =>
      inr (assign "parameters"
             (JsObject
                (assign "fileName" (JsString (importPath entry))
                   (pick_value allowedParameters (js_field "parameters" story))))
          (assign "story" (js_field "name" story)
          (assign "kind" (js_field "title" story)
          (assign "importPath" (JsString (importPath entry))
             (pick ["id"; "name"; "title"] story)))))
  end.

(** [mapValues] of lodash with this callback: the keys stay, in their
    order; an exception ends it. *)
Fixpoint v2_compat_entries (entries : StoryIndex)
    (stories : list (StoryId * JsRecord)) : Error + list (StoryId * JsRecord) :=
  match stories with
  | [] => inr []
  | (storyId, story) :: rest =>
      match v2_compat_entry entries story with
      | inl e => inl e
      | inr entry =>
          match v2_compat_entries entries rest with
          | inl e => inl e
          | inr rest' => inr ((storyId, entry) :: rest')
          end
      end
  end.

(** [getStoriesJsonData]: the [stories] of [{ v: 3, stories }]. *)
Definition getStoriesJsonData (globals : option JsRecord) (s : StoryStore)
  : (Error + list (StoryId * JsRecord)) * StoryStore :=
  match storyIndex s with
  | None => (inl (NotInitialized "getStoriesJsonData"), s)
  | Some entries =>
      match getSetStoriesPayload globals s with
      | (inl e, s1) => (inl e, s1)
      | (inr value, s1) =>
          match v2_compat_entries entries (payload_stories value) with
          | inl e => (inl e, s1)
          | inr stories => (inr stories, s1)
          end
      end
  end.

(** The story [storyId] has argument values and a hooks context. *)
Definition has_context (storyId : StoryId) (s : StoryStore) : Prop :=
  is_Some (args s !! storyId) ∧ storyId ∈ hooks s.

(** What loading modules leaves as it is. *)
Definition loads_only (s s' : StoryStore) : Prop :=
  storyIndex s' = storyIndex s ∧ importFn s' = importFn s ∧
  projectAnnotations s' = projectAnnotations s ∧
  args s' = args s ∧ hooks s' = hooks s ∧ storyCache s' = storyCache s ∧
  initialized s' = initialized s ∧ waiting s' = waiting s.

(** What preparing stories leaves as it is. *)
Definition prepares_only (s s' : StoryStore) : Prop :=
  storyIndex s' = storyIndex s ∧ importFn s' = importFn s ∧
  projectAnnotations s' = projectAnnotations s ∧
  cachedCSFFiles s' = cachedCSFFiles s ∧ csfCache s' = csfCache s ∧
  clock s' = clock s ∧ imports s' = imports s ∧
  initialized s' = initialized s ∧ waiting s' = waiting s.

(** The project annotations of the store, and those that the prepared
    stories of the cache were made with, are objects allocated before
    [nextRef]. *)
Definition project_refs_ok (s : StoryStore) : Prop :=
  (∀ pa, projectAnnotations s = Some pa → ref pa < nextRef s) ∧
  (∀ k v, (k, v) ∈ lru (storyCache s) → k.2 < nextRef s).
End MoreStore.

(** ** More of the sample project *)

(** The values of [globals]. *)
Definition sample_globals : JsRecord := [("theme", JsString "light")].

(** An initialized store without project annotations. *)
Definition unconfigured_store : @StoryStore sample_csf :=
  (initialize (Some sample_index) sample_importFn false new_StoryStore).2.

(** A store initialized without an index. *)
Definition empty_store : @StoryStore sample_csf :=
  (initialize None sample_importFn false configured_store).2.

(** The CSF files that [cached_store] has cached. *)
Definition sample_cached_files : list (Path * @CSFFile sample_csf) :=
  default [] (cachedCSFFiles cached_store).

(** The story that [loadStory] gives first on [ready_store]. *)
Definition loaded_story : PreparedStory :=
  mkObj 2 (sample_story "button--primary" [] "Button" []).

(** The stories of the file of the buttons. *)
Definition sample_component_stories : list PreparedStory :=
  match (componentStoriesFromCSFFile button_file ready_store).1 with
  | inr prepared => prepared
  | inl _ => []
  end.

(** The story prepared after the project annotations were set again. *)
Definition reprepared_story : PreparedStory :=
  mkObj 2 (sample_story "button--primary" [] "Button" []).

(** What [extract({ includeDocsOnly: true })] gives on [cached_store], and
    the payloads made of it. *)
Definition sample_extracted_all : list (StoryId * JsRecord) :=
  match (extract true cached_store).1 with
  | inr r => r
  | inl _ => []
  end.

Definition sample_index_payload
  : list (StoryId * (IndexEntry * option PreparedFields)) :=
  match (getSetIndexPayload cached_store).1 with
  | inr payload => payload
  | inl _ => []
  end.

Definition sample_legacy : list (StoryId * JsRecord) :=
  match (getStoriesJsonData (Some sample_globals) cached_store).1 with
  | inr r => r
  | inl _ => []
  end.

(** An index with a story whose module is not cached in [cached_store]. *)
Definition link_index : StoryIndex :=
  [ ("link--basic", mkIndexEntry StoryEntry "./Link.stories.js" "Link") ].

(** Calls made after a story was prepared. *)
Definition later_calls : list (@Call sample_csf) :=
  [CallUpdateArgs "button--primary" [("label", JsString "Submit")];
   CallSetProjectAnnotations ([] : @ProjectAnnotations sample_csf);
   CallInitialize (Some link_index) sample_importFn false].

(** A loader that gives a new module object at each call. *)
Definition fresh_importFn : @ModuleImportFn sample_csf := λ log path,
  mkImportResult 1
    (inr (mkObj (10 + length log) [("button--primary", ([] : JsRecord))]
            : @ModuleExports sample_csf)).

Definition fresh_store : @StoryStore sample_csf :=
  (initialize (Some sample_index) fresh_importFn false configured_store).2.
(** * Properties *)

(** ** Insertion-ordered objects *)

Section AssocFacts.
Context {K V : Type} `{EqDecision K}.
Implicit Types (k : K) (v : V) (l : list (K * V)).

Lemma assoc_None k l : assoc k l = None ↔ k ∉ l.*1.
Proof.
  induction l as [|[k' v'] l IH]; simpl.
  - split; [intros _; apply not_elem_of_nil | done].
  - rewrite not_elem_of_cons. destruct (decide (k' = k)) as [->|Hne].
    + split; [done | intros [? _]; done].
    + rewrite IH. split; [intros ?; split; [congruence | done] | tauto].
Qed.

Lemma assoc_Some_elem k v l : assoc k l = Some v → (k, v) ∈ l.
Proof.
  induction l as [|[k' v'] l IH]; simpl; [done|].
  destruct (decide (k' = k)) as [->|Hne].
  - intros [= ->]. apply list_elem_of_here.
  - intros Hl. apply list_elem_of_further; auto.
Qed.

Lemma assoc_NoDup_elem k v l : NoDup l.*1 → (k, v) ∈ l → assoc k l = Some v.
Proof.
  induction l as [|[k' v'] l IH]; simpl.
  - intros _ Hin. by apply elem_of_nil in Hin.
  - rewrite NoDup_cons, elem_of_cons. intros [Hnot Hnd] [[= -> ->]|Hin].
    + destruct (decide (k' = k')); congruence.
    + destruct (decide (k' = k)) as [->|Hne]; [|auto].
      exfalso. apply Hnot. apply list_elem_of_fmap. by exists (k, v).
Qed.

Lemma assoc_app_r k l1 l2 : k ∉ l1.*1 → assoc k (l1 ++ l2) = assoc k l2.
Proof.
  induction l1 as [|[k' v'] l1 IH]; simpl; [done|].
  rewrite not_elem_of_cons. intros [Hne Hnot].
  destruct (decide (k' = k)); [congruence | auto].
Qed.

Lemma assoc_middle k v l1 l2 : k ∉ l1.*1 → assoc k (l1 ++ (k, v) :: l2) = Some v.
Proof.
  intros Hnot. rewrite assoc_app_r by done. simpl.
  destruct (decide (k = k)); congruence.
Qed.

Lemma without_app k l1 l2 : without k (l1 ++ l2) = without k l1 ++ without k l2.
Proof. apply filter_app. Qed.

Lemma without_keys k l : k ∉ (without k l).*1.
Proof.
  unfold without. rewrite list_elem_of_fmap. intros [[k' v'] [-> Hin]].
  apply list_elem_of_filter in Hin as [Hne _]. done.
Qed.

Lemma without_absent k l : k ∉ l.*1 → without k l = l.
Proof.
  induction l as [|[k' v'] l IH]; simpl; [done|].
  rewrite not_elem_of_cons. intros [Hne Hnot]. unfold without in *.
  rewrite filter_cons_True by (simpl; congruence).
  f_equal. auto.
Qed.

Lemma without_subseteq k l : (without k l).*1 ⊆ l.*1.
Proof.
  intros x. rewrite !list_elem_of_fmap. intros [e [-> Hin]].
  apply list_elem_of_filter in Hin as [_ Hin]. eauto.
Qed.

Lemma assoc_assign_eq k v l : assoc k (assign k v l) = Some v.
Proof.
  induction l as [|[k' v'] l IH]; simpl.
  - destruct (decide (k = k)); congruence.
  - destruct (decide (k' = k)) as [->|Hne]; simpl.
    + destruct (decide (k = k)); congruence.
    + destruct (decide (k' = k)); congruence.
Qed.

Lemma assoc_assign_ne k k' v l : k ≠ k' → assoc k' (assign k v l) = assoc k' l.
Proof.
  intros Hne. induction l as [|[k0 v0] l IH]; simpl.
  - destruct (decide (k = k')); congruence.
  - destruct (decide (k0 = k)) as [->|Hne0]; simpl.
    + destruct (decide (k = k')); congruence.
    + destruct (decide (k0 = k')); congruence.
Qed.
End AssocFacts.

(** ** The bounded memoization *)

Section MemoizeFacts.
Context {K C : Type} `{EqDecision K}.
Implicit Types (k : K) (m : Memoized K C) (l : list (K * Obj C)).

Lemma cache_ok_empty limit next : cache_ok limit (lru (@memo_empty K C)) next.
Proof.
  repeat split; simpl; try apply NoDup_nil_2; [lia|].
  intros k v Hin. by apply elem_of_nil in Hin.
Qed.

Lemma cache_ok_mono limit l next next' :
  next ≤ next' → cache_ok limit l next → cache_ok limit l next'.
Proof.
  intros Hle (Hk & Hr & Hlen & Hlt). repeat split; auto.
  intros k v Hin. specialize (Hlt k v Hin). lia.
Qed.

Lemma hit_Permutation k (v : Obj C) l :
  NoDup l.*1 → assoc k l = Some v → without k l ++ [(k, v)] ≡ₚ l.
Proof.
  induction l as [|[k' v'] l IH]; simpl; [done|].
  rewrite NoDup_cons. intros [Hnot Hnd]. unfold without in *.
  destruct (decide (k' = k)) as [->|Hne].
  - intros [= ->]. rewrite filter_cons_False by (simpl; tauto).
    fold (without k l). rewrite without_absent by done.
    symmetry. apply Permutation_cons_append.
  - intros Hl. rewrite filter_cons_True by done. simpl.
    by rewrite IH.
Qed.

Lemma NoDup_tail {A} (xs : list A) : NoDup xs → NoDup (tail xs).
Proof. destruct xs; simpl; [done|]. rewrite NoDup_cons. tauto. Qed.

Lemma tail_fmap {A B} (f : A → B) (xs : list A) : f <$> tail xs = tail (f <$> xs).
Proof. by destruct xs. Qed.

Lemma elem_of_tail {A} (x : A) (xs : list A) : x ∈ tail xs → x ∈ xs.
Proof. destruct xs; simpl; [done|]. apply list_elem_of_further. Qed.

Lemma cache_ok_purge limit l next :
  NoDup l.*1 → NoDup ((λ e, ref e.2) <$> l) →
  (0 < limit → length l ≤ S limit) →
  (∀ k v, (k, v) ∈ l → ref v < next) →
  cache_ok limit (purge limit l) next.
Proof.
  intros Hk Hr Hlen Hlt. unfold purge. case_bool_decide as Hp.
  - repeat split.
    + rewrite tail_fmap. by apply NoDup_tail.
    + rewrite tail_fmap. by apply NoDup_tail.
    + intros Hpos. specialize (Hlen Hpos). destruct l; simpl in *; lia.
    + intros k v Hin. apply (Hlt k v). by apply elem_of_tail.
  - repeat split; auto. intros Hpos. specialize (Hlen Hpos). lia.
Qed.

(** A call leaves a cache in order, and never gives a reference back. *)
Lemma memoize_ok limit k fn m next r m' next' :
  cache_ok limit (lru m) next →
  memoize limit k fn m next = (r, m', next') →
  cache_ok limit (lru m') next' ∧ next ≤ next'.
Proof.
  intros (Hk & Hr & Hlen & Hlt). unfold memoize.
  destruct (assoc k (lru m)) as [v|] eqn:Hl.
  - intros [= <- <- <-]. split; [|lia]. simpl.
    pose proof (hit_Permutation k v (lru m) Hk Hl) as Hp.
    repeat split.
    + by rewrite Hp.
    + by rewrite Hp.
    + intros Hpos. rewrite Hp. auto.
    + intros k' v' Hin. rewrite Hp in Hin. eauto.
  - destruct fn as [e|c].
    + intros [= <- <- <-]. split; [|lia]. repeat split; auto.
    + intros [= <- <- <-]. split; [|lia]. simpl.
      apply cache_ok_purge.
      * rewrite fmap_app. simpl. apply NoDup_app. split; [done|].
        split; [|apply NoDup_singleton].
        intros x Hx Hx'. apply list_elem_of_singleton in Hx' as ->.
        by apply assoc_None in Hl.
      * rewrite fmap_app. simpl. apply NoDup_app. split; [done|].
        split; [|apply NoDup_singleton].
        intros x Hx Hx'. apply list_elem_of_singleton in Hx' as ->.
        apply list_elem_of_fmap in Hx as [[k' v'] [Heq Hin]]. simpl in Heq.
        specialize (Hlt k' v' Hin). lia.
      * intros Hpos. rewrite length_app. simpl. specialize (Hlen Hpos). lia.
      * intros k' v' Hin. apply elem_of_app in Hin as [Hin|Hin].
        -- specialize (Hlt k' v' Hin). lia.
        -- apply list_elem_of_singleton in Hin as [= -> ->]. simpl. lia.
Qed.

Lemma memoize_next limit k fn m next r m' next' :
  memoize limit k fn m next = (r, m', next') → next ≤ next'.
Proof.
  unfold memoize. destruct (assoc k (lru m)); [intros [= <- <- <-]; lia|].
  destruct fn; intros [= <- <- <-]; lia.
Qed.

(** The call that has just been answered is in the cache. *)
Lemma memoize_cached limit k fn m next v m' next' :
  memoize limit k fn m next = (inr v, m', next') →
  assoc k (lru m') = Some v.
Proof.
  unfold memoize. destruct (assoc k (lru m)) as [v0|] eqn:Hl.
  - intros [= <- <- <-]. simpl. apply (assoc_middle k v0 _ []).
    apply without_keys.
  - destruct fn as [e|c]; [done|]. intros [= <- <- <-]. simpl.
    apply assoc_None in Hl. unfold purge. case_bool_decide as Hp.
    + destruct (lru m) as [|[k0 v0] l0]; simpl in *; [lia|].
      apply (assoc_middle k _ l0 []).
      rewrite not_elem_of_cons in Hl. tauto.
    + by apply (assoc_middle k _ (lru m) []).
Qed.

(** A call answered from the cache computes nothing. *)
Lemma memoize_hit limit k fn m next v :
  assoc k (lru m) = Some v →
  ∃ m', memoize limit k fn m next = (inr v, m', next) ∧ wasMemoized m' = true.
Proof. intros Hl. unfold memoize. rewrite Hl. eauto. Qed.

Lemma retains_assoc limit k v bound l next :
  cache_ok limit l next → retains k v bound l → assoc k l = Some v.
Proof.
  intros (Hk & _) (l1 & l2 & -> & _). apply assoc_middle.
  rewrite fmap_app in Hk. apply NoDup_app in Hk as (_ & Hk & _).
  intros Hin. apply (Hk k Hin). simpl. apply list_elem_of_here.
Qed.

Lemma memoize_retains_intro limit k fn m next v m' next' :
  memoize limit k fn m next = (inr v, m', next') → ∀ bound, retains k v bound (lru m').
Proof.
  intros Hm bound. unfold memoize in Hm.
  destruct (assoc k (lru m)) as [v0|] eqn:Hl.
  - injection Hm as <- <- <-. simpl. exists (without k (lru m)), [].
    split; [done|]. simpl. apply list_subseteq_nil.
  - destruct fn as [e|c]; [done|]. injection Hm as <- <- <-. simpl.
    unfold purge. case_bool_decide as Hp.
    + destruct (lru m) as [|e0 l0]; simpl in *; [lia|].
      exists l0, []. split; [done|]. apply list_subseteq_nil.
    + exists (lru m), []. split; [done|]. apply list_subseteq_nil.
Qed.

Lemma NoDup_bound_length (xs ys : list K) :
  NoDup xs → xs ⊆ ys → length xs ≤ length (remove_dups ys).
Proof.
  intros Hnd Hsub. apply submseteq_length, NoDup_submseteq; [done|].
  intros x Hx. apply elem_of_remove_dups. by apply Hsub.
Qed.

(** A result stays in the cache while fewer than [limit] other calls are
    made. *)
Lemma memoize_retains limit k v bound k' fn m next r m' next' :
  cache_ok limit (lru m) next →
  retains k v bound (lru m) →
  k' = k ∨ k' ∈ bound →
  length (remove_dups bound) < limit →
  memoize limit k' fn m next = (r, m', next') →
  retains k v bound (lru m').
Proof.
  intros Hok Hret Hk' Hbound Hm.
  pose proof (retains_assoc _ _ _ _ _ _ Hok Hret) as Hkv.
  destruct (decide (k' = k)) as [->|Hne].
  - unfold memoize in Hm. rewrite Hkv in Hm. injection Hm as <- <- <-.
    exists (without k (lru m)), []. split; [done|]. apply list_subseteq_nil.
  - destruct Hk' as [?|Hin]; [done|].
    destruct Hok as (Hk & _). destruct Hret as (l1 & l2 & Hl & Hsub).
    unfold memoize in Hm. destruct (assoc k' (lru m)) as [v'|] eqn:Hl'.
    + injection Hm as <- <- <-. simpl. rewrite Hl.
      exists (without k' l1), (without k' l2 ++ [(k', v')]). split.
      * rewrite without_app. unfold without at 2.
        rewrite filter_cons_True by (simpl; congruence).
        by rewrite <- app_assoc.
      * rewrite fmap_app. simpl. intros x Hx.
        apply elem_of_app in Hx as [Hx|Hx].
        -- apply Hsub. by apply (without_subseteq k').
        -- by apply list_elem_of_singleton in Hx as ->.
    + destruct fn as [e|c].
      * injection Hm as <- <- <-. by exists l1, l2.
      * injection Hm as <- <- <-. simpl. rewrite Hl.
        assert (Hsub' : (l2 ++ [(k', mkObj next c)]).*1 ⊆ bound).
        { rewrite fmap_app. simpl. intros x Hx.
          apply elem_of_app in Hx as [Hx|Hx]; [by apply Hsub|].
          by apply list_elem_of_singleton in Hx as ->. }
        unfold purge. case_bool_decide as Hp.
        -- destruct l1 as [|e1 l1]; simpl.
           ++ exfalso. simpl in Hp. rewrite length_app in Hp. simpl in Hp.
              apply assoc_None in Hl'. rewrite Hl in Hl', Hk. simpl in *.
              rewrite not_elem_of_cons in Hl'. apply NoDup_cons in Hk as [_ Hk].
              assert (Hnd : NoDup (l2 ++ [(k', mkObj next c)]).*1).
              { rewrite fmap_app. simpl. apply NoDup_app. split; [done|].
                split; [|apply NoDup_singleton].
                intros x Hx Hx'. apply list_elem_of_singleton in Hx' as ->.
                tauto. }
              pose proof (NoDup_bound_length _ _ Hnd Hsub') as Hlen.
              rewrite length_fmap, length_app in Hlen. simpl in Hlen. lia.
           ++ exists l1, (l2 ++ [(k', mkObj next c)]). split; [|done].
              by rewrite <- app_assoc.
        -- exists l1, (l2 ++ [(k', mkObj next c)]). split; [|done].
           by rewrite <- app_assoc.
Qed.

Lemma memoize_owned_intro limit k fn m next v m' next' :
  cache_ok limit (lru m) next →
  memoize limit k fn m next = (inr v, m', next') →
  owned (ref v) k (lru m') ∧ ref v < next'.
Proof.
  intros Hok Hm. pose proof (memoize_ok _ _ _ _ _ _ _ _ Hok Hm) as [Hok' _].
  pose proof (memoize_cached _ _ _ _ _ _ _ _ Hm) as Hl.
  apply assoc_Some_elem in Hl. destruct Hok' as (_ & Hr & _ & Hlt).
  split; [|by apply (Hlt k)].
  intros k' v' Hin Href.
  apply list_elem_of_lookup in Hl as [i Hi], Hin as [j Hj].
  assert (i = j) as ->.
  { apply (NoDup_lookup _ i j (ref v) Hr); rewrite list_lookup_fmap.
    - by rewrite Hi.
    - rewrite Hj. simpl. by rewrite Href. }
  congruence.
Qed.

Lemma memoize_owned limit r k k' fn m next res m' next' :
  cache_ok limit (lru m) next → r < next → owned r k (lru m) →
  memoize limit k' fn m next = (res, m', next') →
  owned r k (lru m') ∧ r < next' ∧ ∀ v', res = inr v' → ref v' = r → k' = k.
Proof.
  intros Hok Hlt Hown Hm.
  pose proof (memoize_ok _ _ _ _ _ _ _ _ Hok Hm) as [_ Hle].
  unfold memoize in Hm. destruct (assoc k' (lru m)) as [v0|] eqn:Hl.
  - injection Hm as <- <- <-. simpl.
    pose proof (assoc_Some_elem _ _ _ Hl) as Hin0.
    split; [|split; [lia|]].
    + intros k2 v2 Hin. apply elem_of_app in Hin as [Hin|Hin].
      * apply Hown. apply list_elem_of_filter in Hin. tauto.
      * apply list_elem_of_singleton in Hin as [= -> ->]. by apply Hown.
    + intros v' [= <-]. by apply Hown.
  - destruct fn as [e|c].
    + injection Hm as <- <- <-. split; [done|]. split; [lia|]. done.
    + injection Hm as <- <- <-. simpl. split; [|split; [lia|]].
      * intros k2 v2 Hin Href. apply Hown with v2; [|done].
        assert (Hin' : (k2, v2) ∈ lru m ++ [(k', mkObj next c)]).
        { unfold purge in Hin. case_bool_decide; [by apply elem_of_tail|done]. }
        apply elem_of_app in Hin' as [?|Hin']; [done|].
        apply list_elem_of_singleton in Hin' as [= -> ->]. simpl in Href. lia.
      * intros v' [= <-]. simpl. lia.
Qed.
Lemma memo_calls_cons limit c calls m next :
  memo_calls limit (c :: calls) (m, next) =
  memo_calls limit calls
    ((memoize limit c.1 c.2 m next).1.2, (memoize limit c.1 c.2 m next).2).
Proof. done. Qed.

Lemma memo_calls_retains limit k v bound calls m next m' next' :
  cache_ok limit (lru m) next →
  retains k v bound (lru m) →
  (∀ k', k' ∈ calls.*1 → k' = k ∨ k' ∈ bound) →
  length (remove_dups bound) < limit →
  memo_calls limit calls (m, next) = (m', next') →
  cache_ok limit (lru m') next' ∧ retains k v bound (lru m').
Proof.
  intros Hok Hret Hin Hlen. revert m next Hok Hret.
  induction calls as [|c calls IH]; intros m next Hok Hret.
  - by intros [= <- <-].
  - rewrite memo_calls_cons.
    destruct (memoize limit c.1 c.2 m next) as [[r m1] n1] eqn:Hm. simpl.
    assert (Hc : c.1 = k ∨ c.1 ∈ bound).
    { apply Hin. simpl. apply list_elem_of_here. }
    pose proof (memoize_retains _ _ _ _ _ _ _ _ _ _ _ Hok Hret Hc Hlen Hm) as Hret1.
    apply memoize_ok in Hm as [Hok1 _]; [|done].
    apply IH; [|done|done].
    intros k' Hk'. apply Hin. simpl. by apply list_elem_of_further.
Qed.

(** The second of two calls with the same key is answered with the object
    of the first, and computes nothing, when fewer than [limit] other keys
    were asked for in between. *)
Lemma memo_retention limit k fn fn' calls m next v m1 n1 m2 n2 :
  cache_ok limit (lru m) next →
  memoize limit k fn m next = (inr v, m1, n1) →
  length (other_keys k calls.*1) < limit →
  memo_calls limit calls (m1, n1) = (m2, n2) →
  ∃ m3, memoize limit k fn' m2 n2 = (inr v, m3, n2) ∧ wasMemoized m3 = true.
Proof.
  intros Hok Hm Hlen Hrun.
  pose proof (memoize_retains_intro _ _ _ _ _ _ _ _ Hm
                (filter (λ k', k' ≠ k) calls.*1)) as Hret.
  apply memoize_ok in Hm as [Hok1 _]; [|done].
  eapply memo_calls_retains in Hrun as [Hok2 Hret2]; [|done|done| |done].
  - apply memoize_hit. by eapply retains_assoc.
  - intros k' Hk'. destruct (decide (k' = k)); [by left|right].
    by apply list_elem_of_filter.
Qed.

Lemma memo_calls_owned limit r k calls m next m' next' :
  cache_ok limit (lru m) next → r < next → owned r k (lru m) →
  memo_calls limit calls (m, next) = (m', next') →
  cache_ok limit (lru m') next' ∧ r < next' ∧ owned r k (lru m').
Proof.
  revert m next. induction calls as [|c calls IH]; intros m next Hok Hlt Hown.
  - by intros [= <- <-].
  - rewrite memo_calls_cons.
    destruct (memoize limit c.1 c.2 m next) as [[res m1] n1] eqn:Hm. simpl.
    pose proof (memoize_owned _ _ _ _ _ _ _ _ _ _ Hok Hlt Hown Hm) as (Hown1 & Hlt1 & _).
    apply memoize_ok in Hm as [Hok1 _]; [|done]. by apply IH.
Qed.

(** Two calls with different keys are answered with different objects. *)
Lemma memo_distinct limit k1 fn1 k2 fn2 calls m next v1 m1 n1 m2 n2 v2 m3 n3 :
  cache_ok limit (lru m) next →
  memoize limit k1 fn1 m next = (inr v1, m1, n1) →
  memo_calls limit calls (m1, n1) = (m2, n2) →
  memoize limit k2 fn2 m2 n2 = (inr v2, m3, n3) →
  k1 ≠ k2 → ref v1 ≠ ref v2.
Proof.
  intros Hok Hm1 Hrun Hm2 Hne Href.
  pose proof (memoize_owned_intro _ _ _ _ _ _ _ _ Hok Hm1) as [Hown Hlt].
  apply memoize_ok in Hm1 as [Hok1 _]; [|done].
  pose proof (memo_calls_owned _ _ _ _ _ _ _ _ Hok1 Hlt Hown Hrun) as (Hok2 & Hlt2 & Hown2).
  pose proof (memoize_owned _ _ _ _ _ _ _ _ _ _ Hok2 Hlt2 Hown2 Hm2) as (_ & _ & Heq).
  apply Hne. symmetry. by apply (Heq v2).
Qed.
End MemoizeFacts.

(** ** What the operations of the store keep *)

Section StoreFacts.
Context `{csf : CsfModule}.
Implicit Types s : StoryStore.

Lemma evolves_refl s : evolves s s.
Proof. unfold evolves. split; [lia|]. intuition auto. Qed.

Lemma evolves_trans s1 s2 s3 : evolves s1 s2 → evolves s2 s3 → evolves s1 s3.
Proof.
  intros (Hn & Hc & Hi & Hw & Hx) (Hn' & Hc' & Hi' & Hw' & Hx').
  unfold evolves. split; [lia|]. split; [auto|]. split; [congruence|].
  split; [congruence|auto].
Qed.

Lemma evolves_intro s s' :
  nextRef s ≤ nextRef s' →
  (cache_ok CSF_CACHE_SIZE (lru (csfCache s)) (nextRef s) →
   cache_ok CSF_CACHE_SIZE (lru (csfCache s')) (nextRef s')) →
  (cache_ok STORY_CACHE_SIZE (lru (storyCache s)) (nextRef s) →
   cache_ok STORY_CACHE_SIZE (lru (storyCache s')) (nextRef s')) →
  initialized s' = initialized s → waiting s' = waiting s →
  (storyIndex s = None → storyIndex s' = None) →
  evolves s s'.
Proof.
  intros Hn Hc Hs Hi Hw Hx. unfold evolves, caches_ok. split; [done|].
  split; [tauto|]. done.
Qed.

(** A change of the other fields. *)
Lemma evolves_frame s s' :
  csfCache s' = csfCache s → storyCache s' = storyCache s →
  nextRef s' = nextRef s → initialized s' = initialized s →
  waiting s' = waiting s → (storyIndex s = None → storyIndex s' = None) →
  evolves s s'.
Proof.
  intros Hc Hs Hn Hi Hw Hx. apply evolves_intro; auto; [lia|..].
  - by rewrite Hc, Hn.
  - by rewrite Hs, Hn.
Qed.

Ltac frame := apply evolves_frame; simpl; auto.

Lemma processCSFFileWithCache_evolves m p t s r s' :
  processCSFFileWithCache m p t s = (r, s') → evolves s s'.
Proof.
  unfold processCSFFileWithCache.
  destruct (memoize _ _ _ _ _) as [[r0 m0] n0] eqn:Hm. intros [= <- <-].
  pose proof (memoize_next _ _ _ _ _ _ _ _ Hm) as Hle.
  apply evolves_intro; simpl; auto.
  - intros H1. by apply (memoize_ok _ _ _ _ _ _ _ _ H1 Hm).
  - by apply cache_ok_mono.
Qed.

Lemma prepareStoryWithCache_evolves file id ann pa s r s' :
  prepareStoryWithCache file id ann pa s = (r, s') → evolves s s'.
Proof.
  unfold prepareStoryWithCache.
  destruct (memoize _ _ _ _ _) as [[r0 m0] n0] eqn:Hm. intros [= <- <-].
  pose proof (memoize_next _ _ _ _ _ _ _ _ Hm) as Hle.
  apply evolves_intro; simpl; auto.
  - by apply cache_ok_mono.
  - intros H2. by apply (memoize_ok _ _ _ _ _ _ _ _ H2 Hm).
Qed.

Lemma setProjectAnnotations_evolves pa s : evolves s (setProjectAnnotations pa s).
Proof.
  apply evolves_intro; simpl; auto; apply cache_ok_mono; lia.
Qed.

Lemma storyFromCSFFile_evolves id file s r s' :
  storyFromCSFFile id file s = (r, s') → evolves s s'.
Proof.
  unfold storyFromCSFFile.
  destruct (projectAnnotations s) as [pa|]; [|intros [= <- <-]; apply evolves_refl].
  destruct file as [file|]; [|intros [= <- <-]; apply evolves_refl].
  destruct (assoc id _) as [ann|]; [|intros [= <- <-]; apply evolves_refl].
  destruct (prepareStoryWithCache _ _ _ _ _) as [[e|story] s1] eqn:Hp;
    intros [= <- <-]; apply prepareStoryWithCache_evolves in Hp; [done|].
  eapply evolves_trans; [exact Hp|]. frame.
Qed.

Lemma loadCSFFileByStoryId_evolves id s job s' :
  loadCSFFileByStoryId id s = inr (job, s') → evolves s s'.
Proof.
  unfold loadCSFFileByStoryId.
  destruct (storyIndex s) as [entries|]; [|done].
  destruct (importFn s) as [f|]; [|done].
  destruct (storyIdToEntry entries id) as [e|entry]; [done|].
  intros [= <- <-]. frame.
Qed.

Lemma settle_evolves job s r s' : settle job s = (r, s') → evolves s s'.
Proof.
  unfold settle. destruct (job_loaded job) as [e|m].
  - intros [= <- <-]. frame.
  - intros Hp. apply processCSFFileWithCache_evolves in Hp.
    eapply evolves_trans; [|exact Hp]. frame.
Qed.

Lemma issue_evolves batch s jobs thrown s' :
  issue batch s = (jobs, thrown, s') → evolves s s'.
Proof.
  revert s jobs thrown s'. induction batch as [|[path id] rest IH]; simpl.
  - intros s jobs thrown s' [= <- <- <-]. apply evolves_refl.
  - intros s jobs thrown s'.
    destruct (loadCSFFileByStoryId id s) as [e|[job s1]] eqn:Hl.
    + intros [= <- <- <-]. apply evolves_refl.
    + destruct (issue rest s1) as [[jobs1 thrown1] s2] eqn:Hi.
      intros [= <- <- <-]. apply loadCSFFileByStoryId_evolves in Hl.
      eapply evolves_trans; [exact Hl|]. eauto.
Qed.

Lemma settle_all_evolves order a s a' s' :
  settle_all order a s = (a', s') → evolves s s'.
Proof.
  revert a s. induction order as [|[idx [path job]] rest IH]; simpl.
  - intros a s [= <- <-]. apply evolves_refl.
  - intros a s. destruct (settle job s) as [[e|file] s1] eqn:Hs;
      intros Hr; apply settle_evolves in Hs;
      (eapply evolves_trans; [exact Hs|]); eauto.
Qed.

Lemma loadInBatches_evolves depth batchSize remaining s r s' :
  loadInBatches depth batchSize remaining s = (r, s') → evolves s s'.
Proof.
  revert remaining s r s'. induction depth as [|depth IH]; intros remaining s r s'.
  - destruct remaining; simpl; intros [= <- <-]; apply evolves_refl.
  - destruct remaining as [|x remaining]; [simpl; intros [= <- <-]; apply evolves_refl|].
    cbn [loadInBatches].
    destruct (issue _ s) as [[jobs thrown] s1] eqn:Hi.
    destruct (settle_all _ _ s1) as [a s2] eqn:Hs.
    apply issue_evolves in Hi. apply settle_all_evolves in Hs.
    assert (H12 : evolves s s2) by (eapply evolves_trans; eauto).
    destruct thrown as [e|]; [by intros [= <- <-]|].
    destruct (all_promise _ a) as [firstResults|e|]; try by intros [= <- <-].
    destruct (loadInBatches depth batchSize _ s2) as [[e|[restResults|e|]] s3] eqn:Hrec;
      intros [= <- <-]; apply IH in Hrec; eapply evolves_trans; eauto.
Qed.

Lemma loadAllCSFFiles_evolves batchSize s r s' :
  loadAllCSFFiles batchSize s = (r, s') → evolves s s'.
Proof.
  unfold loadAllCSFFiles. destruct (storyIndex s) as [entries|];
    [|intros [= <- <-]; apply evolves_refl].
  destruct (loadInBatches _ _ _ s) as [[e|[l|e|]] s1] eqn:Hl;
    intros [= <- <-]; by apply loadInBatches_evolves in Hl.
Qed.

Lemma cacheAllCSFFiles_now_evolves s r s' :
  cacheAllCSFFiles_now s = (r, s') → evolves s s'.
Proof.
  unfold cacheAllCSFFiles_now.
  destruct (loadAllCSFFiles _ s) as [[e|[l|e|]] s1] eqn:Hl;
    intros [= <- <-]; apply loadAllCSFFiles_evolves in Hl; [done| |done|done].
  eapply evolves_trans; [exact Hl|]. frame.
Qed.

Lemma onStoriesChanged_now_evolves f entries s r s' :
  onStoriesChanged_now f entries s = (r, s') → evolves s s'.
Proof.
  unfold onStoriesChanged_now.
  set (s1 := match f with Some g => set_importFn (Some g) s | None => s end).
  assert (H1 : evolves s s1) by (subst s1; destruct f; [frame | apply evolves_refl]).
  destruct entries as [entries|].
  - destruct (storyIndex s1) as [old|] eqn:Hx; [|by intros [= <- <-]].
    assert (H2 : evolves s1 (set_storyIndex (Some entries) s1)).
    { frame. congruence. }
    destruct (cachedCSFFiles _).
    + intros Hc. apply cacheAllCSFFiles_now_evolves in Hc.
      eapply evolves_trans; [exact H1|]. eapply evolves_trans; eauto.
    + intros [= <- <-]. eapply evolves_trans; eauto.
  - destruct (cachedCSFFiles s1).
    + intros Hc. apply cacheAllCSFFiles_now_evolves in Hc.
      eapply evolves_trans; eauto.
    + by intros [= <- <-].
Qed.

Lemma storyIdToEntry_now_evolves id s r s' :
  storyIdToEntry_now id s = (r, s') → evolves s s'.
Proof.
  unfold storyIdToEntry_now. destruct (storyIndex s) as [entries|].
  - destruct (storyIdToEntry entries id); intros [= <- <-]; apply evolves_refl.
  - intros [= <- <-]; apply evolves_refl.
Qed.

Lemma loadStory_now_evolves id s r s' :
  loadStory_now id s = (r, s') → evolves s s'.
Proof.
  unfold loadStory_now.
  destruct (loadCSFFileByStoryId id s) as [e|[job s1]] eqn:Hl;
    [intros [= <- <-]; apply evolves_refl|].
  apply loadCSFFileByStoryId_evolves in Hl.
  destruct (settle job s1) as [[e|file] s2] eqn:Hs; apply settle_evolves in Hs.
  - intros [= <- <-]. eapply evolves_trans; eauto.
  - destruct (storyFromCSFFile id (Some file) s2) as [[e|story] s3] eqn:Hf;
      intros [= <- <-]; apply storyFromCSFFile_evolves in Hf;
      (eapply evolves_trans; [exact Hl|]); eapply evolves_trans; eauto.
Qed.

Lemma resume_evolves op s r s' : resume op s = (r, s') → evolves s s'.
Proof.
  destruct op; simpl.
  - apply onStoriesChanged_now_evolves.
  - apply storyIdToEntry_now_evolves.
  - apply loadStory_now_evolves.
  - apply cacheAllCSFFiles_now_evolves.
Qed.

Lemma run_all_resume_evolves ops s rs s' :
  run_all resume ops s = (rs, s') → evolves s s'.
Proof.
  revert s rs s'. induction ops as [|op ops IH]; simpl; intros s rs s'.
  - intros [= <- <-]. apply evolves_refl.
  - destruct (resume op s) as [p s1] eqn:Hr.
    destruct (run_all resume ops s1) as [ps s2] eqn:Hrun.
    intros [= <- <-]. apply resume_evolves in Hr. apply IH in Hrun.
    eapply evolves_trans; eauto.
Qed.

Lemma extract_entries_evolves docs cached entries acc s r s' :
  extract_entries docs cached entries acc s = (r, s') → evolves s s'.
Proof.
  revert acc s. induction entries as [|[id entry] rest IH]; simpl; intros acc s.
  - intros [= <- <-]. apply evolves_refl.
  - destruct (entryType entry); [|by apply IH].
    destruct (storyFromCSFFile id _ s) as [[e|story] s1] eqn:Hf;
      apply storyFromCSFFile_evolves in Hf; [by intros [= <- <-]|].
    destruct (_ && _); intros Hr; apply IH in Hr; eapply evolves_trans; eauto.
Qed.

Lemma extract_evolves docs s r s' : extract docs s = (r, s') → evolves s s'.
Proof.
  unfold extract. destruct (storyIndex s); [|intros [= <- <-]; apply evolves_refl].
  destruct (cachedCSFFiles s); [|intros [= <- <-]; apply evolves_refl].
  apply extract_entries_evolves.
Qed.

Lemma fromId_evolves id s r s' : fromId id s = (r, s') → evolves s s'.
Proof.
  unfold fromId. destruct (storyIndex s) as [entries|];
    [|intros [= <- <-]; apply evolves_refl].
  destruct (cachedCSFFiles s); [|intros [= <- <-]; apply evolves_refl].
  destruct (storyIdToEntry entries id); [intros [= <- <-]; apply evolves_refl|].
  destruct (storyFromCSFFile id _ s) as [[e|story] s1] eqn:Hf;
    intros [= <- <-]; by apply storyFromCSFFile_evolves in Hf.
Qed.

(** *** What the loop keeps *)

Section LoopInvariant.
(** A property of the store that the steps of the operations keep *)
Variable Q : StoryStore → Prop.
Hypothesis Q_settle : ∀ job s, Q s → Q (settle job s).2.
Hypothesis Q_issue : ∀ batch s, Q s → Q (issue batch s).2.
Hypothesis Q_load : ∀ id s job s1,
  loadCSFFileByStoryId id s = inr (job, s1) → Q s → Q s1.
Hypothesis Q_story : ∀ id file s, Q s → Q (storyFromCSFFile id file s).2.
Hypothesis Q_cached : ∀ v s, Q s → Q (set_cachedCSFFiles v s).
Hypothesis Q_importFn : ∀ v s, Q s → Q (set_importFn v s).
Hypothesis Q_index : ∀ v s,
  is_Some (storyIndex s) → Q s → Q (set_storyIndex (Some v) s).

(** is kept by the loop. *)
Lemma next_batch_kept tid remaining results l :
  Q (loop_store l) → Q (loop_store (next_batch tid remaining results l)).
Proof.
  intros Hq. unfold next_batch. destruct remaining as [|x remaining].
  - simpl. by apply Q_cached.
  - pose proof (Q_issue (take EXTRACT_BATCH_SIZE (x :: remaining)) _ Hq) as H1.
    by destruct (issue _ _) as [[jobs thrown] s1].
Qed.

Lemma start_cacheAllCSFFiles_kept tid l :
  Q (loop_store l) → Q (loop_store (start_cacheAllCSFFiles tid l)).
Proof.
  intros Hq. unfold start_cacheAllCSFFiles.
  destruct (storyIndex (loop_store l)); [|done]. by apply next_batch_kept.
Qed.

Lemma go_on_kept tid op l :
  Q (loop_store l) → Q (loop_store (go_on tid op l)).
Proof.
  intros Hq. destruct op as [f entries|id|id|]; cbn [go_on].
  - set (s1 := match f with
               | Some f0 => set_importFn (Some f0) (loop_store l)
               | None => loop_store l
               end).
    assert (H1 : Q s1) by (subst s1; destruct f; auto).
    clearbody s1. destruct entries as [entries|].
    + destruct (storyIndex s1) eqn:Hx; [|done].
      assert (H2 : Q (set_storyIndex (Some entries) s1)).
      { apply Q_index; [by rewrite Hx|done]. }
      destruct (cachedCSFFiles _); [|done].
      by apply start_cacheAllCSFFiles_kept.
    + destruct (cachedCSFFiles s1); [|done].
      by apply start_cacheAllCSFFiles_kept.
  - unfold storyIdToEntry_now. destruct (storyIndex (loop_store l)) as [entries|];
      [|done].
    by destruct (storyIdToEntry entries id).
  - destruct (loadCSFFileByStoryId id (loop_store l)) as [e|[job s1]] eqn:Hl;
      [done|].
    simpl. by eapply Q_load.
  - by apply start_cacheAllCSFFiles_kept.
Qed.

Lemma deliver_kept x l : Q (loop_store l) → Q (loop_store (deliver x l)).
Proof.
  intros Hq. destruct x as [tid [idx [path job]]]. unfold deliver.
  pose proof (Q_settle job _ Hq) as H1.
  destruct (settle job (loop_store l)) as [r s1]. simpl in H1.
  destruct (loop_activities l !! tid) as [[op|id|a n remaining results|p]|];
    try done.
  - destruct r as [e|file]; [done|].
    pose proof (Q_story id (Some file) s1 H1) as H2.
    by destruct (storyFromCSFFile id (Some file) s1) as [[e|story] s2].
  - destruct (all_promise n _) as [first|e|]; try done.
    by apply next_batch_kept.
Qed.

Lemma run_jobs_kept l : Q (loop_store l) → Q (loop_store (run_jobs l)).
Proof.
  unfold run_jobs. generalize (seq 0 (length (loop_activities l))).
  intros tids. revert l. induction tids as [|tid tids IH]; intros l Hq; [done|].
  simpl. apply IH.
  destruct (loop_activities l !! tid) as [[op|id|a n remaining results|p]|];
    try done.
  by apply go_on_kept.
Qed.

Lemma run_imports_kept fuel l :
  Q (loop_store l) → Q (loop_store (run_imports fuel l)).
Proof.
  revert l. induction fuel as [|fuel IH]; intros l Hq; [done|].
  simpl. destruct (loop_flights l) as [|x rest]; [done|].
  apply IH. by apply deliver_kept.
Qed.

Lemma run_loop_kept l : Q (loop_store l) → Q (loop_store (run_loop l)).
Proof. intros Hq. by apply run_imports_kept, run_jobs_kept. Qed.

Lemma issue_gated_kept op l :
  Q (loop_store l) → Q (loop_store (issue_gated op l)).
Proof.
  intros Hq. unfold issue_gated. destruct op; try done.
  by apply start_cacheAllCSFFiles_kept.
Qed.

Lemma issue_gated_all_kept ops l :
  Q (loop_store l) → Q (loop_store (fold_left (λ l op, issue_gated op l) ops l)).
Proof.
  revert l. induction ops as [|op ops IH]; intros l Hq; [done|].
  simpl. by apply IH, issue_gated_kept.
Qed.

(** [initialize], after it has set the index and the loader and resolved
    the promise. *)
Lemma initialize_kept entries f cache s :
  Q (set_waiting (if initialized s then waiting s else [])
       (set_initialized true
          (set_importFn (Some f)
             (set_storyIndex (Some (default [] entries)) s)))) →
  Q (initialize entries f cache s).2.
Proof.
  intros Hq. unfold initialize, outcome. cbn [snd]. apply run_loop_kept.
  unfold initialize_sync.
  match goal with
  | |- Q (loop_store (if cache then start_cacheAllCSFFiles 0 ?l else ?l)) =>
      assert (H1 : Q (loop_store l))
  end.
  { unfold resolveInitializationPromise. cbn [loop_store initialized set_importFn
      set_storyIndex].
    destruct (initialized s) eqn:Hi.
    - cbn [loop_store]. revert Hq. by destruct s; simpl in *; subst.
    - by apply issue_gated_all_kept. }
  destruct cache; [by apply start_cacheAllCSFFiles_kept|done].
Qed.
End LoopInvariant.

(** [initialize] resolves the promise and keeps the caches in order. *)
Lemma initialize_spec entries f cache s p rs s' :
  initialize entries f cache s = (p, rs, s') →
  initialized s' = true ∧ nextRef s ≤ nextRef s' ∧ (caches_ok s → caches_ok s') ∧
  waiting s' = (if initialized s then waiting s else []).
Proof.
  intros Hinit.
  set (Q := λ x : StoryStore,
         initialized x = true ∧ nextRef s ≤ nextRef x ∧
         (caches_ok s → caches_ok x) ∧
         waiting x = (if initialized s then waiting s else [])).
  assert (Hev : ∀ x y, evolves x y → Q x → Q y).
  { intros x y (Hn & Hc & Hi & Hw & _) (Qi & Qn & Qc & Qw). unfold Q.
    split_and!; [congruence | lia | auto | congruence]. }
  assert (HQ : Q (initialize entries f cache s).2).
  { apply initialize_kept.
    - intros job x. apply Hev. destruct (settle job x) eqn:H.
      by apply settle_evolves in H.
    - intros batch x. apply Hev. destruct (issue batch x) as [[jobs thrown] x1] eqn:H.
      by apply issue_evolves in H.
    - intros id x job x1 Hl. apply Hev. by apply loadCSFFileByStoryId_evolves in Hl.
    - intros id file x. apply Hev. destruct (storyFromCSFFile id file x) eqn:H.
      by apply storyFromCSFFile_evolves in H.
    - intros v x. apply Hev. by frame.
    - intros v x. apply Hev. by frame.
    - intros v x [old Hx]. apply Hev. frame. by rewrite Hx.
    - unfold Q. simpl. split_and!; [done|lia| |done].
      unfold caches_ok. simpl. done. }
  rewrite Hinit in HQ. exact HQ.
Qed.

Lemma gated_initialized op s : initialized s = true → gated op s = resume op s.
Proof. unfold gated. by intros ->. Qed.

Lemma gated_pending op s :
  initialized s = false →
  gated op s = (Pending, set_waiting (waiting s ++ [op]) s).
Proof. unfold gated. by intros ->. Qed.

(** Every call but [initialize], and but a call that has to wait, lets the
    store evolve. *)
Lemma step_evolves c s :
  (∀ entries f cache, c ≠ CallInitialize entries f cache) →
  (initialized s = true ∨ ∀ op, c ≠ CallGated op) →
  evolves s (step c s).
Proof.
  intros Hni Hg. destruct c; simpl.
  - apply setProjectAnnotations_evolves.
  - by destruct (Hni newStoryIndex newImportFn cache).
  - destruct Hg as [Hi|Hg]; [|by destruct (Hg op)].
    rewrite gated_initialized by done.
    destruct (resume op s) eqn:Hr. by apply resume_evolves in Hr.
  - destruct (loadCSFFileByStoryId storyId s) as [e|[job s1]] eqn:Hl;
      [apply evolves_refl|].
    apply loadCSFFileByStoryId_evolves in Hl.
    destruct (settle job s1) eqn:Hs. apply settle_evolves in Hs.
    eapply evolves_trans; eauto.
  - destruct (loadAllCSFFiles batchSize s) eqn:Hl.
    by apply loadAllCSFFiles_evolves in Hl.
  - destruct (storyFromCSFFile storyId csfFile s) eqn:Hf.
    by apply storyFromCSFFile_evolves in Hf.
  - destruct (extract includeDocsOnly s) eqn:He. by apply extract_evolves in He.
  - destruct (fromId storyId s) eqn:Hf. by apply fromId_evolves in Hf.
  - apply evolves_frame; simpl; auto.
Qed.

Lemma step_cases c s :
  evolves s (step c s) ∨
  (∃ op, c = CallGated op ∧ initialized s = false ∧
         step c s = set_waiting (waiting s ++ [op]) s) ∨
  (∃ entries f cache, c = CallInitialize entries f cache).
Proof.
  destruct c; try (left; apply step_evolves; [done | right; done]).
  - right. right. eauto.
  - destruct (initialized s) eqn:Hi.
    + left. apply step_evolves; [done | by left].
    + right. left. exists op. split_and!; auto. simpl.
      by rewrite gated_pending.
Qed.

Lemma step_inv c s : store_inv s → store_inv (step c s).
Proof.
  intros [Hc Hx]. destruct (step_cases c s) as [He|[(op & -> & Hi & ->)|(e & f & b & ->)]].
  - destruct He as (_ & Hc' & Hi & _ & Hx'). split; [auto|].
    rewrite Hi. auto.
  - split; [done|]. simpl. auto.
  - cbn [step]. destruct (initialize e f b s) as [[p rs] s'] eqn:Hinit. cbn [snd].
    apply initialize_spec in Hinit as (Hi & _ & Hc' & _). split; [auto|].
    congruence.
Qed.

Lemma new_StoryStore_inv : store_inv new_StoryStore.
Proof.
  split; [|done]. split; apply cache_ok_empty.
Qed.

Lemma run_inv calls s : store_inv s → store_inv (run calls s).
Proof.
  revert s. induction calls as [|c calls IH]; simpl; [done|].
  intros s Hs. apply IH. by apply step_inv.
Qed.

Lemma reachable_inv s : reachable s → store_inv s.
Proof. intros [calls ->]. apply run_inv, new_StoryStore_inv. Qed.
End StoreFacts.

(** ** C1: the two caches *)

Section CacheIdentity.
Context `{csf : CsfModule}.
Implicit Types s : StoryStore.

Lemma csf_call_memoize c s :
  csf_call c s =
  let r := memoize CSF_CACHE_SIZE (csf_key c)
             (processCSFFile (content c.1.1) c.1.2 c.2) (csfCache s) (nextRef s) in
  (r.1.1, set_nextRef r.2 (set_csfCache r.1.2 s)).
Proof.
  unfold csf_call, processCSFFileWithCache, csf_key.
  by destruct (memoize _ _ _ _ _) as [[r m] n].
Qed.

Lemma story_call_memoize c s :
  story_call c s =
  let r := memoize STORY_CACHE_SIZE (story_key c)
             (prepareStory (call_annotations c) (meta (content (call_file c)))
                (content (call_project c)))
             (storyCache s) (nextRef s) in
  (r.1.1, set_nextRef r.2 (set_storyCache r.1.2 s)).
Proof.
  unfold story_call, prepareStoryWithCache, story_key.
  by destruct (memoize _ _ _ _ _) as [[r m] n].
Qed.

Lemma csf_calls_memo mid s :
  (csfCache (csf_calls mid s), nextRef (csf_calls mid s)) =
  memo_calls CSF_CACHE_SIZE
    ((λ c, (csf_key c, processCSFFile (content c.1.1) c.1.2 c.2)) <$> mid)
    (csfCache s, nextRef s).
Proof.
  revert s. induction mid as [|c mid IH]; intros s; [done|].
  rewrite fmap_cons, memo_calls_cons. simpl.
  change (csf_calls (c :: mid) s) with (csf_calls mid (csf_call c s).2).
  rewrite IH, csf_call_memoize. done.
Qed.

Lemma story_calls_memo mid s :
  (storyCache (story_calls mid s), nextRef (story_calls mid s)) =
  memo_calls STORY_CACHE_SIZE
    ((λ c, (story_key c,
            prepareStory (call_annotations c) (meta (content (call_file c)))
              (content (call_project c)))) <$> mid)
    (storyCache s, nextRef s).
Proof.
  revert s. induction mid as [|c mid IH]; intros s; [done|].
  rewrite fmap_cons, memo_calls_cons. simpl.
  change (story_calls (c :: mid) s) with (story_calls mid (story_call c s).2).
  rewrite IH, story_call_memoize. done.
Qed.

Lemma csf_retention s c mid v s1 :
  caches_ok s →
  csf_call c s = (inr v, s1) →
  length (other_keys (csf_key c) (csf_key <$> mid)) < CSF_CACHE_SIZE →
  ∃ s3, csf_call c (csf_calls mid s1) = (inr v, s3) ∧
        wasMemoized (csfCache s3) = true ∧
        nextRef s3 = nextRef (csf_calls mid s1).
Proof.
  intros [Hok _] Hcall Hlen. rewrite csf_call_memoize in Hcall.
  destruct (memoize _ _ _ (csfCache s) _) as [[r m1] n1] eqn:Hm.
  simpl in Hcall. injection Hcall as -> <-.
  pose proof (csf_calls_memo mid (set_nextRef n1 (set_csfCache m1 s))) as Hrun.
  simpl in Hrun. symmetry in Hrun.
  pose proof (λ Hl, memo_retention _ _ _
                (processCSFFile (content c.1.1) c.1.2 c.2) _ _ _ _ _ _ _ _
                Hok Hm Hl Hrun) as Hret.
  destruct Hret as (m3 & Hm3 & Hwas); [by rewrite <- list_fmap_compose|].
  eexists. rewrite csf_call_memoize, Hm3. simpl. by split_and!.
Qed.

Lemma story_retention s c mid v s1 :
  caches_ok s →
  story_call c s = (inr v, s1) →
  length (other_keys (story_key c) (story_key <$> mid)) < STORY_CACHE_SIZE →
  ∃ s3, story_call c (story_calls mid s1) = (inr v, s3) ∧
        wasMemoized (storyCache s3) = true ∧
        nextRef s3 = nextRef (story_calls mid s1).
Proof.
  intros [_ Hok] Hcall Hlen. rewrite story_call_memoize in Hcall.
  destruct (memoize _ _ _ (storyCache s) _) as [[r m1] n1] eqn:Hm.
  simpl in Hcall. injection Hcall as -> <-.
  pose proof (story_calls_memo mid (set_nextRef n1 (set_storyCache m1 s))) as Hrun.
  simpl in Hrun. symmetry in Hrun.
  pose proof (λ Hl, memo_retention _ _ _
                (prepareStory (call_annotations c) (meta (content (call_file c)))
                   (content (call_project c))) _ _ _ _ _ _ _ _
                Hok Hm Hl Hrun) as Hret.
  destruct Hret as (m3 & Hm3 & Hwas); [by rewrite <- list_fmap_compose|].
  eexists. rewrite story_call_memoize, Hm3. simpl. by split_and!.
Qed.

Lemma csf_distinct s c1 c2 mid v1 s1 v2 s3 :
  caches_ok s →
  csf_key c1 ≠ csf_key c2 →
  csf_call c1 s = (inr v1, s1) →
  csf_call c2 (csf_calls mid s1) = (inr v2, s3) →
  ref v1 ≠ ref v2.
Proof.
  intros [Hok _] Hne Hcall1 Hcall2. rewrite csf_call_memoize in Hcall1, Hcall2.
  destruct (memoize _ _ _ (csfCache s) _) as [[r1 m1] n1] eqn:Hm1.
  simpl in Hcall1. injection Hcall1 as -> <-.
  pose proof (csf_calls_memo mid (set_nextRef n1 (set_csfCache m1 s))) as Hrun.
  simpl in Hrun. symmetry in Hrun.
  destruct (memoize _ _ _ (csfCache (csf_calls _ _)) _) as [[r2 m3] n3] eqn:Hm2.
  simpl in Hcall2. injection Hcall2 as -> <-.
  destruct (memo_calls _ _ _) as [m2 n2] eqn:Hmemo.
  injection Hrun as -> ->.
  by eapply (memo_distinct _ _ _ _ _ _ _ _ _ _ _ _ _ _ _ _ Hok Hm1 Hmemo Hm2).
Qed.

(** C1.  In every store that a client can reach: a call of
    [processCSFFileWithCache] that is repeated with the same module exports,
    import path and title is answered with the very object of the first
    call, from the cache and without a new computation, when fewer than
    1000 other triples were asked for in between; the same holds of
    [prepareStoryWithCache] with its bound of 10000; and two calls that
    differ in the title only are answered with different objects. *)
Theorem cache_identity (calls : list Call) :
  let s := run calls new_StoryStore in
  (∀ c mid v s1,
     csf_call c s = (inr v, s1) →
     length (other_keys (csf_key c) (csf_key <$> mid)) < 1000 →
     ∃ s3, csf_call c (csf_calls mid s1) = (inr v, s3) ∧
           wasMemoized (csfCache s3) = true ∧
           nextRef s3 = nextRef (csf_calls mid s1)) ∧
  (∀ c mid v s1,
     story_call c s = (inr v, s1) →
     length (other_keys (story_key c) (story_key <$> mid)) < 10000 →
     ∃ s3, story_call c (story_calls mid s1) = (inr v, s3) ∧
           wasMemoized (storyCache s3) = true ∧
           nextRef s3 = nextRef (story_calls mid s1)) ∧
  (∀ moduleExports path title1 title2 mid v1 s1 v2 s3,
     title1 ≠ title2 →
     csf_call (moduleExports, path, title1) s = (inr v1, s1) →
     csf_call (moduleExports, path, title2) (csf_calls mid s1) = (inr v2, s3) →
     ref v1 ≠ ref v2 ∧ v1 ≠ v2).
Proof.
  intros s. assert (Hok : caches_ok s) by apply run_inv, new_StoryStore_inv.
  split_and!.
  - intros c mid v s1. by apply csf_retention.
  - intros c mid v s1. by apply story_retention.
  - intros m path t1 t2 mid v1 s1 v2 s3 Hne H1 H2.
    assert (Href : ref v1 ≠ ref v2).
    { eapply (csf_distinct s (m, path, t1) (m, path, t2)); eauto.
      unfold csf_key. simpl. congruence. }
    split; [done|]. congruence.
Qed.
End CacheIdentity.

(** ** Loading in batches *)

Section Loading.
Context `{csf : CsfModule}.
Implicit Types s : StoryStore.

Lemma set_imports_id s : set_imports (imports s) s = s.
Proof. by destruct s. Qed.

(** Issuing loads only adds to the log of the loader. *)
Lemma loadCSFFileByStoryId_spec id s job s' :
  loadCSFFileByStoryId id s = inr (job, s') →
  ∃ entries f entry,
    storyIndex s = Some entries ∧ importFn s = Some f ∧
    storyIdToEntry entries id = inr entry ∧
    job = mkJob (importPath entry) (entryTitle entry)
            (clock s + latency (f (imports s) (importPath entry)))
            (loaded (f (imports s) (importPath entry))) ∧
    s' = set_imports (imports s ++ [import_of (clock s) (importPath entry, job)]) s.
Proof.
  unfold loadCSFFileByStoryId.
  destruct (storyIndex s) as [entries|]; [|done].
  destruct (importFn s) as [f|]; [|done].
  destruct (storyIdToEntry entries id) as [e|entry] eqn:He; [done|].
  intros [= <- <-]. exists entries, f, entry. by split_and!.
Qed.

Lemma issue_spec batch s jobs thrown s' :
  issue batch s = (jobs, thrown, s') →
  s' = set_imports (imports s ++ (import_of (clock s) <$> jobs)) s ∧
  Forall (λ pj, clock s ≤ job_settles pj.2) jobs ∧
  (thrown = None → jobs.*1 = batch.*1).
Proof.
  revert s jobs thrown s'. induction batch as [|[path id] rest IH]; simpl;
    intros s jobs thrown s'.
  - intros [= <- <- <-]. simpl. rewrite app_nil_r, set_imports_id. by split_and!.
  - destruct (loadCSFFileByStoryId id s) as [e|[job s1]] eqn:Hl.
    + intros [= <- <- <-]. simpl. rewrite app_nil_r, set_imports_id. by split_and!.
    + destruct (issue rest s1) as [[jobs1 thrown1] s2] eqn:Hi.
      intros [= <- <- <-].
      apply loadCSFFileByStoryId_spec in Hl
        as (entries & f & entry & Hx & Hf & He & Hjob & ->).
      apply IH in Hi as (-> & Hall & Hkeys). simpl in *. split_and!.
      * rewrite <- app_assoc. simpl. subst job. done.
      * constructor; [subst job; simpl; lia | done].
      * intros Hnone. f_equal. by apply Hkeys.
Qed.

Lemma settle_spec job s r s' :
  settle job s = (r, s') →
  imports s' = imports s ∧ clock s' = clock s `max` job_settles job ∧
  storyIndex s' = storyIndex s ∧ importFn s' = importFn s ∧
  cachedCSFFiles s' = cachedCSFFiles s ∧ storyCache s' = storyCache s ∧
  args s' = args s ∧ projectAnnotations s' = projectAnnotations s.
Proof.
  unfold settle. destruct (job_loaded job) as [e|m].
  - intros [= <- <-]. by split_and!.
  - unfold processCSFFileWithCache.
    destruct (memoize _ _ _ _ _) as [[r0 m0] n0]. intros [= <- <-]. by split_and!.
Qed.

(** A load that fails is not cached. *)
Lemma settle_failed job s e :
  job_loaded job = inl e →
  settle job s = (inl e, set_clock (clock s `max` job_settles job) s).
Proof. unfold settle. by intros ->. Qed.

Lemma settle_all_spec order a s a' s' :
  settle_all order a s = (a', s') →
  imports s' = imports s ∧ clock s ≤ clock s' ∧
  Forall (λ x, job_settles x.2.2 ≤ clock s') order ∧
  storyIndex s' = storyIndex s ∧ importFn s' = importFn s ∧
  cachedCSFFiles s' = cachedCSFFiles s ∧ storyCache s' = storyCache s ∧
  args s' = args s ∧ projectAnnotations s' = projectAnnotations s.
Proof.
  revert a s. induction order as [|[idx [path job]] rest IH]; simpl; intros a s.
  - intros [= <- <-]. by split_and!.
  - destruct (settle job s) as [r s1] eqn:Hs.
    apply settle_spec in Hs as (Hi & Hc & Hx & Hf & Hcc & Hsc & Ha & Hp).
    assert (Hrest : ∀ a1, settle_all rest a1 s1 = (a', s') →
      imports s' = imports s ∧ clock s ≤ clock s' ∧
      Forall (λ x, job_settles x.2.2 ≤ clock s') ((idx, (path, job)) :: rest) ∧
      storyIndex s' = storyIndex s ∧ importFn s' = importFn s ∧
      cachedCSFFiles s' = cachedCSFFiles s ∧ storyCache s' = storyCache s ∧
      args s' = args s ∧ projectAnnotations s' = projectAnnotations s).
    { intros a1 Hr. apply IH in Hr
        as (Hi' & Hc' & Hall & Hx' & Hf' & Hcc' & Hsc' & Ha' & Hp').
      split_and!; try congruence; [lia|].
      constructor; [simpl; lia | done]. }
    destruct r; apply Hrest.
Qed.

(** The promises of a batch settle once each. *)
Lemma insert_by_time_Permutation x l : insert_by_time x l ≡ₚ x :: l.
Proof.
  induction l as [|y l IH]; simpl; [done|].
  destruct (decide _); [|done]. rewrite IH. apply Permutation_swap.
Qed.

Lemma completion_order_Permutation jobs :
  completion_order jobs ≡ₚ imap (λ i j, (i, j)) jobs.
Proof.
  unfold completion_order. induction (imap _ jobs) as [|x l IH]; simpl; [done|].
  by rewrite insert_by_time_Permutation, IH.
Qed.

Lemma completion_order_indices jobs :
  (completion_order jobs).*1 ≡ₚ seq 0 (length jobs).
Proof.
  rewrite completion_order_Permutation, fmap_imap.
  rewrite (imap_ext _ (λ i _, i)) by done.
  by rewrite (imap_seq_0 jobs (λ i, i)), list_fmap_id.
Qed.

Lemma completion_order_elem jobs i pj :
  (i, pj) ∈ completion_order jobs → jobs !! i = Some pj.
Proof.
  rewrite completion_order_Permutation. intros Hin.
  apply elem_of_lookup_imap_1 in Hin as (i' & pj' & [= -> ->] & Hl). done.
Qed.

Lemma length_omap_le {A} (l : list (option A)) :
  length (omap (λ y, y) l) ≤ length l.
Proof. induction l as [|[y|] l IH]; csimpl; lia. Qed.

Lemma length_omap_insert {A} (l : list (option A)) i x :
  l !! i = Some None →
  length (omap (λ y, y) (<[i := Some x]> l)) = S (length (omap (λ y, y) l)).
Proof.
  revert i. induction l as [|[y|] l IH]; intros [|i]; csimpl; try done.
  - intros Hl. by rewrite IH.
  - intros Hl. by rewrite IH.
Qed.

Lemma omap_full {A} (l : list (option A)) :
  length (omap (λ y, y) l) = length l → l = Some <$> omap (λ y, y) l.
Proof.
  induction l as [|[y|] l IH]; csimpl; [done| |].
  - intros [= Hl]. by rewrite <- IH.
  - intros Hl. pose proof (length_omap_le l). lia.
Qed.

Lemma omap_replicate_None {A} n :
  omap (λ y : option A, y) (replicate n None) = [].
Proof. induction n; csimpl; auto. Qed.

Lemma settle_all_data jobs order a s a' s' :
  NoDup order.*1 →
  (∀ i pj, (i, pj) ∈ order → jobs !! i = Some pj) →
  length (allData a) = length jobs →
  (∀ i, i ∈ order.*1 → allData a !! i = Some None) →
  (∀ i x, allData a !! i = Some (Some x) → ∃ job, jobs !! i = Some (x.1, job)) →
  numResolved a = length (omap (λ y, y) (allData a)) →
  settle_all order a s = (a', s') →
  length (allData a') = length jobs ∧
  (∀ i x, allData a' !! i = Some (Some x) → ∃ job, jobs !! i = Some (x.1, job)) ∧
  numResolved a' = length (omap (λ y, y) (allData a')).
Proof.
  revert a s. induction order as [|[idx [path job]] rest IH]; simpl;
    intros a s Hnd Hjobs Hlen Hpend Hsome Hnum.
  - by intros [= <- <-].
  - apply NoDup_cons in Hnd as [Hnot Hnd].
    assert (Hjobs' : ∀ i pj, (i, pj) ∈ rest → jobs !! i = Some pj).
    { intros i pj Hin. apply Hjobs. by apply list_elem_of_further. }
    destruct (settle job s) as [[e|file] s1].
    + apply IH; auto.
      intros i Hi. apply Hpend. by apply list_elem_of_further.
    + apply IH; simpl; auto.
      * by rewrite length_insert.
      * intros i Hi. rewrite list_lookup_insert_ne.
        -- apply Hpend. by apply list_elem_of_further.
        -- intros ->. done.
      * intros i x. destruct (decide (idx = i)) as [->|Hne].
        -- rewrite list_lookup_insert_eq.
           ++ intros [= <-]. exists job. apply Hjobs. apply list_elem_of_here.
           ++ rewrite Hlen. apply lookup_lt_is_Some. rewrite (Hjobs i (path, job)); [eauto|].
              apply list_elem_of_here.
        -- rewrite list_lookup_insert_ne by done. apply Hsome.
      * rewrite length_omap_insert; [by rewrite Hnum|].
        apply Hpend. apply list_elem_of_here.
Qed.

(** When the promise of a batch is fulfilled, its results are those of the
    loads of the batch, in the order in which the loads were issued. *)
Lemma batch_fulfilled_keys jobs s a' s' results :
  settle_all (completion_order jobs) (all_init (length jobs)) s = (a', s') →
  all_promise (length jobs) a' = Fulfilled results →
  results.*1 = jobs.*1.
Proof.
  intros Hs Hp.
  assert (H1 : NoDup (completion_order jobs).*1).
  { rewrite completion_order_indices. apply NoDup_seq. }
  assert (H2 : ∀ i, i ∈ (completion_order jobs).*1 →
               allData (@all_init (Path * CSFFile) (length jobs)) !! i = Some None).
  { intros i Hi. rewrite completion_order_indices in Hi.
    apply elem_of_seq in Hi. apply lookup_replicate_2. lia. }
  assert (H3 : ∀ i x, allData (@all_init (Path * CSFFile) (length jobs)) !! i
                      = Some (Some x) → ∃ job, jobs !! i = Some (x.1, job)).
  { intros i x Hl. apply lookup_replicate_1 in Hl as [? _]. done. }
  assert (H4 : numResolved (@all_init (Path * CSFFile) (length jobs)) =
               length (omap (λ y, y) (allData (@all_init (Path * CSFFile) (length jobs))))).
  { simpl. by rewrite omap_replicate_None. }
  assert (H5 : length (allData (@all_init (Path * CSFFile) (length jobs)))
               = length jobs) by apply length_replicate.
  destruct (settle_all_data jobs _ _ _ _ _ H1 (completion_order_elem jobs)
              H5 H2 H3 H4 Hs) as (Hlen & Hsome & Hnum).
  unfold all_promise in Hp. destruct (decide _) as [Hn|]; [|by destruct (rejection a')].
  injection Hp as <-. rewrite Hnum, <- Hlen in Hn.
  apply omap_full in Hn. set (xs := omap (λ y, y) (allData a')) in *.
  apply list_eq. intros i. rewrite !list_lookup_fmap.
  destruct (xs !! i) as [x|] eqn:Hx; simpl.
  - destruct (Hsome i x) as [job Hj]; [|by rewrite Hj].
    by rewrite Hn, list_lookup_fmap, Hx.
  - apply lookup_ge_None in Hx.
    assert (Hge : length jobs ≤ i).
    { rewrite <- Hlen, Hn, length_fmap. done. }
    apply lookup_ge_None in Hge. by rewrite Hge.
Qed.

Lemma settle_all_counts order a s a' s' :
  settle_all order a s = (a', s') →
  numResolved a' ≤ numResolved a + length order ∧
  (is_Some (rejection a) → is_Some (rejection a')) ∧
  (Exists (λ x, import_failed x.2) order →
   numResolved a' < numResolved a + length order ∧ is_Some (rejection a')).
Proof.
  revert a s. induction order as [|[idx [path job]] rest IH]; simpl; intros a s.
  - intros [= <- <-]. split_and!; [lia|done|]. intros Hex. by apply Exists_nil in Hex.
  - destruct (settle job s) as [[e|file] s1] eqn:Hs; intros Hr;
      apply IH in Hr as (Hle & Hrej & Hfail); simpl in *.
    + assert (Hsome : is_Some (rejection a')).
      { apply Hrej. by destruct (rejection a). }
      split_and!; [lia | done | intros _; split; [lia|done]].
    + split_and!; [lia | done |].
      intros Hex. apply Exists_cons in Hex as [[e He]|Hex].
      * simpl in He. rewrite (settle_failed _ _ e) in Hs by done. done.
      * destruct (Hfail Hex). split; [lia|done].
Qed.

(** When a load of a batch fails, the promise of the batch is rejected. *)
Lemma batch_rejected jobs s a' s' :
  settle_all (completion_order jobs) (all_init (length jobs)) s = (a', s') →
  Exists import_failed jobs →
  ∃ e, all_promise (length jobs) a' = Rejected e.
Proof.
  intros Hs Hex. apply settle_all_counts in Hs as (_ & _ & Hfail).
  destruct Hfail as [Hlt [e He]].
  - apply Exists_exists in Hex as (pj & Hin & Hf).
    apply list_elem_of_lookup in Hin as [i Hi].
    apply Exists_exists. exists (i, pj). split; [|done].
    rewrite completion_order_Permutation. by apply elem_of_lookup_imap_2.
  - exists e. unfold all_promise. simpl in Hlt.
    assert (Hlen : length (completion_order jobs) = length jobs).
    { by rewrite completion_order_Permutation, length_imap. }
    destruct (decide _); [lia|]. by rewrite He.
Qed.

(** The pairs of [loadAllCSFFiles] are those of the index. *)
Lemma importPaths_resolve entries pi :
  NoDup entries.*1 → pi ∈ importPaths entries →
  ∃ entry, assoc pi.2 entries = Some entry ∧ importPath entry = pi.1.
Proof.
  intros Hnd Hin. apply list_elem_of_fmap in Hin as [[id entry] [-> Hin]].
  exists entry. split; [|done]. by apply assoc_NoDup_elem.
Qed.

Lemma issue_paths batch s entries f :
  storyIndex s = Some entries → importFn s = Some f →
  (∀ pi, pi ∈ batch →
     ∃ entry, assoc pi.2 entries = Some entry ∧ importPath entry = pi.1) →
  (issue batch s).1.2 = None ∧
  Forall (λ pj, job_importPath pj.2 = pj.1) (issue batch s).1.1.
Proof.
  revert s. induction batch as [|[path id] rest IH]; simpl; intros s Hx Hf Hin;
    [by split|].
  destruct (Hin (path, id)) as (entry & Ha & Hp); [apply list_elem_of_here|].
  simpl in Ha, Hp. unfold loadCSFFileByStoryId. rewrite Hx, Hf.
  unfold storyIdToEntry. rewrite Ha. set (s1 := set_imports _ s).
  destruct (IH s1 Hx Hf) as [Hnone Hall].
  { intros pi Hpi. apply Hin. by apply list_elem_of_further. }
  destruct (issue rest s1) as [[jobs1 thrown1] s2]. simpl in *.
  split; [done|]. by constructor.
Qed.

(** What [loadInBatches] does, batch after batch. *)
Lemma loadInBatches_log depth batchSize remaining s entries f r s' :
  0 < batchSize → length remaining ≤ depth →
  storyIndex s = Some entries → importFn s = Some f →
  (∀ pi, pi ∈ remaining →
     ∃ entry, assoc pi.2 entries = Some entry ∧ importPath entry = pi.1) →
  loadInBatches depth batchSize remaining s = (r, s') →
  ∃ new,
    imports s' = imports s ++ new ∧
    batched batchSize (clock s) new ∧
    imp_path <$> new `prefix_of` remaining.*1 ∧
    (∃ p, r = inr p) ∧
    ∀ l, r = inr (Fulfilled l) →
         l.*1 = remaining.*1 ∧ imp_path <$> new = remaining.*1 ∧
         Forall (λ i, imp_ok i = true) new.
Proof.
  intros Hpos. revert remaining s r s'.
  induction depth as [|depth IH]; intros remaining s r s' Hlen Hx Hf Hres.
  { destruct remaining; [|simpl in Hlen; lia]. simpl. intros [= <- <-].
    exists []. rewrite app_nil_r. split_and!; eauto; [constructor|].
    intros l [= <-]. by split_and!. }
  destruct remaining as [|x remaining].
  { simpl. intros [= <- <-]. exists []. rewrite app_nil_r.
    split_and!; eauto; [constructor|]. intros l [= <-]. by split_and!. }
  set (rem := x :: remaining) in *. cbn [loadInBatches]. fold rem.
  assert (Hrem : rem = take batchSize rem ++ drop batchSize rem)
    by (by rewrite take_drop).
  destruct (issue_paths (take batchSize rem) s entries f Hx Hf) as [Hnone Hpaths].
  { intros pi Hpi. apply Hres. rewrite Hrem. apply elem_of_app. by left. }
  destruct (issue (take batchSize rem) s) as [[jobs thrown] s1] eqn:Hi.
  simpl in Hnone, Hpaths. subst thrown.
  apply issue_spec in Hi as (Hs1 & Hafter & Hkeys). specialize (Hkeys eq_refl).
  destruct (settle_all (completion_order jobs) (all_init (length jobs)) s1)
    as [a s2] eqn:Hs.
  pose proof (settle_all_spec _ _ _ _ _ Hs)
    as (Himp & Hclock & Hsettled & Hx2 & Hf2 & _).
  assert (Hjobs_len : length jobs = length (take batchSize rem)).
  { pose proof (f_equal length Hkeys) as Hl. by rewrite !length_fmap in Hl. }
  set (batch := import_of (clock s) <$> jobs).
  assert (Hbatch_paths : imp_path <$> batch = (take batchSize rem).*1).
  { rewrite <- Hkeys. unfold batch. rewrite <- list_fmap_compose.
    apply Forall_fmap_ext_1. eapply Forall_impl; [exact Hpaths|]. done. }
  assert (Hbatch_ne : batch ≠ []).
  { intros Heq. apply (f_equal length) in Heq. unfold batch in Heq.
    rewrite length_fmap, Hjobs_len, length_take in Heq. simpl in Heq. lia. }
  assert (Hbatch_len : length batch ≤ batchSize).
  { unfold batch. rewrite length_fmap, Hjobs_len, length_take. lia. }
  assert (Hbatch_times :
    Forall (λ r, imp_issued r = clock s ∧ imp_settles r ≤ clock s2) batch).
  { unfold batch. apply Forall_fmap. apply Forall_forall. intros pj Hin. simpl.
    split; [done|]. apply list_elem_of_lookup in Hin as [i Hi].
    rewrite Forall_forall in Hsettled. apply (Hsettled (i, pj)).
    rewrite completion_order_Permutation. by apply elem_of_lookup_imap_2. }
  assert (Himp2 : imports s2 = imports s ++ batch).
  { rewrite Himp, Hs1. done. }
  assert (Hlast : ∀ p : Promise (list (Path * CSFFile)), (∀ l, p ≠ Fulfilled l) →
    ∃ new, imports s2 = imports s ++ new ∧ batched batchSize (clock s) new ∧
      imp_path <$> new `prefix_of` rem.*1 ∧ (∃ p0, @inr Error _ p = inr p0) ∧
      ∀ l, @inr Error _ p = inr (Fulfilled l) →
           l.*1 = rem.*1 ∧ imp_path <$> new = rem.*1 ∧
           Forall (λ i, imp_ok i = true) new).
  { intros p Hp. exists batch. split_and!; eauto.
    - rewrite <- (app_nil_r batch).
      apply (batched_cons _ _ (clock s2)); auto; [done | constructor].
    - rewrite Hbatch_paths. exists (drop batchSize rem).*1.
      by rewrite <- fmap_app, take_drop.
    - intros l [= ->]. by destruct (Hp l). }
  destruct (all_promise (length jobs) a) as [firstResults|e|] eqn:Hall;
    [|intros [= <- <-]; by apply Hlast|intros [= <- <-]; by apply Hlast].
  pose proof (batch_fulfilled_keys _ _ _ _ _ Hs Hall) as Hfirst.
  assert (Hok : Forall (λ i, imp_ok i = true) batch).
  { unfold batch. apply Forall_fmap. apply Forall_forall. intros pj Hin. simpl.
    destruct (job_loaded pj.2) as [e|m] eqn:Hl; [|done]. exfalso.
    destruct (batch_rejected jobs s1 a s2 Hs) as [e' He'].
    - apply Exists_exists. exists pj. split; [done|]. by exists e.
    - congruence. }
  destruct (loadInBatches depth batchSize (drop batchSize rem) s2)
    as [r3 s3] eqn:Hrec.
  assert (Hx2' : storyIndex s2 = Some entries) by (rewrite Hx2, Hs1; done).
  assert (Hf2' : importFn s2 = Some f) by (rewrite Hf2, Hs1; done).
  apply (IH _ _ _ _) with (2 := Hx2') (3 := Hf2') in Hrec
    as (new' & Himp3 & Hb & Hpre & [p3 ->] & Hful).
  - assert (Hcons : batched batchSize (clock s) (batch ++ new')).
    { apply (batched_cons _ _ (clock s2)); auto.
      intros Hne. unfold batch. rewrite length_fmap, Hjobs_len.
      apply length_take_le. destruct (decide (batchSize ≤ length rem)); [done|].
      exfalso. apply Hne. rewrite drop_ge in Hpre by lia.
      apply prefix_nil_inv in Hpre. by apply fmap_nil_inv in Hpre. }
    assert (Hprefix : imp_path <$> batch ++ new' `prefix_of` rem.*1).
    { rewrite fmap_app, Hbatch_paths. destruct Hpre as [k Hk].
      exists k. rewrite <- app_assoc, <- Hk, <- fmap_app. by rewrite take_drop. }
    assert (Hresult : ∀ p : Promise (list (Path * CSFFile)), (∀ l, p = Fulfilled l →
        ∃ rest, p3 = Fulfilled rest ∧ l = firstResults ++ rest) →
      ∃ new, imports s3 = imports s ++ new ∧ batched batchSize (clock s) new ∧
        imp_path <$> new `prefix_of` rem.*1 ∧ (∃ p0, @inr Error _ p = inr p0) ∧
        ∀ l, @inr Error _ p = inr (Fulfilled l) →
             l.*1 = rem.*1 ∧ imp_path <$> new = rem.*1 ∧
             Forall (λ i, imp_ok i = true) new).
    { intros p Hp. exists (batch ++ new'). split_and!; eauto.
      - rewrite Himp3, Himp2. by rewrite app_assoc.
      - intros l [= ->]. destruct (Hp l eq_refl) as (rest & -> & ->).
        destruct (Hful rest eq_refl) as (Hk & Hpaths' & Hok').
        split_and!.
        + rewrite fmap_app, Hfirst, Hkeys, Hk, <- fmap_app. by rewrite take_drop.
        + rewrite fmap_app, Hbatch_paths, Hpaths', <- fmap_app. by rewrite take_drop.
        + apply Forall_app. by split. }
    destruct p3 as [rest|e|]; intros [= <- <-]; apply Hresult.
    + intros l [= <-]. eauto.
    + done.
    + done.
  - rewrite length_drop. simpl in Hlen. unfold rem. simpl. lia.
  - intros pi Hpi. apply Hres. rewrite Hrem. apply elem_of_app. by right.
Qed.

Lemma assign_keys {V} (k : Path) (v : V) (l : list (Path * V)) :
  (assign k v l).*1 = if decide (k ∈ l.*1) then l.*1 else l.*1 ++ [k].
Proof.
  induction l as [|[k' v'] l IH].
  - cbn. case_decide as Hin; [by apply elem_of_nil in Hin|done].
  - cbn [assign]. rewrite fmap_cons. cbn [fst].
    destruct (decide (k' = k)) as [->|Hne].
    + clear IH. case_decide as Hin; [done|]. destruct Hin. apply list_elem_of_here.
    + rewrite fmap_cons, IH. cbn [fst].
      case_decide as Hin; case_decide as Hin'; try done.
      * destruct Hin'. by apply list_elem_of_further.
      * apply elem_of_cons in Hin' as [->|]; done.
Qed.

(** The keys of the object that [loadAllCSFFiles] builds. *)
Lemma to_record_keys_from (l acc : list (Path * CSFFile)) :
  (fold_left (λ acc e, assign e.1 e.2 acc) l acc).*1 =
  fold_left (λ acc p, if decide (p ∈ acc) then acc else acc ++ [p]) l.*1 acc.*1.
Proof.
  revert acc. induction l as [|[p file] l IH]; intros acc; [done|].
  rewrite fmap_cons. cbn [fold_left fst snd]. by rewrite IH, assign_keys.
Qed.

Lemma to_record_keys (l : list (Path * CSFFile)) :
  (to_record l).*1 = insertion_order l.*1.
Proof. apply to_record_keys_from. Qed.

Lemma loadAllCSFFiles_log batchSize s entries f r s' :
  storyIndex s = Some entries → importFn s = Some f →
  NoDup entries.*1 → 0 < batchSize →
  loadAllCSFFiles batchSize s = (r, s') →
  ∃ new,
    imports s' = imports s ++ new ∧
    batched batchSize (clock s) new ∧
    imp_path <$> new `prefix_of` ((λ e, importPath e.2) <$> entries) ∧
    ∀ files, r = inr (Fulfilled files) →
      imp_path <$> new = (λ e, importPath e.2) <$> entries ∧
      files.*1 = insertion_order ((λ e, importPath e.2) <$> entries) ∧
      Forall (λ i, imp_ok i = true) new.
Proof.
  intros Hx Hf Hnd Hpos. unfold loadAllCSFFiles. rewrite Hx.
  assert (Hpaths : (importPaths entries).*1 = (λ e, importPath e.2) <$> entries).
  { unfold importPaths. by rewrite <- list_fmap_compose. }
  destruct (loadInBatches _ _ _ s) as [r0 s0] eqn:Hl.
  apply (loadInBatches_log _ _ _ _ entries f) in Hl
    as (new & Himp & Hb & Hpre & [p ->] & Hful); auto.
  - rewrite Hpaths in Hpre, Hful.
    destruct p as [l|e|]; intros [= <- <-]; exists new; split_and!; auto;
      try (intros files [=]).
    subst files. destruct (Hful l eq_refl) as (Hk & Hp & Hok).
    split_and!; auto. by rewrite to_record_keys, Hk.
  - intros pi Hpi. by apply importPaths_resolve.
Qed.

(** C4 (as amended).  [loadAllCSFFiles] cuts the list of the entries of the
    index, one load for each entry (so that an import path that several
    entries share is loaded once for each of them), into batches of
    [batchSize], 20 when none is given; the loads of a batch are issued at
    the same time, those of the next batch not before each load of the
    batch has settled; and the keys of the mapping are the import paths in
    the order in which the entries are met, whatever the order in which
    the loads complete. *)
Theorem batches_in_sequence batchSize s entries f r s' :
  storyIndex s = Some entries → importFn s = Some f →
  NoDup entries.*1 → 0 < batchSize →
  loadAllCSFFiles batchSize s = (r, s') →
  EXTRACT_BATCH_SIZE = 20 ∧
  ∃ new,
    imports s' = imports s ++ new ∧
    batched batchSize (clock s) new ∧
    imp_path <$> new `prefix_of` ((λ e, importPath e.2) <$> entries) ∧
    ∀ files, r = inr (Fulfilled files) →
      imp_path <$> new = (λ e, importPath e.2) <$> entries ∧
      files.*1 = insertion_order ((λ e, importPath e.2) <$> entries).
Proof.
  intros Hx Hf Hnd Hpos Hl. split; [done|].
  destruct (loadAllCSFFiles_log _ _ _ _ _ _ Hx Hf Hnd Hpos Hl)
    as (new & Himp & Hb & Hpre & Hful).
  exists new. split_and!; auto. intros files Hr.
  destruct (Hful files Hr) as (? & ? & _). by split.
Qed.

End Loading.


(** ** C3: the initialization gate *)

Section Gate.
Context `{csf : CsfModule}.
Implicit Types (s : StoryStore) (l : Loop).

Lemma run_all_app f ops1 ops2 s :
  run_all f (ops1 ++ ops2) s =
  let '(r1, s1) := run_all f ops1 s in
  let '(r2, s2) := run_all f ops2 s1 in
  (r1 ++ r2, s2).
Proof.
  revert s. induction ops1 as [|op ops1 IH]; intros s; simpl.
  - by destruct (run_all f ops2 s).
  - destruct (f op s) as [p s1]. rewrite IH.
    destruct (run_all f ops1 s1) as [r1 s2].
    by destruct (run_all f ops2 s2).
Qed.

(** Before the initialization, operations queue up and do nothing else. *)
Lemma run_all_gated_pending ops s :
  initialized s = false →
  run_all gated ops s =
  (replicate (length ops) Pending, set_waiting (waiting s ++ ops) s).
Proof.
  revert s. induction ops as [|op ops IH]; intros s Hi; simpl.
  - rewrite app_nil_r. by destruct s.
  - rewrite gated_pending by done. rewrite IH by done. simpl.
    by rewrite <- app_assoc.
Qed.

(** After it, they go on at once. *)
Lemma run_all_gated_initialized ops s :
  initialized s = true → run_all gated ops s = run_all resume ops s.
Proof.
  revert s. induction ops as [|op ops IH]; intros s Hi; simpl; [done|].
  rewrite gated_initialized by done.
  destruct (resume op s) as [p s1] eqn:Hr.
  apply resume_evolves in Hr as (_ & _ & Hi' & _). rewrite IH; [done|congruence].
Qed.

Lemma run_imports_done fuel l : loop_flights l = [] → run_imports fuel l = l.
Proof. intros Hf. destruct fuel; simpl; by rewrite ?Hf. Qed.

Lemma run_imports_plus n k l :
  run_imports (n + k) l = run_imports k (run_imports n l).
Proof.
  revert l. induction n as [|n IH]; intros l; [done|].
  simpl. destruct (loop_flights l) as [|x rest] eqn:Hf.
  - by rewrite run_imports_done.
  - apply IH.
Qed.

(** The order of completion is an order of the times. *)
Lemma insert_by_time_sorted x q :
  StronglySorted by_time q → StronglySorted by_time (insert_by_time x q).
Proof.
  induction 1 as [|y q Hq IH Hall]; simpl.
  - by repeat constructor.
  - destruct (decide _) as [Hlt|Hge].
    + constructor; [done|].
      apply Forall_forall. intros z Hz.
      rewrite insert_by_time_Permutation in Hz.
      apply elem_of_cons in Hz as [->|Hz].
      * unfold by_time. lia.
      * by eapply Forall_forall in Hall.
    + constructor; [by constructor|].
      constructor; [unfold by_time; lia|].
      eapply Forall_impl; [exact Hall|]. unfold by_time. intros z. simpl. lia.
Qed.

Lemma completion_order_sorted jobs : StronglySorted by_time (completion_order jobs).
Proof.
  unfold completion_order. induction (imap _ jobs) as [|x q IH]; simpl.
  - constructor.
  - by apply insert_by_time_sorted.
Qed.

Lemma enqueue_last (x : Flight) q :
  Forall (λ y, flight_settles y ≤ flight_settles x) q → enqueue x q = q ++ [x].
Proof.
  induction 1 as [|y q Hy Hq IH]; simpl; [done|].
  destruct (decide _); [lia|]. by rewrite IH.
Qed.

Lemma enqueue_all_sorted tid order q :
  StronglySorted by_time order →
  Forall (λ y, Forall (λ x, flight_settles y ≤ job_settles x.2.2) order) q →
  fold_left (λ q x, enqueue (tid, x) q) order q = q ++ ((λ x, (tid, x)) <$> order).
Proof.
  intros Hs. revert q. induction Hs as [|x order Hs IH Hall]; intros q Hq; simpl.
  - by rewrite app_nil_r.
  - rewrite enqueue_last.
    + rewrite IH; [by rewrite <- app_assoc|].
      apply Forall_app. split.
      * eapply Forall_impl; [exact Hq|]. intros y Hy. by apply Forall_cons in Hy as [_ ?].
      * constructor; [|done]. exact Hall.
    + eapply Forall_impl; [exact Hq|]. intros y Hy. by apply Forall_cons in Hy as [? _].
Qed.

Lemma enqueue_completion_order tid jobs :
  fold_left (λ q x, enqueue (tid, x) q) (completion_order jobs) []
  = (λ x, (tid, x)) <$> completion_order jobs.
Proof. rewrite enqueue_all_sorted; [done|apply completion_order_sorted|done]. Qed.

(** The store that the callbacks of a batch leave does not depend on
    the state of [SynchronousPromise.all]. *)
Lemma settle_all_store order (a a0 : AllState (Path * CSFFile)) s :
  (settle_all order a s).2 = (settle_all order a0 s).2.
Proof.
  revert a a0 s. induction order as [|[idx [path job]] rest IH]; intros a a0 s;
    simpl; [done|].
  destruct (settle job s) as [[e|file] s1]; apply IH.
Qed.

Lemma settle_all_rejection order (a : AllState (Path * CSFFile)) s e :
  rejection a = Some e → rejection (settle_all order a s).1 = Some e.
Proof.
  revert a s. induction order as [|[idx [path job]] rest IH]; intros a s Hr;
    simpl; [done|].
  destruct (settle job s) as [[e0|file] s1]; apply IH; simpl; by rewrite ?Hr.
Qed.

(** Without a rejection, every promise of the batch was fulfilled. *)
Lemma settle_all_tally order (a : AllState (Path * CSFFile)) s :
  rejection (settle_all order a s).1 = None →
  numResolved (settle_all order a s).1 = numResolved a + length order.
Proof.
  revert a s. induction order as [|[idx [path job]] rest IH]; intros a s;
    simpl; [lia|].
  destruct (settle job s) as [[e|file] s1]; intros Hr.
  - exfalso. destruct (rejection a) as [e0|] eqn:Ha.
    + rewrite (settle_all_rejection rest (all_reject e a) s1 e0) in Hr; [done|].
      simpl. by rewrite Ha.
    + rewrite (settle_all_rejection rest (all_reject e a) s1 e) in Hr; [done|].
      simpl. by rewrite Ha.
  - rewrite IH by done. simpl. lia.
Qed.

Lemma next_batch_insert tid remaining results s acts q x :
  next_batch tid remaining results (mkLoop s (<[tid := x]> acts) q)
  = next_batch tid remaining results (mkLoop s acts q).
Proof.
  unfold next_batch, settled. destruct remaining as [|p0 rem];
    cbn [loop_store loop_activities loop_flights].
  - by rewrite list_insert_insert_eq.
  - destruct (issue (take EXTRACT_BATCH_SIZE (p0 :: rem)) s) as [[jobs thrown] s1].
    by rewrite list_insert_insert_eq.
Qed.

(** The imports of an operation that is settled: their callbacks run. *)
Lemma run_imports_settled tid p order acts s k a0 :
  acts !! tid = Some (Settled p) →
  run_imports (length order + k) (mkLoop s acts ((λ x, (tid, x)) <$> order))
  = mkLoop (settle_all order a0 s).2 acts [].
Proof.
  intros Ht. revert s a0. induction order as [|[idx [path job]] rest IH];
    intros s a0.
  - simpl. by rewrite run_imports_done.
  - cbn [length fmap list_fmap Nat.add run_imports loop_flights loop_store
         loop_activities]. csimpl.
    cbn [deliver settle_all loop_store loop_activities loop_flights].
    rewrite Ht. destruct (settle job s) as [[e|file] s1]; cbn [fst snd].
    + rewrite (IH s1 (all_reject e a0)). done.
    + rewrite (IH s1 (all_resolve idx (path, file) a0)). done.
Qed.

Lemma settle_all_bound order (a : AllState (Path * CSFFile)) s :
  numResolved (settle_all order a s).1 ≤ numResolved a + length order.
Proof.
  destruct (settle_all order a s) as [a' s'] eqn:Hs.
  by apply settle_all_counts in Hs as (Hle & _).
Qed.

(** With a rejection, some promise of the batch was not fulfilled. *)
Lemma settle_all_short order (a : AllState (Path * CSFFile)) s :
  rejection a = None → is_Some (rejection (settle_all order a s).1) →
  numResolved (settle_all order a s).1 < numResolved a + length order.
Proof.
  revert a s. induction order as [|[idx [path job]] rest IH]; intros a s Ha;
    simpl.
  - rewrite Ha. by intros [? ?].
  - destruct (settle job s) as [[e|file] s1]; intros Hr.
    + pose proof (settle_all_bound rest (all_reject e a) s1) as Hle. simpl in Hle. lia.
    + pose proof (IH (all_resolve idx (path, file) a) s1 Ha Hr) as Hlt.
      simpl in Hlt. lia.
Qed.

Lemma length_completion_order jobs : length (completion_order jobs) = length jobs.
Proof. by rewrite completion_order_Permutation, length_imap. Qed.

(** The loads of a batch settle, for the operation that waits for them:
    at the first rejection the promise of the operation is rejected, and
    when all are fulfilled the next batch begins. *)
Lemma run_imports_batch tid a n remaining results order acts s k :
  acts !! tid = Some (LoadingBatch a n remaining results) →
  rejection a = None → numResolved a + length order = n → order ≠ [] →
  run_imports (length order + k) (mkLoop s acts ((λ x, (tid, x)) <$> order))
  = match rejection (settle_all order a s).1 with
    | Some e =>
        mkLoop (settle_all order a s).2 (<[tid := Settled (Rejected e)]> acts) []
    | None =>
        run_imports k
          (next_batch tid remaining
             (results ++ omap (λ x, x) (allData (settle_all order a s).1))
             (mkLoop (settle_all order a s).2 acts []))
    end.
Proof.
  revert a s acts. induction order as [|[idx [path job]] rest IH];
    intros a s acts Ht Ha Hn Hne; [done|].
  cbn [length fmap list_fmap Nat.add run_imports loop_flights loop_store
       loop_activities]. csimpl.
  cbn [deliver settle_all loop_store loop_activities loop_flights].
  rewrite Ht. simpl in Hn.
  assert (Htid : tid < length acts) by (by eapply lookup_lt_Some).
  destruct (settle job s) as [[e|file] s1]; cbn [fst snd].
  - unfold all_promise. cbn [all_reject numResolved rejection]. rewrite Ha.
    destruct (decide (numResolved a = n)) as [|_]; [lia|].
    rewrite (settle_all_rejection rest (all_reject e a) s1 e)
      by (simpl; by rewrite Ha).
    unfold settled. cbn [loop_activities loop_flights].
    rewrite (run_imports_settled tid (Rejected e) rest _ s1 k (all_reject e a)).
    + done.
    + by rewrite list_lookup_insert_eq.
  - unfold all_promise. cbn [all_resolve numResolved rejection allData]. rewrite Ha.
    destruct rest as [|y rest'].
    + destruct (decide (S (numResolved a) = n)) as [_|]; [|simpl in *; lia].
      cbn [settle_all fst snd rejection allData all_resolve]. rewrite Ha. done.
    + destruct (decide (S (numResolved a) = n)) as [|_]; [simpl in *; lia|].
      set (a1 := all_resolve idx (path, file) a).
      rewrite (IH a1 s1 (<[tid := LoadingBatch a1 n remaining results]> acts)).
      * destruct (rejection (settle_all (y :: rest') a1 s1).1) as [e|].
        -- by rewrite list_insert_insert_eq.
        -- by rewrite next_batch_insert.
      * by rewrite list_lookup_insert_eq.
      * done.
      * subst a1. simpl in *. lia.
      * done.
Qed.

Lemma issue_length batch s :
  length (issue batch s).1.1 ≤ length batch ∧
  ((issue batch s).1.2 = None → length (issue batch s).1.1 = length batch).
Proof.
  revert s. induction batch as [|[path id] rest IH]; intros s; simpl; [done|].
  destruct (loadCSFFileByStoryId id s) as [e|[job s1]]; simpl; [split; [lia|done]|].
  specialize (IH s1). destruct (issue rest s1) as [[jobs thrown] s2]. simpl in *.
  destruct IH as [Hle Heq]. split; [lia|]. intros Hn. by rewrite Heq.
Qed.

(** When no other import is under way, the batches of an operation are
    loaded as [loadInBatches] loads them. *)
Lemma run_imports_batches depth tid remaining results acts s k :
  tid < length acts → length remaining ≤ depth →
  run_imports (length remaining + k)
    (next_batch tid remaining results (mkLoop s acts []))
  = let r := cached_from results
               (loadInBatches depth EXTRACT_BATCH_SIZE remaining s) in
    mkLoop r.2 (<[tid := Settled r.1]> acts) [].
Proof.
  revert remaining results acts s k.
  induction depth as [|depth IH]; intros remaining results acts s k Htid Hlen.
  - destruct remaining; [|simpl in Hlen; lia]. simpl.
    rewrite app_nil_r. by rewrite run_imports_done.
  - destruct remaining as [|p0 rem].
    { simpl. rewrite app_nil_r. by rewrite run_imports_done. }
    set (remaining := p0 :: rem) in *.
    unfold next_batch. cbn [loadInBatches]. fold remaining.
    replace (match remaining with [] => _ | _ :: _ => _ end) with
      (let '(jobs, thrown, s1) :=
         issue (take EXTRACT_BATCH_SIZE remaining) (loop_store (mkLoop s acts [])) in
       mkLoop s1
         (<[tid := match thrown with
                   | Some e => Settled (Rejected e)
                   | None =>
                       LoadingBatch (all_init (length jobs)) (length jobs)
                         (drop EXTRACT_BATCH_SIZE remaining) results
                   end]> (loop_activities (mkLoop s acts [])))
         (fold_left (λ q x, enqueue (tid, x) q) (completion_order jobs)
            (loop_flights (mkLoop s acts [])))) by done.
    replace (match remaining with [] => (inr (Fulfilled []), s) | _ :: _ => _ end)
      with
      (let '(jobs, thrown, s1) := issue (take EXTRACT_BATCH_SIZE remaining) s in
       let '(a, s2) :=
         settle_all (completion_order jobs) (all_init (length jobs)) s1 in
       match thrown with
       | Some e => (inl e, s2)
       | None =>
           match all_promise (length jobs) a with
           | Fulfilled firstResults =>
               match loadInBatches depth EXTRACT_BATCH_SIZE
                       (drop EXTRACT_BATCH_SIZE remaining) s2 with
               | (inl e, s3) => (inr (Rejected e), s3)
               | (inr (Fulfilled restResults), s3) =>
                   (inr (Fulfilled (firstResults ++ restResults)%list), s3)
               | (inr (Rejected e), s3) => (inr (Rejected e), s3)
               | (inr Pending, s3) => (inr Pending, s3)
               end
           | Rejected e => (inr (Rejected e), s2)
           | Pending => (inr Pending, s2)
           end
       end) by done.
    cbn [loop_store loop_activities loop_flights].
    pose proof (issue_length (take EXTRACT_BATCH_SIZE remaining) s) as [Hle Hfull].
    destruct (issue (take EXTRACT_BATCH_SIZE remaining) s) as [[jobs thrown] s1].
    cbn [fst snd] in Hle, Hfull.
    rewrite enqueue_completion_order.
    assert (Hsplit : length remaining =
                     length (take EXTRACT_BATCH_SIZE remaining)
                     + length (drop EXTRACT_BATCH_SIZE remaining)).
    { rewrite <- length_app. by rewrite take_drop. }
    set (fuel := length remaining + k).
    assert (Hfuel : fuel = length (completion_order jobs)
                           + (length (take EXTRACT_BATCH_SIZE remaining) - length jobs
                              + length (drop EXTRACT_BATCH_SIZE remaining) + k)).
    { subst fuel. rewrite length_completion_order. lia. }
    rewrite Hfuel. clear Hfuel. clearbody fuel.
    destruct (settle_all (completion_order jobs) (all_init (length jobs)) s1)
      as [a s2] eqn:Hsettle.
    destruct thrown as [e|].
    + rewrite (run_imports_settled tid (Rejected e) _ _ s1 _ (all_init (length jobs)))
        by (by rewrite list_lookup_insert_eq).
      rewrite Hsettle. done.
    + specialize (Hfull eq_refl).
      assert (Hpos : 0 < length jobs).
      { rewrite Hfull. subst remaining. simpl. lia. }
      rewrite (run_imports_batch tid (all_init (length jobs)) (length jobs)
                 (drop EXTRACT_BATCH_SIZE remaining) results).
      * rewrite Hsettle. cbn [fst snd]. unfold all_promise.
        destruct (rejection a) as [e|] eqn:Hrej.
        -- pose proof (settle_all_short (completion_order jobs)
                         (all_init (length jobs)) s1 eq_refl) as Hshort.
           rewrite Hsettle in Hshort. cbn [fst] in Hshort.
           rewrite Hrej in Hshort. specialize (Hshort (ltac:(eauto))).
           rewrite length_completion_order in Hshort. simpl in Hshort.
           destruct (decide (numResolved a = length jobs)) as [|_]; [lia|].
           simpl. by rewrite list_insert_insert_eq.
        -- pose proof (settle_all_tally (completion_order jobs)
                         (all_init (length jobs)) s1) as Htally.
           rewrite Hsettle in Htally. cbn [fst] in Htally.
           specialize (Htally Hrej).
           rewrite length_completion_order in Htally. simpl in Htally.
           destruct (decide (numResolved a = length jobs)) as [_|]; [|lia].
           rewrite next_batch_insert.
           replace (length (take EXTRACT_BATCH_SIZE remaining) - length jobs +
                    length (drop EXTRACT_BATCH_SIZE remaining) + k)
             with (length (drop EXTRACT_BATCH_SIZE remaining) + k) by lia.
           rewrite (IH (drop EXTRACT_BATCH_SIZE remaining)); [|done|].
           ++ destruct (loadInBatches depth EXTRACT_BATCH_SIZE
                          (drop EXTRACT_BATCH_SIZE remaining) s2)
                as [[e|[rest|e|]] s3]; cbn [cached_from fst snd]; try done.
              by rewrite app_assoc.
           ++ subst remaining. rewrite length_drop. simpl in *. lia.
      * by rewrite list_lookup_insert_eq.
      * done.
      * rewrite length_completion_order. done.
      * intros Hnil. apply (f_equal length) in Hnil.
        rewrite length_completion_order in Hnil. simpl in Hnil. lia.
Qed.

(** *** The loop ends *)

Lemma paths_left_insert tid a a' (acts : list Activity) :
  acts !! tid = Some a →
  sum_list (paths_left <$> <[tid := a']> acts) + paths_left a
  = sum_list (paths_left <$> acts) + paths_left a'.
Proof.
  revert tid. induction acts as [|b acts IH]; intros [|tid] Ht; simplify_eq/=.
  - lia.
  - specialize (IH tid Ht). lia.
Qed.

Lemma length_enqueue x q : length (enqueue x q) = S (length q).
Proof.
  induction q as [|y q IH]; simpl; [done|].
  destruct (decide _); simpl; [done|]. by rewrite IH.
Qed.

Lemma length_enqueue_all tid order q :
  length (fold_left (λ q x, enqueue (tid, x) q) order q) = length order + length q.
Proof.
  revert q. induction order as [|x order IH]; intros q; simpl; [done|].
  rewrite IH, length_enqueue. lia.
Qed.

Lemma next_batch_left tid remaining results l a :
  loop_activities l !! tid = Some a →
  imports_left (next_batch tid remaining results l) + paths_left a
  ≤ imports_left l + length remaining.
Proof.
  intros Ht. unfold next_batch, settled, imports_left.
  destruct remaining as [|p0 rem]; cbn [loop_flights loop_activities].
  - pose proof (paths_left_insert tid a (Settled (Fulfilled VVoid)) _ Ht) as Hs.
    simpl in *. lia.
  - set (remaining := p0 :: rem).
    pose proof (issue_length (take EXTRACT_BATCH_SIZE remaining) (loop_store l))
      as [Hle _].
    destruct (issue (take EXTRACT_BATCH_SIZE remaining) (loop_store l))
      as [[jobs thrown] s1].
    cbn [fst snd loop_flights loop_activities] in *.
    rewrite length_enqueue_all, length_completion_order.
    assert (Hsplit : length remaining =
                     length (take EXTRACT_BATCH_SIZE remaining)
                     + length (drop EXTRACT_BATCH_SIZE remaining)).
    { rewrite <- length_app. by rewrite take_drop. }
    destruct thrown as [e|].
    + pose proof (paths_left_insert tid a (Settled (Rejected e)) _ Ht) as Hs.
      subst remaining. simpl in *. lia.
    + pose proof (paths_left_insert tid a
                    (LoadingBatch (all_init (length jobs)) (length jobs)
                       (drop EXTRACT_BATCH_SIZE remaining) results) _ Ht) as Hs.
      subst remaining. simpl in *. lia.
Qed.

Lemma settled_left tid p s l :
  imports_left (settled tid p s l) ≤ imports_left l.
Proof.
  unfold settled, imports_left. cbn [loop_flights loop_activities].
  destruct (loop_activities l !! tid) as [a|] eqn:Ht.
  - pose proof (paths_left_insert tid a (Settled p) _ Ht) as Hs. simpl in Hs. lia.
  - rewrite list_insert_ge; [done|]. by apply lookup_ge_None.
Qed.

(** An import that settles leaves fewer imports to come. *)
Lemma deliver_left x l : imports_left (deliver x l) ≤ imports_left l.
Proof.
  destruct x as [tid [idx [path job]]]. unfold deliver.
  destruct (settle job (loop_store l)) as [r s1].
  destruct (loop_activities l !! tid) as [[op|storyId|a n remaining results|p]|] eqn:Ht;
    try done.
  - destruct r as [e|file]; [apply settled_left|].
    destruct (storyFromCSFFile storyId (Some file) s1) as [[e|story] s2];
      apply settled_left.
  - destruct (all_promise n _) as [first|e|].
    + pose proof (next_batch_left tid remaining (results ++ first)
                    (mkLoop s1 (loop_activities l) (loop_flights l)) _ Ht) as Hle.
      assert (Hl : imports_left (mkLoop s1 (loop_activities l) (loop_flights l))
                   = imports_left l) by done.
      assert (Hp : length remaining ≤ sum_list (paths_left <$> loop_activities l)).
      { pose proof (paths_left_insert tid _ (Settled Pending) _ Ht) as Hs.
        simpl in Hs. lia. }
      simpl in Hle. rewrite Hl in Hle. lia.
    + apply settled_left.
    + unfold imports_left. cbn [loop_flights loop_activities].
      match goal with |- context [<[tid := ?b]> _] =>
        pose proof (paths_left_insert tid _ b _ Ht) as Hs end.
      simpl in Hs. lia.
Qed.

Lemma run_imports_fuel fuel1 fuel2 l :
  imports_left l ≤ fuel1 → imports_left l ≤ fuel2 →
  run_imports fuel1 l = run_imports fuel2 l.
Proof.
  revert fuel2 l. induction fuel1 as [|fuel1 IH]; intros fuel2 l H1 H2.
  - destruct l as [s acts [|x rest]]; [by rewrite !run_imports_done|].
    unfold imports_left in H1. simpl in H1. lia.
  - destruct l as [s acts [|x rest]]; [by rewrite !run_imports_done|].
    assert (Hl : imports_left (mkLoop s acts (x :: rest))
                 = S (imports_left (mkLoop s acts rest))) by done.
    rewrite Hl in *. destruct fuel2 as [|fuel2]; [lia|].
    cbn [run_imports loop_flights loop_store loop_activities].
    pose proof (deliver_left x (mkLoop s acts rest)) as Hd.
    apply IH; lia.
Qed.

Lemma run_imports_enough fuel l :
  imports_left l ≤ fuel → run_imports fuel l = run_imports (imports_left l) l.
Proof. intros Hle. by apply run_imports_fuel. Qed.

Lemma run_imports_flights fuel l :
  imports_left l ≤ fuel → loop_flights (run_imports fuel l) = [].
Proof.
  revert l. induction fuel as [|fuel IH]; intros l Hle.
  - destruct l as [s acts [|x rest]]; [done|]. unfold imports_left in Hle.
    simpl in Hle. lia.
  - destruct l as [s acts [|x rest]]; [done|].
    assert (Hl : imports_left (mkLoop s acts (x :: rest))
                 = S (imports_left (mkLoop s acts rest))) by done.
    rewrite Hl in *. cbn [run_imports loop_flights loop_store loop_activities].
    pose proof (deliver_left x (mkLoop s acts rest)) as Hd.
    apply IH. lia.
Qed.

Lemma cacheAllCSFFiles_now_eq s entries :
  storyIndex s = Some entries →
  cacheAllCSFFiles_now s =
  cached_from [] (loadInBatches (length (importPaths entries)) EXTRACT_BATCH_SIZE
                    (importPaths entries) s).
Proof.
  intros Hx. unfold cacheAllCSFFiles_now, loadAllCSFFiles. rewrite Hx.
  by destruct (loadInBatches _ _ _ s) as [[e|[l|e|]] s1].
Qed.

(** [cacheAllCSFFiles], when no other import is under way: the loop runs
    its callbacks. *)
Lemma run_imports_cache tid acts s :
  tid < length acts →
  run_imports (imports_left (start_cacheAllCSFFiles tid (mkLoop s acts [])))
    (start_cacheAllCSFFiles tid (mkLoop s acts []))
  = mkLoop (cacheAllCSFFiles_now s).2
      (<[tid := Settled (cacheAllCSFFiles_now s).1]> acts) [].
Proof.
  intros Htid. unfold start_cacheAllCSFFiles. cbn [loop_store].
  destruct (storyIndex s) as [entries|] eqn:Hx.
  - rewrite (cacheAllCSFFiles_now_eq s entries Hx).
    set (l := next_batch _ _ _ _).
    rewrite <- (run_imports_enough (length (importPaths entries) + imports_left l))
      by lia.
    subst l. by rewrite (run_imports_batches (length (importPaths entries))).
  - rewrite run_imports_done by done.
    unfold cacheAllCSFFiles_now, loadAllCSFFiles. by rewrite Hx.
Qed.

(** *** The operations that wait, after [initialize] *)

Lemma run_jobs_none l :
  Forall (λ a, ¬ at_await a) (loop_activities l) → run_jobs l = l.
Proof.
  intros Hall. unfold run_jobs.
  induction (seq 0 (length (loop_activities l))) as [|tid tids IH]; [done|].
  simpl. destruct (loop_activities l !! tid) as [a|] eqn:Ht; [|done].
  destruct a as [op| | |]; try done.
  exfalso. eapply Forall_lookup_1 in Hall; [|done]. apply Hall. by exists op.
Qed.

Lemma next_batch_activities tid remaining results l :
  ∃ a, ¬ at_await a ∧
       loop_activities (next_batch tid remaining results l)
       = <[tid := a]> (loop_activities l).
Proof.
  unfold next_batch, settled. destruct remaining as [|p0 rem].
  - eexists. split; [|done]. by intros [op ?].
  - destruct (issue _ (loop_store l)) as [[jobs [e|]] s1];
      (eexists; split; [|done]); by intros [op ?].
Qed.

Lemma start_cacheAllCSFFiles_activities tid l :
  ∃ a, ¬ at_await a ∧
       loop_activities (start_cacheAllCSFFiles tid l)
       = <[tid := a]> (loop_activities l).
Proof.
  unfold start_cacheAllCSFFiles. destruct (storyIndex (loop_store l)).
  - apply next_batch_activities.
  - eexists. split; [|done]. by intros [op ?].
Qed.

Lemma waiting_forgotten entries f w s :
  set_waiting [] (set_initialized true
    (set_importFn (Some f) (set_storyIndex (Some entries) (set_waiting w s))))
  = set_waiting [] (set_initialized true
      (set_importFn (Some f) (set_storyIndex (Some entries) s))).
Proof. by destruct s. Qed.

Lemma configured_initialized entries f s :
  initialized (set_importFn f (set_storyIndex entries s)) = initialized s.
Proof. done. Qed.

Lemma configured_waiting entries f s :
  waiting (set_importFn f (set_storyIndex entries s)) = waiting s.
Proof. done. Qed.

(** [initialize] when no operation waits. *)
Lemma initialize_alone entries f cache s :
  initialized s = true ∨ waiting s = [] →
  ∃ s2,
    initialize entries f cache s =
      (let '(p, s3) := if cache then cacheAllCSFFiles_now s2
                       else (Fulfilled VVoid, s2) in (p, [], s3)) ∧
    initialized s2 = true ∧
    storyIndex s2 = Some (default [] entries) ∧ importFn s2 = Some f ∧
    projectAnnotations s2 = projectAnnotations s ∧
    cachedCSFFiles s2 = cachedCSFFiles s ∧ csfCache s2 = csfCache s ∧
    storyCache s2 = storyCache s ∧ imports s2 = imports s ∧
    args s2 = args s ∧ hooks s2 = hooks s.
Proof.
  intros Hw.
  assert (Hsync : ∃ s2,
    initialize_sync entries f cache s =
      (let l := mkLoop s2 [Settled (Fulfilled VVoid)] [] in
       if cache then start_cacheAllCSFFiles 0 l else l) ∧
    initialized s2 = true ∧
    storyIndex s2 = Some (default [] entries) ∧ importFn s2 = Some f ∧
    projectAnnotations s2 = projectAnnotations s ∧
    cachedCSFFiles s2 = cachedCSFFiles s ∧ csfCache s2 = csfCache s ∧
    storyCache s2 = storyCache s ∧ imports s2 = imports s ∧
    args s2 = args s ∧ hooks s2 = hooks s).
  { unfold initialize_sync, resolveInitializationPromise. cbn [loop_store].
    destruct (initialized (set_importFn _ _)) eqn:Hi.
    - eexists. split; [reflexivity|]. by split_and!.
    - destruct Hw as [Hw|Hw]; [by destruct s; simpl in *; congruence|].
      replace (waiting (set_importFn _ _)) with (waiting s) by done.
      rewrite Hw. cbn [fold_left loop_activities loop_flights].
      eexists. split; [reflexivity|]. by split_and!. }
  destruct Hsync as (s2 & Hsync & Hfacts). exists s2. split; [|exact Hfacts].
  unfold initialize, run_loop. rewrite Hsync. cbn zeta. destruct cache.
  - rewrite run_jobs_none.
    + rewrite run_imports_cache by (simpl; lia).
      by destruct (cacheAllCSFFiles_now s2) as [p s3].
    + destruct (start_cacheAllCSFFiles_activities 0
                  (mkLoop s2 [Settled (Fulfilled VVoid)] [])) as (a & Ha & ->).
      simpl. by repeat constructor.
  - rewrite run_jobs_none; [done|]. repeat constructor. by intros [op ?].
Qed.

(** One operation issued when nothing else is under way: the loop runs it
    as [resume] does. *)
Lemma run_loop_one op s :
  run_loop (issue_gated op (mkLoop s [Settled (Fulfilled VVoid)] []))
  = mkLoop (resume op s).2
      [Settled (Fulfilled VVoid); Settled (resume op s).1] [].
Proof.
  set (acts := [Settled (Fulfilled VVoid); AwaitingInit op]).
  assert (Hcache : ∀ s0,
    let l := start_cacheAllCSFFiles 1 (mkLoop s0 acts []) in
    run_imports (imports_left l) l
    = mkLoop (cacheAllCSFFiles_now s0).2
        [Settled (Fulfilled VVoid); Settled (cacheAllCSFFiles_now s0).1] []).
  { intros s0. cbn zeta. by rewrite run_imports_cache by (simpl; lia). }
  unfold run_loop, issue_gated.
  cbn [loop_store loop_activities loop_flights length app]. fold acts.
  destruct op as [newImportFn newStoryIndex|storyId|storyId|].
  - unfold run_jobs. cbn [loop_activities length seq fold_left lookup list_lookup acts].
    unfold go_on, resume, onStoriesChanged_now.
    cbn [loop_store loop_activities loop_flights].
    set (s1 := match newImportFn with Some f => _ | None => s end).
    destruct newStoryIndex as [entries|].
    + destruct (storyIndex s1) as [old|]; [|by rewrite run_imports_done].
      destruct (cachedCSFFiles (set_storyIndex (Some entries) s1));
        [apply Hcache|by rewrite run_imports_done].
    + destruct (cachedCSFFiles s1); [apply Hcache|by rewrite run_imports_done].
  - unfold run_jobs. cbn [loop_activities length seq fold_left lookup list_lookup acts].
    unfold go_on, resume. cbn [loop_store loop_activities loop_flights].
    destruct (storyIdToEntry_now storyId s) as [p s1].
    by rewrite run_imports_done.
  - unfold run_jobs. cbn [loop_activities length seq fold_left lookup list_lookup acts].
    unfold go_on, resume, loadStory_now.
    cbn [loop_store loop_activities loop_flights].
    destruct (loadCSFFileByStoryId storyId s) as [e|[job s1]];
      [by rewrite run_imports_done|].
    unfold imports_left.
    cbn [loop_flights loop_activities enqueue length acts fmap list_fmap insert
         list_insert paths_left sum_list sum_list_with Nat.add run_imports
         loop_store deliver lookup list_lookup].
    csimpl. cbn [run_imports loop_flights loop_store loop_activities deliver
                 lookup list_lookup].
    destruct (settle job s1) as [[e|file] s2]; [done|].
    by destruct (storyFromCSFFile storyId (Some file) s2) as [[e|story] s3].
  - rewrite run_jobs_none.
    + apply Hcache.
    + destruct (start_cacheAllCSFFiles_activities 1 (mkLoop s acts []))
        as (a & Ha & ->).
      simpl. repeat constructor; [by intros [op ?]|done].
Qed.

(** An operation that waited alone settles, when [initialize] is called
    without [cache], as the operation settles on the initialized store. *)
Lemma initialize_one_waiter entries f op s :
  initialized s = false → waiting s = [] →
  initialize entries f false (gated op s).2 =
  let '(p, s1) :=
    resume op
      (set_waiting [] (set_initialized true
         (set_importFn (Some f) (set_storyIndex (Some (default [] entries)) s)))) in
  (Fulfilled VVoid, [p], s1).
Proof.
  intros Hi Hw. rewrite gated_pending by done. cbn [snd]. rewrite Hw.
  unfold initialize, initialize_sync, resolveInitializationPromise.
  cbn [loop_store loop_activities loop_flights].
  replace (initialized (set_importFn _ _)) with (initialized s) by done.
  rewrite Hi.
  replace (waiting (set_importFn _ _)) with ([op]) by done.
  cbn [fold_left app]. rewrite waiting_forgotten, run_loop_one.
  by destruct (resume op _) as [p s1].
Qed.

Lemma issue_gated_all_app ops1 ops2 l :
  fold_left (λ l op, issue_gated op l) (ops1 ++ ops2) l
  = fold_left (λ l op, issue_gated op l) ops2
      (fold_left (λ l op, issue_gated op l) ops1 l).
Proof. apply fold_left_app. Qed.

Lemma next_batch_append tid remaining results s acts q a :
  tid < length acts →
  next_batch tid remaining results (mkLoop s (acts ++ [a]) q)
  = let l := next_batch tid remaining results (mkLoop s acts q) in
    mkLoop (loop_store l) (loop_activities l ++ [a]) (loop_flights l).
Proof.
  intros Htid. unfold next_batch, settled. destruct remaining as [|p0 rem];
    cbn [loop_store loop_activities loop_flights].
  - by rewrite insert_app_l.
  - destruct (issue (take EXTRACT_BATCH_SIZE (p0 :: rem)) s) as [[jobs thrown] s1].
    cbn [loop_store loop_activities loop_flights]. by rewrite insert_app_l.
Qed.

(** The code of [initialize] after [resolveInitializationPromise] and an
    [async] function that begins to wait do not depend on the order in
    which they come. *)
Lemma start_cacheAllCSFFiles_issue_gated op l :
  op ≠ CacheAllCSFFiles → 0 < length (loop_activities l) →
  start_cacheAllCSFFiles 0 (issue_gated op l)
  = issue_gated op (start_cacheAllCSFFiles 0 l).
Proof.
  intros Hop Hlen. destruct l as [s acts q].
  assert (Hig : ∀ l, issue_gated op l
                     = mkLoop (loop_store l) (loop_activities l ++ [AwaitingInit op])
                         (loop_flights l)) by (by destruct op).
  rewrite !Hig. cbn [loop_store loop_activities loop_flights] in *.
  unfold start_cacheAllCSFFiles. cbn [loop_store].
  destruct (storyIndex s) as [entries|].
  - by rewrite next_batch_append.
  - unfold settled. cbn [loop_store loop_activities loop_flights].
    by rewrite insert_app_l.
Qed.

Lemma length_issue_gated op l :
  length (loop_activities (issue_gated op l)) = S (length (loop_activities l)).
Proof.
  unfold issue_gated. destruct op; cbn [loop_activities];
    rewrite ?length_app; simpl; try lia.
  destruct (start_cacheAllCSFFiles_activities (length (loop_activities l))
              (mkLoop (loop_store l) (loop_activities l ++ [AwaitingInit CacheAllCSFFiles])
                 (loop_flights l))) as (a & _ & ->).
  rewrite length_insert. cbn [loop_activities]. rewrite length_app. simpl. lia.
Qed.

Lemma start_cacheAllCSFFiles_issue_gated_all ops l :
  CacheAllCSFFiles ∉ ops → 0 < length (loop_activities l) →
  start_cacheAllCSFFiles 0 (fold_left (λ l op, issue_gated op l) ops l)
  = fold_left (λ l op, issue_gated op l) ops (start_cacheAllCSFFiles 0 l).
Proof.
  revert l. induction ops as [|op ops IH]; intros l Hn Hlen; [done|].
  apply not_elem_of_cons in Hn as [Hop Hn]. simpl.
  rewrite IH by (rewrite ?length_issue_gated; done || lia).
  by rewrite start_cacheAllCSFFiles_issue_gated.
Qed.

Lemma length_issue_gated_all ops l :
  length (loop_activities (fold_left (λ l op, issue_gated op l) ops l))
  = length (loop_activities l) + length ops.
Proof.
  revert l. induction ops as [|op ops IH]; intros l; simpl; [lia|].
  rewrite IH, length_issue_gated. lia.
Qed.

(** The operations that wait when [initialize] is called go on as the
    same operations issued by the caller of [initialize] when it returns. *)
Lemma initialize_sync_waiting entries f cache ops s :
  initialized s = false →
  cache = false ∨ CacheAllCSFFiles ∉ ops →
  initialize_sync entries f cache (run_all gated ops s).2
  = fold_left (λ l op, issue_gated op l) ops (initialize_sync entries f cache s).
Proof.
  intros Hi Hc. rewrite run_all_gated_pending by done. cbn [snd].
  unfold initialize_sync, resolveInitializationPromise.
  cbn [loop_store loop_activities loop_flights].
  rewrite !configured_initialized, !configured_waiting. cbn [initialized waiting set_waiting].
  replace (initialized (set_waiting (waiting s ++ ops) s)) with (initialized s) by done.
  replace (waiting (set_waiting (waiting s ++ ops) s)) with (waiting s ++ ops) by done.
  rewrite Hi.
  rewrite waiting_forgotten, issue_gated_all_app.
  destruct cache; [|done]. destruct Hc as [|Hc]; [done|].
  rewrite start_cacheAllCSFFiles_issue_gated_all; [done..|].
  rewrite length_issue_gated_all. simpl. lia.
Qed.

(** *** Every operation settles *)

Lemma flights_of_cons tid x q :
  flights_of tid (x :: q) = (if decide (x.1 = tid) then 1 else 0) + flights_of tid q.
Proof.
  unfold flights_of. rewrite filter_cons. by destruct (decide (x.1 = tid)).
Qed.

Lemma flights_of_enqueue tid x q :
  flights_of tid (enqueue x q) = flights_of tid (x :: q).
Proof.
  induction q as [|y q IH]; simpl; [done|].
  destruct (decide _); [done|].
  rewrite (flights_of_cons tid y), IH, !flights_of_cons. lia.
Qed.

Lemma flights_of_enqueue_all tid tid' order q :
  flights_of tid (fold_left (λ q x, enqueue (tid', x) q) order q)
  = (if decide (tid' = tid) then length order else 0) + flights_of tid q.
Proof.
  revert q. induction order as [|x order IH]; intros q; simpl.
  - by destruct (decide _).
  - rewrite IH, flights_of_enqueue, flights_of_cons. simpl.
    destruct (decide (tid' = tid)); lia.
Qed.

(** One operation goes on: the others keep their imports. *)
Lemma loop_ok_update acts q tid a' q' :
  loop_ok acts q → tid < length acts →
  (∀ t, t ≠ tid → flights_of t q' = flights_of t q) →
  activity_ok q' tid a' →
  loop_ok (<[tid := a']> acts) q'.
Proof.
  intros [Hok Hout] Htid Hq Ha. split.
  - intros t a Ht. destruct (decide (t = tid)) as [->|Hne].
    + rewrite list_lookup_insert_eq in Ht by done. by injection Ht as <-.
    + rewrite list_lookup_insert_ne in Ht by done.
      specialize (Hok t a Ht). specialize (Hq t Hne).
      destruct a as [op|id|b n rem res|[v|e|]]; simpl in *; by rewrite ?Hq.
  - intros t Ht. rewrite length_insert in Ht. rewrite Hq by lia. by apply Hout.
Qed.

Lemma next_batch_ok tid remaining results s acts q :
  loop_ok acts q → tid < length acts → flights_of tid q = 0 →
  loop_ok (loop_activities (next_batch tid remaining results (mkLoop s acts q)))
    (loop_flights (next_batch tid remaining results (mkLoop s acts q))).
Proof.
  intros Hok Htid Hq. unfold next_batch, settled.
  destruct remaining as [|p0 rem]; cbn [loop_store loop_activities loop_flights].
  - by apply (loop_ok_update _ q).
  - set (remaining := p0 :: rem).
    pose proof (issue_length (take EXTRACT_BATCH_SIZE remaining) s) as [_ Hfull].
    destruct (issue (take EXTRACT_BATCH_SIZE remaining) s) as [[jobs thrown] s1].
    cbn [fst snd loop_store loop_activities loop_flights] in *.
    apply (loop_ok_update _ q); [done..| |].
    + intros t Hne. rewrite flights_of_enqueue_all.
      by destruct (decide (tid = t)); [congruence|].
    + destruct thrown as [e|]; [done|]. specialize (Hfull eq_refl).
      simpl. rewrite flights_of_enqueue_all, length_completion_order, Hq.
      destruct (decide (tid = tid)); [|done]. subst remaining. simpl in *.
      split_and!; [done|lia|lia].
Qed.

Lemma start_cacheAllCSFFiles_ok tid s acts q :
  loop_ok acts q → tid < length acts → flights_of tid q = 0 →
  loop_ok (loop_activities (start_cacheAllCSFFiles tid (mkLoop s acts q)))
    (loop_flights (start_cacheAllCSFFiles tid (mkLoop s acts q))).
Proof.
  intros Hok Htid Hq. unfold start_cacheAllCSFFiles. cbn [loop_store].
  destruct (storyIndex s).
  - by apply next_batch_ok.
  - unfold settled. cbn [loop_activities loop_flights]. by apply (loop_ok_update _ q).
Qed.

Lemma go_on_ok tid op l :
  loop_activities l !! tid = Some (AwaitingInit op) →
  loop_ok (loop_activities l) (loop_flights l) →
  loop_ok (loop_activities (go_on tid op l)) (loop_flights (go_on tid op l)).
Proof.
  intros Ht Hok. destruct l as [s acts q]. cbn [loop_activities loop_flights] in *.
  assert (Htid : tid < length acts) by (by eapply lookup_lt_Some).
  assert (Hq : flights_of tid q = 0) by (by apply (proj1 Hok tid _ Ht)).
  unfold go_on. cbn [loop_store loop_activities loop_flights].
  destruct op as [newImportFn newStoryIndex|storyId|storyId|].
  - set (s1 := match newImportFn with Some f => _ | None => s end).
    destruct newStoryIndex as [entries|].
    + destruct (storyIndex s1) as [old|]; [|by apply (loop_ok_update _ q)].
      destruct (cachedCSFFiles _);
        [by apply start_cacheAllCSFFiles_ok|by apply (loop_ok_update _ q)].
    + destruct (cachedCSFFiles _);
        [by apply start_cacheAllCSFFiles_ok|by apply (loop_ok_update _ q)].
  - unfold storyIdToEntry_now. destruct (storyIndex s) as [entries|].
    + destruct (storyIdToEntry entries storyId); by apply (loop_ok_update _ q).
    + by apply (loop_ok_update _ q).
  - destruct (loadCSFFileByStoryId storyId s) as [e|[job s1]];
      [by apply (loop_ok_update _ q)|].
    cbn [loop_activities loop_flights]. apply (loop_ok_update _ q); [done..| |].
    + intros t Hne. rewrite flights_of_enqueue, flights_of_cons. simpl.
      by destruct (decide (tid = t)); [congruence|].
    + simpl. rewrite flights_of_enqueue, flights_of_cons, Hq. simpl.
      by destruct (decide (tid = tid)).
  - by apply start_cacheAllCSFFiles_ok.
Qed.

Lemma go_on_activities tid op l :
  ∃ a, ¬ at_await a ∧
       loop_activities (go_on tid op l) = <[tid := a]> (loop_activities l).
Proof.
  assert (Hs : ∀ p s0, ∃ a, ¬ at_await a ∧
            loop_activities (settled tid p s0 l) = <[tid := a]> (loop_activities l)).
  { intros p s0. eexists. split; [|done]. by intros [op' ?]. }
  assert (Hc : ∀ s0, ∃ a, ¬ at_await a ∧
            loop_activities (start_cacheAllCSFFiles tid
                               (mkLoop s0 (loop_activities l) (loop_flights l)))
            = <[tid := a]> (loop_activities l)).
  { intros s0. apply (start_cacheAllCSFFiles_activities tid (mkLoop s0 _ _)). }
  unfold go_on. destruct op as [newImportFn newStoryIndex|storyId|storyId|].
  - set (s1 := match newImportFn with Some f => _ | None => loop_store l end).
    destruct newStoryIndex as [entries|].
    + destruct (storyIndex s1) as [old|]; [|apply Hs].
      destruct (cachedCSFFiles _); [apply Hc|apply Hs].
    + destruct (cachedCSFFiles _); [apply Hc|apply Hs].
  - destruct (storyIdToEntry_now storyId (loop_store l)). apply Hs.
  - destruct (loadCSFFileByStoryId storyId (loop_store l)) as [e|[job s1]];
      [apply Hs|].
    eexists. split; [|done]. by intros [op' ?].
  - destruct l. apply Hc.
Qed.

(** The jobs of the microtask queue leave no operation at
    [await this.initializationPromise]. *)
Lemma run_jobs_ok l :
  loop_ok (loop_activities l) (loop_flights l) →
  loop_ok (loop_activities (run_jobs l)) (loop_flights (run_jobs l)) ∧
  length (loop_activities (run_jobs l)) = length (loop_activities l) ∧
  Forall (λ a, ¬ at_await a) (loop_activities (run_jobs l)).
Proof.
  intros Hok. unfold run_jobs.
  set (step := λ l tid, match loop_activities l !! tid with
                        | Some (AwaitingInit op) => go_on tid op l
                        | _ => l
                        end).
  assert (Hgen : ∀ tids l0,
    loop_ok (loop_activities l0) (loop_flights l0) →
    let l' := fold_left step tids l0 in
    loop_ok (loop_activities l') (loop_flights l') ∧
    length (loop_activities l') = length (loop_activities l0) ∧
    ∀ t a, loop_activities l' !! t = Some a → at_await a →
           loop_activities l0 !! t = Some a ∧ t ∉ tids).
  { induction tids as [|tid tids IH]; intros l0 Hok0; cbn zeta.
    - split_and!; [done..|]. intros t a Ht _. split; [done|]. by apply not_elem_of_nil.
    - cbn [fold_left].
      assert (Hstep : loop_ok (loop_activities (step l0 tid)) (loop_flights (step l0 tid)) ∧
                length (loop_activities (step l0 tid)) = length (loop_activities l0) ∧
                ∀ t a, loop_activities (step l0 tid) !! t = Some a → at_await a →
                       loop_activities l0 !! t = Some a ∧ t ≠ tid).
      { unfold step. destruct (loop_activities l0 !! tid) as [a0|] eqn:Ht0.
        - destruct a0 as [op|id|b n rem res|p].
          + split_and!; [by apply go_on_ok|..].
            * destruct (go_on_activities tid op l0) as (a1 & _ & ->).
              by rewrite length_insert.
            * intros t a Ht Ha.
              destruct (go_on_activities tid op l0) as (a1 & Ha1 & Heq).
              rewrite Heq in Ht. destruct (decide (t = tid)) as [->|Hne].
              -- rewrite list_lookup_insert_eq in Ht by (by eapply lookup_lt_Some).
                 by injection Ht as <-.
              -- by rewrite list_lookup_insert_ne in Ht.
          + split_and!; [done..|]. intros t a Ht Ha. split; [done|].
            intros ->. rewrite Ht0 in Ht. injection Ht as <-. by destruct Ha.
          + split_and!; [done..|]. intros t a Ht Ha. split; [done|].
            intros ->. rewrite Ht0 in Ht. injection Ht as <-. by destruct Ha.
          + split_and!; [done..|]. intros t a Ht Ha. split; [done|].
            intros ->. rewrite Ht0 in Ht. injection Ht as <-. by destruct Ha.
        - split_and!; [done..|]. intros t a Ht Ha. split; [done|].
          intros ->. by rewrite Ht0 in Ht. }
      destruct Hstep as (Hok1 & Hlen1 & Hs1).
      destruct (IH (step l0 tid) Hok1) as (Hok2 & Hlen2 & Hs2).
      split_and!; [done|congruence|].
      intros t a Ht Ha. destruct (Hs2 t a Ht Ha) as [Ht1 Hnin].
      destruct (Hs1 t a Ht1 Ha) as [Ht0 Hne]. split; [done|].
      by apply not_elem_of_cons. }
  destruct (Hgen (seq 0 (length (loop_activities l))) l Hok) as (Hok' & Hlen & Hs).
  split_and!; [done..|].
  apply Forall_lookup_2. intros t a Ht Ha. destruct (Hs t a Ht Ha) as [Ht0 Hnin].
  apply Hnin, elem_of_seq. apply lookup_lt_Some in Ht0. lia.
Qed.

(** An import settles. *)
Lemma deliver_ok x s acts rest :
  loop_ok acts (x :: rest) →
  loop_ok (loop_activities (deliver x (mkLoop s acts rest)))
    (loop_flights (deliver x (mkLoop s acts rest))) ∧
  length (loop_activities (deliver x (mkLoop s acts rest))) = length acts ∧
  (Forall (λ a, ¬ at_await a) acts →
   Forall (λ a, ¬ at_await a) (loop_activities (deliver x (mkLoop s acts rest)))).
Proof.
  intros Hok. destruct x as [tid [idx [path job]]]. unfold deliver.
  cbn [loop_store loop_activities loop_flights].
  destruct (settle job s) as [r s1].
  match type of Hok with loop_ok _ ?q =>
    assert (Hothers : ∀ t, t ≠ tid → flights_of t rest = flights_of t q);
    [|assert (Hmine : flights_of tid q = S (flights_of tid rest))]
  end.
  { intros t Hne. etrans; [|symmetry; apply flights_of_cons]. simpl.
    by destruct (decide (tid = t)); [congruence|]. }
  { etrans; [apply flights_of_cons|]. simpl. by destruct (decide (tid = tid)). }
  assert (Hset : ∀ a' (q' : list Flight),
            tid < length acts →
            (∀ t, t ≠ tid → flights_of t q' = flights_of t rest) →
            activity_ok q' tid a' → ¬ at_await a' →
            loop_ok (<[tid := a']> acts) q' ∧
            length (<[tid := a']> acts) = length acts ∧
            (Forall (λ a, ¬ at_await a) acts →
             Forall (λ a, ¬ at_await a) (<[tid := a']> acts))).
  { intros a' q' Htid Hq Ha' Hna. split_and!.
    - eapply loop_ok_update; [done..| |done].
      intros t Hne. rewrite Hq by done. by apply Hothers.
    - by rewrite length_insert.
    - intros Hall. apply Forall_insert; done. }
  destruct (acts !! tid) as [a0|] eqn:Ht.
  - assert (Htid : tid < length acts) by (by eapply lookup_lt_Some).
    pose proof (proj1 Hok tid a0 Ht) as Ha0.
    destruct a0 as [op|storyId|a n remaining results|p].
    + simpl in Ha0. rewrite Hmine in Ha0. lia.
    + simpl in Ha0. rewrite Hmine in Ha0.
      assert (Hz : flights_of tid rest = 0) by lia.
      destruct r as [e|file].
      * unfold settled. cbn [loop_activities loop_flights].
        apply Hset; [done..|by intros [? ?]].
      * destruct (storyFromCSFFile storyId (Some file) s1) as [[e|story] s2];
          unfold settled; cbn [loop_activities loop_flights];
          (apply Hset; [done..|by intros [? ?]]).
    + simpl in Ha0. destruct Ha0 as (Hrej & Hn & Hpos). rewrite Hmine in Hn.
      unfold all_promise. destruct r as [e|file].
      * cbn [all_reject numResolved rejection]. rewrite Hrej.
        destruct (decide (numResolved a = n)) as [|_]; [lia|].
        unfold settled. cbn [loop_activities loop_flights].
        apply Hset; [done..|by intros [? ?]].
      * cbn [all_resolve numResolved rejection allData]. rewrite Hrej.
        destruct (decide (S (numResolved a) = n)) as [Hfull|Hnot].
        -- assert (Hz : flights_of tid rest = 0) by lia.
           set (l' := next_batch _ _ _ _).
           assert (Hok' : loop_ok (<[tid := Settled (Fulfilled VVoid)]> acts) rest).
           { apply (Hset (Settled (Fulfilled VVoid)) rest);
               [done|done|done|by intros [? ?]]. }
           pose proof (next_batch_ok tid remaining
                         (results ++ omap (λ x, x) (<[idx := Some (path, file)]> (allData a)))
                         s1 _ rest Hok') as Hnb.
           rewrite length_insert in Hnb. specialize (Hnb Htid Hz).
           rewrite next_batch_insert in Hnb. fold l' in Hnb.
           destruct (next_batch_activities tid remaining
                       (results ++ omap (λ x, x) (<[idx := Some (path, file)]> (allData a)))
                       (mkLoop s1 acts rest)) as (a1 & Ha1 & Heq).
           fold l' in Heq. split_and!; [done|..].
           ++ rewrite Heq. cbn [loop_activities]. by rewrite length_insert.
           ++ intros Hall. rewrite Heq. cbn [loop_activities].
              by apply Forall_insert.
        -- cbn [loop_activities loop_flights].
           apply Hset; [done|done| |by intros [? ?]].
           simpl. split_and!; [done|lia|lia].
    + cbn [loop_activities loop_flights]. split_and!; [|done..].
      rewrite <- (list_insert_id acts tid (Settled p) Ht).
      eapply loop_ok_update; [done|done|done|].
      destruct p as [v|e|]; simpl in *; [lia|done|done].
  - exfalso. apply lookup_ge_None in Ht. pose proof (proj2 Hok tid Ht) as Hz.
    rewrite Hmine in Hz. lia.
Qed.

Lemma run_imports_ok fuel l :
  loop_ok (loop_activities l) (loop_flights l) →
  Forall (λ a, ¬ at_await a) (loop_activities l) →
  loop_ok (loop_activities (run_imports fuel l)) (loop_flights (run_imports fuel l)) ∧
  length (loop_activities (run_imports fuel l)) = length (loop_activities l) ∧
  Forall (λ a, ¬ at_await a) (loop_activities (run_imports fuel l)).
Proof.
  revert l. induction fuel as [|fuel IH]; intros l Hok Hall; [done|].
  destruct l as [s acts [|x rest]]; [done|].
  cbn [run_imports loop_flights loop_store loop_activities] in *.
  destruct (deliver_ok x s acts rest Hok) as (Hok1 & Hlen1 & Hall1).
  destruct (IH _ Hok1 (Hall1 Hall)) as (Hok2 & Hlen2 & Hall2).
  split_and!; [done|congruence|done].
Qed.

(** When no import is left, every operation is settled. *)
Lemma loop_ok_settled acts :
  loop_ok acts [] → Forall (λ a, ¬ at_await a) acts →
  Forall (λ a, promise_of a ≠ Pending) acts.
Proof.
  intros [Hok _] Hall. apply Forall_lookup_2. intros tid a Ht.
  specialize (Hok tid a Ht). eapply Forall_lookup_1 in Hall; [|done].
  destruct a as [op|id|b n rem res|[v|e|]]; simpl in *; try done.
  - exfalso. apply Hall. by exists op.
  - destruct Hok as (_ & _ & ?). unfold flights_of in *. simpl in *. lia.
Qed.

Lemma run_loop_settles l :
  loop_ok (loop_activities l) (loop_flights l) →
  Forall (λ a, promise_of a ≠ Pending) (loop_activities (run_loop l)) ∧
  length (loop_activities (run_loop l)) = length (loop_activities l).
Proof.
  intros Hok. unfold run_loop. cbn zeta.
  destruct (run_jobs_ok l Hok) as (Hok1 & Hlen1 & Hall1).
  destruct (run_imports_ok (imports_left (run_jobs l)) _ Hok1 Hall1)
    as (Hok2 & Hlen2 & Hall2).
  split; [|congruence].
  apply loop_ok_settled; [|done].
  by rewrite <- (run_imports_flights (imports_left (run_jobs l)) (run_jobs l)).
Qed.

Lemma issue_gated_ok op l :
  loop_ok (loop_activities l) (loop_flights l) →
  loop_ok (loop_activities (issue_gated op l)) (loop_flights (issue_gated op l)).
Proof.
  intros Hok. destruct l as [s acts q]. cbn [loop_activities loop_flights] in *.
  assert (Hnew : loop_ok (acts ++ [AwaitingInit op]) q).
  { destruct Hok as [Hok Hout]. split.
    - intros t a Ht. apply lookup_app_Some in Ht as [Ht|[Hge Ht]]; [by apply Hok|].
      apply list_lookup_singleton_Some in Ht as [Ht <-]. simpl. apply Hout. lia.
    - intros t Ht. rewrite length_app in Ht. apply Hout. lia. }
  unfold issue_gated. cbn [loop_store loop_activities loop_flights].
  destruct op; try done.
  apply start_cacheAllCSFFiles_ok; [done|rewrite length_app; simpl; lia|].
  apply (proj2 Hok). lia.
Qed.

Lemma issue_gated_all_ok ops l :
  loop_ok (loop_activities l) (loop_flights l) →
  let l' := fold_left (λ l op, issue_gated op l) ops l in
  loop_ok (loop_activities l') (loop_flights l').
Proof.
  revert l. induction ops as [|op ops IH]; intros l Hok; [done|].
  simpl. by apply IH, issue_gated_ok.
Qed.

Lemma issue_gated_first op l a :
  head (loop_activities l) = Some a →
  head (loop_activities (issue_gated op l)) = Some a.
Proof.
  intros Hh. destruct l as [s [|a0 acts] q]; [done|]. injection Hh as ->.
  unfold issue_gated. cbn [loop_store loop_activities loop_flights].
  destruct op; try done.
  destruct (start_cacheAllCSFFiles_activities (length (a :: acts))
              (mkLoop s ((a :: acts) ++ [AwaitingInit CacheAllCSFFiles]) q))
    as (a1 & _ & ->).
  done.
Qed.

Lemma issue_gated_all_first ops l a :
  head (loop_activities l) = Some a →
  head (loop_activities (fold_left (λ l op, issue_gated op l) ops l)) = Some a.
Proof.
  revert l. induction ops as [|op ops IH]; intros l Hh; [done|].
  simpl. by apply IH, issue_gated_first.
Qed.

Lemma initialize_sync_ok entries f cache s :
  let l := initialize_sync entries f cache s in
  loop_ok (loop_activities l) (loop_flights l) ∧
  length (loop_activities l)
  = S (if initialized s then 0 else length (waiting s)).
Proof.
  cbn zeta. unfold initialize_sync.
  set (s1 := set_importFn _ _).
  assert (Hbase : ∀ s0, loop_ok [Settled (Fulfilled VVoid)] []
                        ∧ loop_activities (mkLoop s0 [Settled (Fulfilled VVoid)] [])
                          = [Settled (Fulfilled VVoid)]).
  { intros s0. split; [|done]. split.
    - intros [|t] a Ht; simplify_eq/=. done.
    - done. }
  assert (Hres : let l1 := resolveInitializationPromise
                             (mkLoop s1 [Settled (Fulfilled VVoid)] []) in
                 loop_ok (loop_activities l1) (loop_flights l1) ∧
                 head (loop_activities l1) = Some (Settled (Fulfilled VVoid)) ∧
                 length (loop_activities l1)
                 = S (if initialized s then 0 else length (waiting s))).
  { cbn zeta. unfold resolveInitializationPromise. cbn [loop_store].
    subst s1. rewrite configured_initialized, configured_waiting.
    destruct (initialized s); [by split_and!; [apply (Hbase s)|..]|].
    cbn [loop_activities loop_flights]. split_and!.
    - apply issue_gated_all_ok. apply (Hbase s).
    - by apply issue_gated_all_first.
    - by rewrite length_issue_gated_all. }
  cbn zeta in Hres. destruct Hres as (Hok & Hhead & Hlen).
  destruct cache; [|done].
  set (l1 := resolveInitializationPromise _) in *.
  destruct l1 as [s2 acts q]. cbn [loop_activities loop_flights] in *.
  assert (Hpos : 0 < length acts) by lia.
  split.
  - apply start_cacheAllCSFFiles_ok; [done..|].
    destruct acts as [|a0 acts]; [done|]. injection Hhead as ->.
    apply (proj1 Hok 0 _ eq_refl).
  - destruct (start_cacheAllCSFFiles_activities 0 (mkLoop s2 acts q))
      as (a1 & _ & ->).
    by rewrite length_insert.
Qed.

(** [initialize] settles, and so does every operation that waited. *)
Lemma initialize_settles entries f cache s :
  (initialize entries f cache s).1.1 ≠ Pending ∧
  Forall (λ p, p ≠ Pending) (initialize entries f cache s).1.2 ∧
  length (initialize entries f cache s).1.2
  = (if initialized s then 0 else length (waiting s)).
Proof.
  unfold initialize, outcome. cbn [fst snd].
  destruct (initialize_sync_ok entries f cache s) as [Hok Hlen].
  destruct (run_loop_settles _ Hok) as [Hall Hlen'].
  rewrite Hlen in Hlen'.
  destruct (loop_activities (run_loop (initialize_sync entries f cache s)))
    as [|a acts]; [done|].
  apply Forall_cons in Hall as [Ha Hall].
  cbn [head default tail length] in *.
  split_and!; [done| |rewrite length_fmap; lia].
  by apply Forall_fmap.
Qed.

(** *** The promise is resolved once *)

Lemma step_initialized c s : initialized s = true → initialized (step c s) = true.
Proof.
  intros Hi. destruct (step_cases c s) as [He|[(op & -> & Hf & _)|(e & f & b & ->)]].
  - destruct He as (_ & _ & -> & _). done.
  - congruence.
  - cbn [step]. destruct (initialize e f b s) as [[p rs] s'] eqn:Hinit. cbn [snd].
    by apply initialize_spec in Hinit as (? & _).
Qed.

Lemma transitions_initialized calls s :
  initialized s = true → transitions (trajectory calls s) = 0.
Proof.
  revert s. induction calls as [|c calls IH]; intros s Hi; [done|].
  cbn [trajectory]. pose proof (IH _ (step_initialized c s Hi)) as Hrest.
  destruct calls; simpl in *; rewrite Hi; simpl; done.
Qed.

Lemma step_opens c s :
  initialized s = false → initialized (step c s) = is_initialize c.
Proof.
  intros Hi. destruct (step_cases c s) as [He|[(op & -> & _ & ->)|(e & f & b & ->)]].
  - destruct He as (_ & _ & He & _). rewrite He, Hi.
    destruct c; try done. exfalso. cbn [step] in He.
    destruct (initialize newStoryIndex newImportFn cache s) as [[p rs] s'] eqn:Hinit.
    apply initialize_spec in Hinit as (? & _). cbn [snd] in He. congruence.
  - done.
  - cbn [step]. destruct (initialize e f b s) as [[p rs] s'] eqn:Hinit. cbn [snd].
    by apply initialize_spec in Hinit as (? & _).
Qed.

Lemma transitions_cons c calls s :
  transitions (trajectory (c :: calls) s) =
  (if negb (initialized s) && initialized (step c s) then 1 else 0)
  + transitions (trajectory calls (step c s)).
Proof. by destruct calls. Qed.

(** The promise is resolved once: by the first [initialize]. *)
Lemma transitions_once calls s :
  initialized s = false →
  transitions (trajectory calls s) = if existsb is_initialize calls then 1 else 0.
Proof.
  revert s. induction calls as [|c calls IH]; intros s Hi; [done|].
  rewrite transitions_cons, Hi, (step_opens c s Hi). simpl.
  destruct (is_initialize c) eqn:Hc; simpl.
  - rewrite transitions_initialized; [done|]. by rewrite (step_opens c s Hi).
  - apply IH. by rewrite (step_opens c s Hi).
Qed.

End Gate.

(** ** C5, C6, C7, C9: preparing stories, lookups, snapshots, changes *)

Section Views.
Context `{csf : CsfModule}.
Implicit Types s : StoryStore.

Lemma args_setInitial_present story (a : gmap StoryId JsRecord) :
  is_Some (a !! story_id story) → args_setInitial story a = a.
Proof. unfold args_setInitial. by intros [x ->]. Qed.

Lemma args_setInitial_seeds story (a : gmap StoryId JsRecord) :
  is_Some (args_setInitial story a !! story_id story).
Proof.
  unfold args_setInitial. destruct (a !! story_id story) as [x|] eqn:Ha.
  - by rewrite Ha.
  - rewrite lookup_insert_eq. eauto.
Qed.

Lemma args_update_lookup storyId partial (a : gmap StoryId JsRecord) :
  args_update storyId partial a !! storyId = merge_args partial <$> a !! storyId.
Proof. unfold args_update. apply lookup_alter_eq. Qed.

(** What a successful [storyFromCSFFile] did. *)
Lemma storyFromCSFFile_inr storyId file s story s1 :
  storyFromCSFFile storyId file s = (inr story, s1) →
  ∃ pa csfFile ann s0,
    projectAnnotations s = Some pa ∧ file = Some csfFile ∧
    assoc storyId (stories (content csfFile)) = Some ann ∧
    prepareStoryWithCache csfFile storyId ann pa s = (inr story, s0) ∧
    s1 = set_hooks ({[ story_id (content story) ]} ∪ hooks s0)
           (set_args (args_setInitial (content story) (args s0)) s0).
Proof.
  unfold storyFromCSFFile. destruct (projectAnnotations s) as [pa|]; [|done].
  destruct file as [csfFile|]; [|done].
  destruct (assoc storyId _) as [ann|] eqn:Hann; [|done].
  destruct (prepareStoryWithCache _ _ _ _ s) as [[e|story0] s0] eqn:Hp; [done|].
  intros [= <- <-]. by exists pa, csfFile, ann, s0.
Qed.

Lemma prepareStoryWithCache_again csfFile storyId ann pa s story s0 s2 :
  prepareStoryWithCache csfFile storyId ann pa s = (inr story, s0) →
  storyCache s2 = storyCache s0 → nextRef s2 = nextRef s0 →
  ∃ m, prepareStoryWithCache csfFile storyId ann pa s2 =
         (inr story, set_nextRef (nextRef s2) (set_storyCache m s2)) ∧
       wasMemoized m = true.
Proof.
  unfold prepareStoryWithCache. intros Hp Hc Hn.
  destruct (memoize STORY_CACHE_SIZE
              (ref csfFile, storyId, ref csfFile, ref pa)
              (prepareStory ann (meta (content csfFile)) (content pa))
              (storyCache s) (nextRef s)) as [[r m0] n0] eqn:Hm.
  injection Hp as -> <-. simpl in Hc, Hn.
  apply memoize_cached in Hm. rewrite Hc, Hn.
  destruct (memoize_hit STORY_CACHE_SIZE _
              (prepareStory ann (meta (content csfFile)) (content pa))
              m0 n0 _ Hm) as (m & -> & Hwas).
  by exists m.
Qed.

(** C5.  Preparing a story of a CSF file a second time gives the very
    prepared story of the first time, from the cache, and leaves the
    argument values of the story as they are: the values that a caller has
    put there in between are not reverted. *)
Theorem preparing_twice_keeps_args storyId csfFile s story s1 :
  storyFromCSFFile storyId (Some csfFile) s = (inr story, s1) →
  (∀ a', is_Some (a' !! story_id (content story)) →
     ∃ s3, storyFromCSFFile storyId (Some csfFile) (set_args a' s1) = (inr story, s3) ∧
           wasMemoized (storyCache s3) = true ∧
           args s3 = a') ∧
  (∀ partial,
     ∃ s3, storyFromCSFFile storyId (Some csfFile)
             (set_args (args_update (story_id (content story)) partial (args s1)) s1)
           = (inr story, s3) ∧
           args_get (story_id (content story)) (args s3) =
           merge_args partial <$> args_get (story_id (content story)) (args s1)).
Proof.
  intros Hf.
  assert (Hgen : ∀ a', is_Some (a' !! story_id (content story)) →
     ∃ s3, storyFromCSFFile storyId (Some csfFile) (set_args a' s1) = (inr story, s3) ∧
           wasMemoized (storyCache s3) = true ∧ args s3 = a').
  { intros a' Ha'.
    apply storyFromCSFFile_inr in Hf as (pa & file & ann & s0 & Hpa & [= <-] & Hann & Hp & ->).
    unfold storyFromCSFFile. simpl.
    assert (Hpa0 : projectAnnotations s0 = Some pa).
    { unfold prepareStoryWithCache in Hp.
      destruct (memoize _ _ _ _ _) as [[r m0] n0]. by injection Hp as _ <-. }
    rewrite Hpa0, Hann.
    edestruct (prepareStoryWithCache_again csfFile storyId ann pa s story s0) as (m & -> & Hwas);
      [exact Hp | | |]; [done | done |].
    simpl. eexists. split_and!; [done | done |]. simpl.
    by apply args_setInitial_present. }
  split; [exact Hgen|]. intros partial.
  assert (Hseeded : is_Some (args s1 !! story_id (content story))).
  { apply storyFromCSFFile_inr in Hf as (pa & file & ann & s0 & _ & _ & _ & _ & ->).
    simpl. apply args_setInitial_seeds. }
  destruct (Hgen (args_update (story_id (content story)) partial (args s1)))
    as (s3 & Hs3 & _ & Ha3).
  { rewrite args_update_lookup. destruct Hseeded as [x ->]. simpl. eauto. }
  exists s3. split; [done|]. unfold args_get. by rewrite Ha3, args_update_lookup.
Qed.

(** [raw] calls [fromId] for each record and leaves out the [null]s. *)
Lemma raw_stories_threaded records s stories s' :
  raw_stories records s = (inr stories, s') →
  ∃ founds, threaded fromId_of_record records s founds s' ∧
            stories = omap (λ x, x) founds.
Proof.
  revert s stories. induction records as [|record rest IH]; intros s stories.
  - simpl. intros [= <- <-]. exists []. split; [constructor|done].
  - cbn [raw_stories].
    destruct (fromId_of_record record s) as [[e|found] s1] eqn:Hf; [done|].
    destruct (raw_stories rest s1) as [[e|rest'] s2] eqn:Hr; [done|].
    intros [= <- <-]. destruct (IH _ _ Hr) as (founds & Hth & ->).
    exists (found :: founds). split.
    + by apply (threaded_cons fromId_of_record record _ s found s1).
    + by destruct found.
Qed.


(** C7.  [extract] throws when [cacheAllCSFFiles] has not filled
    [cachedCSFFiles], and this error is not the one it throws before the
    initialization: the two have different messages. *)
Theorem extract_requires_cache s includeDocsOnly :
  (storyIndex s = None →
     extract includeDocsOnly s = (inl (NotInitialized "extract"), s)) ∧
  (∀ entries, storyIndex s = Some entries → cachedCSFFiles s = None →
     extract includeDocsOnly s = (inl (CacheNotReady "extract()"), s)) ∧
  message (CacheNotReady "extract()") =
    "Cannot call extract() unless you call cacheAllCSFFiles() first." ∧
  message (NotInitialized "extract") = "extract called before initialization" ∧
  message (CacheNotReady "extract()") ≠ message (NotInitialized "extract").
Proof.
  unfold extract. split_and!.
  - by intros ->.
  - by intros entries -> ->.
  - done.
  - done.
  - done.
Qed.

Lemma with_changes_frame f entries s :
  csfCache (with_changes f entries s) = csfCache s ∧
  storyCache (with_changes f entries s) = storyCache s ∧
  cachedCSFFiles (with_changes f entries s) = cachedCSFFiles s ∧
  args (with_changes f entries s) = args s.
Proof. unfold with_changes. by destruct f, entries. Qed.

(** C9.  [onStoriesChanged] waits for the initialization.  Then it puts
    the new loader and the new index in place, which by itself changes
    neither of the caches nor the cached CSF files.  When no CSF files
    were cached, that is all; when some were, [cacheAllCSFFiles] is run
    again, whatever was changed, and the cached files are replaced when it
    succeeds. *)
Theorem onStoriesChanged_recaches f entries s :
  (initialized s = false →
     onStoriesChanged f entries s =
     (Pending, set_waiting (waiting s ++ [OnStoriesChanged f entries]) s)) ∧
  (csfCache (with_changes f entries s) = csfCache s ∧
   storyCache (with_changes f entries s) = storyCache s ∧
   cachedCSFFiles (with_changes f entries s) = cachedCSFFiles s) ∧
  (initialized s = true → is_Some (storyIndex s) → cachedCSFFiles s = None →
     onStoriesChanged f entries s = (Fulfilled VVoid, with_changes f entries s)) ∧
  (initialized s = true → is_Some (storyIndex s) → is_Some (cachedCSFFiles s) →
     onStoriesChanged f entries s = cacheAllCSFFiles_now (with_changes f entries s) ∧
     ∀ p s', onStoriesChanged f entries s = (p, s') →
       match loadAllCSFFiles EXTRACT_BATCH_SIZE (with_changes f entries s) with
       | (inr (Fulfilled csfFiles), s1) =>
           p = Fulfilled VVoid ∧ s' = set_cachedCSFFiles (Some csfFiles) s1
       | (_, s1) => p ≠ Fulfilled VVoid ∧ s' = s1
       end).
Proof.
  split; [|split; [|split]].
  - intros Hi. unfold onStoriesChanged. by apply gated_pending.
  - by destruct (with_changes_frame f entries s) as (? & ? & ? & _).
  - intros Hi [old Hx] Hc. unfold onStoriesChanged. rewrite gated_initialized by done.
    simpl. unfold onStoriesChanged_now, with_changes.
    destruct f as [g|], entries as [new|]; simpl; rewrite ?Hx; simpl; rewrite ?Hc; done.
  - intros Hi [old Hx] [cached Hc]. unfold onStoriesChanged.
    rewrite gated_initialized by done. simpl.
    assert (Heq : onStoriesChanged_now f entries s =
                  cacheAllCSFFiles_now (with_changes f entries s)).
    { unfold onStoriesChanged_now, with_changes.
      destruct f as [g|], entries as [new|]; simpl; rewrite ?Hx; simpl; rewrite ?Hc; done. }
    split; [done|]. intros p s'. rewrite Heq. unfold cacheAllCSFFiles_now.
    destruct (loadAllCSFFiles _ _) as [[e|[files|e|]] s1]; intros [= <- <-]; done.
Qed.
End Views.

(** ** C8, C10: the snapshot of [extract] *)

Section Extract.
Context `{csf : CsfModule}.
Implicit Types s : StoryStore.

(** The record that [extract] makes of a prepared story. *)
Lemma extract_story_eq story :
  extract_story story =
  [ ("args", JsObject (story_initialArgs story));
    ("id", JsString (story_id story));
    ("name", JsString (story_name story));
    ("title", JsString (story_title story));
    ("tags", JsArray (js_sort (story_tags story)));
    ("parameters", JsObject (story_parameters story));
    ("argTypes", JsObject (story_argTypes story));
    ("initialArgs", JsObject (story_initialArgs story)) ].
Proof.
  destruct story as [i n t tags p aty ia [f|props] u [pf|]]; reflexivity.
Qed.

Lemma code_units_le_total l1 l2 :
  code_units_le l1 l2 = true ∨ code_units_le l2 l1 = true.
Proof.
  revert l2. induction l1 as [|x l1 IH]; intros [|y l2]; simpl; auto.
  destruct (N.ltb_spec x y), (N.ltb_spec y x); auto; lia.
Qed.

Lemma string_le_total : Total string_le.
Proof. intros s1 s2. apply code_units_le_total. Qed.

Lemma js_sort_sorted items :
  Sorted string_le (js_sort items) ∧ js_sort items ≡ₚ items.
Proof.
  split.
  - apply (@Sorted_merge_sort _ string_le _ string_le_total).
  - apply merge_sort_Permutation.
Qed.

Lemma elem_of_assign {V} (k k' : StoryId) (v v' : V) (l : list (StoryId * V)) :
  (k', v') ∈ assign k v l → (k', v') = (k, v) ∨ (k', v') ∈ l.
Proof.
  induction l as [|[k0 v0] l IH]; simpl.
  - intros Hin. apply list_elem_of_singleton in Hin. by left.
  - destruct (decide (k0 = k)) as [->|Hne].
    + rewrite !elem_of_cons. intros [?|?]; [by left | right; by right].
    + rewrite !elem_of_cons. intros [?|Hin]; [right; by left|].
      destruct (IH Hin); [by left | right; by right].
Qed.

(** *** The stories that [extract] prepares *)

Lemma threaded_length {X Y} (f : X → StoryStore → (Error + Y) * StoryStore)
    xs s ys s' :
  threaded f xs s ys s' → length ys = length xs.
Proof. induction 1; simpl; congruence. Qed.

Lemma story_entries_cons id entry rest :
  story_entries ((id, entry) :: rest) =
  match entryType entry with
  | StoryEntry => (id, entry) :: story_entries rest
  | DocsEntry => story_entries rest
  end.
Proof.
  unfold story_entries. rewrite filter_cons. simpl.
  destruct (entryType entry); by destruct (decide _).
Qed.

Lemma story_entries_subseteq entries : story_entries entries ⊆ entries.
Proof. intros x Hin. by apply list_elem_of_filter in Hin as [_ ?]. Qed.

Lemma story_entries_NoDup entries :
  NoDup entries.*1 → NoDup (story_entries entries).*1.
Proof.
  induction entries as [|[id entry] rest IH]; [done|].
  rewrite fmap_cons, story_entries_cons. intros Hnd.
  apply NoDup_cons in Hnd as [Hnot Hnd]. destruct (entryType entry); [|by apply IH].
  rewrite fmap_cons. apply NoDup_cons. split; [|by apply IH].
  intros Hin. apply Hnot. apply list_elem_of_fmap in Hin as (x & -> & Hx).
  apply list_elem_of_fmap. exists x. split; [done|]. by apply story_entries_subseteq.
Qed.

Lemma story_entries_docs entries id entry :
  NoDup entries.*1 → (id, entry) ∈ entries → entryType entry = DocsEntry →
  id ∉ (story_entries entries).*1.
Proof.
  intros Hnd Hin Hdocs Hs. apply list_elem_of_fmap in Hs as ([id' entry'] & Heq & Hs).
  simpl in Heq. subst id'.
  apply list_elem_of_filter in Hs as [Htype Hs]. simpl in Htype.
  assert (entry' = entry); [|congruence].
  apply (assoc_NoDup_elem _ _ _ Hnd) in Hin, Hs. congruence.
Qed.

(** The loop of [extract] prepares the stories of the story entries, one
    after the other, and then puts their records. *)
Lemma extract_entries_threaded docs cached entries acc s r s' :
  extract_entries docs cached entries acc s = (inr r, s') →
  ∃ prepared,
    threaded (prepare_entry cached) (story_entries entries) s prepared s' ∧
    r = fold_left (extract_put docs) (zip (story_entries entries) prepared) acc.
Proof.
  revert acc s. induction entries as [|[id entry] rest IH]; intros acc s.
  - simpl. intros [= <- <-]. exists []. split; [constructor|done].
  - cbn [extract_entries]. rewrite story_entries_cons.
    destruct (entryType entry); [|apply IH].
    destruct (storyFromCSFFile id _ s) as [[e|story] s1] eqn:Hf; [done|].
    intros Hrest.
    assert (Hrest' : extract_entries docs cached rest
                       (extract_put docs acc ((id, entry), story)) s1 = (inr r, s')).
    { unfold extract_put. cbn [fst snd]. by destruct (_ && _). }
    apply IH in Hrest' as (prepared & Hth & ->).
    exists (story :: prepared). split; [|done].
    by apply (threaded_cons (prepare_entry cached) (id, entry) _ s story s1).
Qed.

Lemma extract_put_elem docs xs prepared acc id record :
  (id, record) ∈ fold_left (extract_put docs) (zip xs prepared) acc →
  (id, record) ∈ acc ∨
  ∃ i entry story,
    xs !! i = Some (id, entry) ∧ prepared !! i = Some story ∧
    record = extract_story (content story) ∧
    (docs = false → truthy (docsOnly (content story)) = false).
Proof.
  revert prepared acc. induction xs as [|[id0 entry0] xs IH];
    intros [|story prepared] acc; simpl; auto.
  intros Hin. apply IH in Hin as [Hacc|(i & entry & st & Hi & Hp & Hr & Hd)].
  - unfold extract_put in Hacc. cbn [fst snd] in Hacc.
    destruct (negb docs && truthy (docsOnly (content story))) eqn:Hcond; [by left|].
    apply elem_of_assign in Hacc as [[= -> ->]|?]; [|by left].
    right. exists 0, entry0, story. split_and!; [done..|].
    intros ->. by simpl in Hcond.
  - right. by exists (S i), entry, st.
Qed.

Lemma extract_put_assoc docs xs prepared acc :
  length prepared = length xs →
  (∀ id, id ∉ xs.*1 →
     assoc id (fold_left (extract_put docs) (zip xs prepared) acc) = assoc id acc) ∧
  (NoDup xs.*1 →
   Forall2 (λ e story,
              assoc e.1 (fold_left (extract_put docs) (zip xs prepared) acc) =
              if negb docs && truthy (docsOnly (content story))
              then assoc e.1 acc
              else Some (extract_story (content story)))
     xs prepared).
Proof.
  revert prepared acc. induction xs as [|[id0 entry0] xs IH];
    intros [|story prepared] acc Hlen; simplify_eq/=.
  - split; [done|]. constructor.
  - destruct (IH prepared (extract_put docs acc ((id0, entry0), story)) Hlen)
      as [Hout Hin].
    assert (Hother : ∀ id, id ≠ id0 →
              assoc id (extract_put docs acc ((id0, entry0), story)) = assoc id acc).
    { intros id Hne. unfold extract_put. cbn [fst snd].
      destruct (_ && _); [done|]. by apply assoc_assign_ne. }
    split.
    + intros id Hnot. apply not_elem_of_cons in Hnot as [Hne Hnot].
      rewrite Hout by done. by apply Hother.
    + intros Hnd. apply NoDup_cons in Hnd as [Hnot Hnd]. constructor.
      * cbn [fst]. rewrite Hout by done. unfold extract_put. cbn [fst snd].
        destruct (_ && _); [done|]. by apply assoc_assign_eq.
      * specialize (Hin Hnd).
        apply Forall2_same_length_lookup_2; [by eapply Forall2_length|].
        intros i e st He Hst.
        eapply Forall2_lookup_lr in Hin; [|done..]. rewrite Hin.
        rewrite Hother; [done|]. intros Heq. apply Hnot.
        apply list_elem_of_fmap. exists e. split; [done|].
        by eapply list_elem_of_lookup_2.
Qed.

(** What [extract] does with the fields of a prepared story. *)
Lemma extract_story_fields (story : PreparedStoryData) :
  (∀ k v, (k, v) ∈ extract_story story → isFunction v = false) ∧
  (∀ k v, (k, v) ∈ object_entries story → isFunction v = true →
     assoc k (extract_story story) = None) ∧
  (∀ k items, (k, JsArray items) ∈ object_entries story →
     assoc k (extract_story story) = Some (JsArray (js_sort items)) ∧
     Sorted string_le (js_sort items) ∧ js_sort items ≡ₚ items) ∧
  (∀ k v, (k, v) ∈ object_entries story → k ≠ "moduleExport" →
     isFunction v = false → (∀ items, v ≠ JsArray items) →
     assoc k (extract_story story) = Some v) ∧
  assoc "moduleExport" (extract_story story) = None ∧
  assoc "args" (extract_story story) = Some (JsObject (story_initialArgs story)) ∧
  (∀ k, is_Some (assoc k (extract_story story)) →
     k = "args" ∨ k ∈ (object_entries story).*1).
Proof.
  rewrite extract_story_eq. split_and!.
  - intros k v Hin. repeat (apply elem_of_cons in Hin as [[= -> ->]|Hin]; [done|]).
    by apply elem_of_nil in Hin.
  - intros k v Hin Hfun. unfold object_entries in Hin.
    apply elem_of_app in Hin as [Hin|Hin].
    * repeat (apply elem_of_cons in Hin as [[= -> ->]|Hin]; [done|]).
      by apply elem_of_nil in Hin.
    * destruct (story_playFunction story); [|by apply elem_of_nil in Hin].
      by apply list_elem_of_singleton in Hin as [= -> ->].
  - intros k items Hin. split; [|apply js_sort_sorted].
    unfold object_entries in Hin. apply elem_of_app in Hin as [Hin|Hin].
    * repeat (apply elem_of_cons in Hin as [Heq|Hin];
              [try discriminate Heq;
               try (by destruct (story_moduleExport story));
               try (by injection Heq as -> ->)|]).
      by apply elem_of_nil in Hin.
    * destruct (story_playFunction story); [|by apply elem_of_nil in Hin].
      by apply list_elem_of_singleton in Hin as [= -> ->].
  - intros k v Hin Hne Hfun Harr. unfold object_entries in Hin.
    apply elem_of_app in Hin as [Hin|Hin].
    * repeat (apply elem_of_cons in Hin as [[= -> ->]|Hin];
              [try done; try (by exfalso; eapply Harr)|]).
      by apply elem_of_nil in Hin.
    * destruct (story_playFunction story); [|by apply elem_of_nil in Hin].
      by apply list_elem_of_singleton in Hin as [= -> ->].
  - done.
  - done.
  - intros k [v Hk]. apply assoc_Some_elem in Hk.
    apply elem_of_cons in Hk as [[= -> ->]|Hk]; [by left|]. right.
    unfold object_entries. rewrite fmap_app. apply elem_of_app. left.
    repeat (apply elem_of_cons in Hk as [[= -> ->]|Hk];
            [simpl; set_solver|]).
    by apply elem_of_nil in Hk.
Qed.

(** C8.  [extract] prepares the story of every story entry of the index,
    in the order of the index, and no other; the entries that are docs
    entries are left out, and so is, unless [includeDocsOnly] is set, a
    story whose parameters say [docsOnly].  The result has the record of
    each of the other stories under the key of its entry, and nothing
    else.  The record of a story has no field that is a function: a field
    of the prepared story that is a function is dropped, and so is
    [moduleExport]; a field that is an array is in the record as a sorted
    copy; every other field is in the record as it is; and the record has
    no field but [args] and those of the story. *)
Theorem extract_serializable includeDocsOnly s entries cached r s' :
  storyIndex s = Some entries → cachedCSFFiles s = Some cached →
  extract includeDocsOnly s = (inr r, s') →
  (∃ prepared,
     threaded (prepare_entry cached) (story_entries entries) s prepared s' ∧
     r = fold_left (extract_put includeDocsOnly)
           (zip (story_entries entries) prepared) [] ∧
     (∀ id record, (id, record) ∈ r →
        ∃ i entry story,
          story_entries entries !! i = Some (id, entry) ∧
          prepared !! i = Some story ∧
          record = extract_story (content story) ∧
          (includeDocsOnly = false → truthy (docsOnly (content story)) = false)) ∧
     (NoDup entries.*1 →
      Forall2 (λ e story,
                 assoc e.1 r =
                 if negb includeDocsOnly && truthy (docsOnly (content story))
                 then None
                 else Some (extract_story (content story)))
        (story_entries entries) prepared)) ∧
  (NoDup entries.*1 → ∀ id entry, (id, entry) ∈ entries →
     entryType entry = DocsEntry → assoc id r = None) ∧
  (∀ id, id ∉ entries.*1 → assoc id r = None) ∧
  (∀ story : PreparedStoryData,
     (∀ k v, (k, v) ∈ extract_story story → isFunction v = false) ∧
     (∀ k v, (k, v) ∈ object_entries story → isFunction v = true →
        assoc k (extract_story story) = None) ∧
     (∀ k items, (k, JsArray items) ∈ object_entries story →
        assoc k (extract_story story) = Some (JsArray (js_sort items)) ∧
        Sorted string_le (js_sort items) ∧ js_sort items ≡ₚ items) ∧
     (∀ k v, (k, v) ∈ object_entries story → k ≠ "moduleExport" →
        isFunction v = false → (∀ items, v ≠ JsArray items) →
        assoc k (extract_story story) = Some v) ∧
     assoc "moduleExport" (extract_story story) = None ∧
     (∀ k, is_Some (assoc k (extract_story story)) →
        k = "args" ∨ k ∈ (object_entries story).*1)).
Proof.
  intros Hx Hc. unfold extract. rewrite Hx, Hc. intros He.
  apply extract_entries_threaded in He as (prepared & Hth & ->).
  pose proof (threaded_length _ _ _ _ _ Hth) as Hlen.
  destruct (extract_put_assoc includeDocsOnly (story_entries entries) prepared []
              Hlen) as [Hout Hin].
  split_and!.
  - exists prepared. split_and!; [done|done| |].
    + intros id record Hr.
      apply extract_put_elem in Hr as [Hnil|Hr]; [by apply elem_of_nil in Hnil|done].
    + intros Hnd. specialize (Hin (story_entries_NoDup _ Hnd)).
      eapply Forall2_impl; [exact Hin|]. simpl. intros e story ->.
      by destruct (_ && _).
  - intros Hnd id entry Hin' Hdocs. rewrite Hout; [done|].
    by eapply story_entries_docs.
  - intros id Hnot. rewrite Hout; [done|]. intros Hs. apply Hnot.
    apply list_elem_of_fmap in Hs as (x & -> & Hx').
    apply list_elem_of_fmap. exists x. split; [done|].
    by apply story_entries_subseteq.
  - intros story.
    destruct (extract_story_fields story) as (H1 & H2 & H3 & H4 & H5 & _ & H7).
    by split_and!.
Qed.

(** The argument values of the store play no part in preparing a story:
    with other values, the same story is prepared and the store differs in
    the argument values at most. *)
Lemma storyFromCSFFile_args storyId file a' s :
  ∃ a'', storyFromCSFFile storyId file (set_args a' s) =
         ((storyFromCSFFile storyId file s).1,
          set_args a'' (storyFromCSFFile storyId file s).2).
Proof.
  unfold storyFromCSFFile. simpl.
  destruct (projectAnnotations s) as [pa|]; [|by exists a'].
  destruct file as [csfFile|]; [|by exists a'].
  destruct (assoc storyId _) as [ann|]; [|by exists a'].
  unfold prepareStoryWithCache. simpl.
  destruct (memoize _ _ _ _ _) as [[[e|story] m] n]; simpl.
  - by exists a'.
  - by exists (args_setInitial (content story) a').
Qed.

Lemma extract_entries_args docs cached entries acc a' s :
  ∃ a'', extract_entries docs cached entries acc (set_args a' s) =
         ((extract_entries docs cached entries acc s).1,
          set_args a'' (extract_entries docs cached entries acc s).2).
Proof.
  revert acc a' s. induction entries as [|[id entry] rest IH]; intros acc a' s.
  - by exists a'.
  - cbn [extract_entries]. destruct (entryType entry); [|apply IH].
    destruct (storyFromCSFFile_args id (assoc (importPath entry) cached) a' s)
      as [a1 ->].
    destruct (storyFromCSFFile id _ s) as [[e|story] s1]; simpl; [by exists a1|].
    destruct (_ && _); apply IH.
Qed.

(** C10.  In a record of [extract] the field [args] holds the initial
    argument values of the story that [extract] prepared for the entry
    under whose key the record is, and the result of [extract] is the same
    whatever the argument values that the store holds: it does not show
    the updates of the arguments of a story. *)
Theorem extract_shows_initial_args includeDocsOnly s :
  (∀ r s', extract includeDocsOnly s = (inr r, s') →
     ∃ entries cached prepared,
       storyIndex s = Some entries ∧ cachedCSFFiles s = Some cached ∧
       threaded (prepare_entry cached) (story_entries entries) s prepared s' ∧
       (∀ id record, (id, record) ∈ r →
          ∃ i entry story,
            story_entries entries !! i = Some (id, entry) ∧
            prepared !! i = Some story ∧
            assoc "args" record
            = Some (JsObject (story_initialArgs (content story)))) ∧
       (NoDup entries.*1 →
        Forall2 (λ e story,
                   negb includeDocsOnly && truthy (docsOnly (content story)) = false →
                   ∃ record,
                     assoc e.1 r = Some record ∧
                     assoc "args" record
                     = Some (JsObject (story_initialArgs (content story))))
          (story_entries entries) prepared)) ∧
  (∀ a', (extract includeDocsOnly (set_args a' s)).1 = (extract includeDocsOnly s).1) ∧
  (∀ storyId partial,
     (extract includeDocsOnly
        (set_args (args_update storyId partial (args s)) s)).1 =
     (extract includeDocsOnly s).1).
Proof.
  assert (Hany : ∀ a', (extract includeDocsOnly (set_args a' s)).1 =
                       (extract includeDocsOnly s).1).
  { intros a'. unfold extract. simpl.
    destruct (storyIndex s) as [entries|]; [|done].
    destruct (cachedCSFFiles s) as [cached|]; [|done].
    by destruct (extract_entries_args includeDocsOnly cached entries [] a' s) as [a'' ->]. }
  split_and!; [|exact Hany|intros; apply Hany].
  intros r s' He. unfold extract in He.
  destruct (storyIndex s) as [entries|]; [|done].
  destruct (cachedCSFFiles s) as [cached|]; [|done].
  apply extract_entries_threaded in He as (prepared & Hth & ->).
  exists entries, cached, prepared. split_and!; [done..| |].
  - intros id record Hr.
    apply extract_put_elem in Hr as [Hnil|(i & entry & story & Hi & Hp & -> & _)];
      [by apply elem_of_nil in Hnil|].
    exists i, entry, story. split_and!; [done..|].
    apply (extract_story_fields (content story)).
  - intros Hnd. pose proof (threaded_length _ _ _ _ _ Hth) as Hlen.
    destruct (extract_put_assoc includeDocsOnly (story_entries entries) prepared []
                Hlen) as [_ Hin].
    specialize (Hin (story_entries_NoDup _ Hnd)).
    eapply Forall2_impl; [exact Hin|]. simpl. intros e story -> ->.
    eexists. split; [done|]. apply (extract_story_fields (content story)).
Qed.
End Extract.

(** * More properties of the store *)

(** ** What loading and preparing leave alone *)

Section Frames.
Context `{csf : CsfModule}.
Implicit Types s : StoryStore.

Lemma loads_only_refl s : loads_only s s.
Proof. by repeat split. Qed.

Lemma loads_only_trans s1 s2 s3 :
  loads_only s1 s2 → loads_only s2 s3 → loads_only s1 s3.
Proof.
  intros (A1 & A2 & A3 & A4 & A5 & A6 & A7 & A8) (B1 & B2 & B3 & B4 & B5 & B6 & B7 & B8).
  unfold loads_only. split_and!; congruence.
Qed.

Lemma prepares_only_refl s : prepares_only s s.
Proof. by repeat split. Qed.

Lemma prepares_only_trans s1 s2 s3 :
  prepares_only s1 s2 → prepares_only s2 s3 → prepares_only s1 s3.
Proof.
  intros (A1 & A2 & A3 & A4 & A5 & A6 & A7 & A8 & A9)
         (B1 & B2 & B3 & B4 & B5 & B6 & B7 & B8 & B9).
  unfold prepares_only. split_and!; congruence.
Qed.

Lemma settle_loads job s :
  loads_only s (settle job s).2 ∧
  cachedCSFFiles (settle job s).2 = cachedCSFFiles s.
Proof.
  unfold settle. destruct (job_loaded job) as [e|m]; [by repeat split|].
  unfold processCSFFileWithCache.
  by destruct (memoize _ _ _ _ _) as [[r0 m0] n0].
Qed.

Lemma issue_loads batch s :
  loads_only s (issue batch s).2 ∧
  cachedCSFFiles (issue batch s).2 = cachedCSFFiles s.
Proof.
  destruct (issue batch s) as [[jobs thrown] s1] eqn:Hi.
  apply issue_spec in Hi as (-> & _). by repeat split.
Qed.

Lemma settle_all_loads order a s :
  loads_only s (settle_all order a s).2 ∧
  cachedCSFFiles (settle_all order a s).2 = cachedCSFFiles s.
Proof.
  revert a s. induction order as [|[idx [path job]] rest IH]; intros a s; simpl.
  - by repeat split.
  - destruct (settle_loads job s) as [H1 H1'].
    destruct (settle job s) as [[e|file] s1]; simpl in *.
    + destruct (IH (all_reject e a) s1) as [H2 H2']. split; [|congruence].
      by eapply loads_only_trans.
    + destruct (IH (all_resolve idx (path, file) a) s1) as [H2 H2'].
      split; [|congruence]. by eapply loads_only_trans.
Qed.

Lemma loadInBatches_loads depth batchSize remaining s :
  loads_only s (loadInBatches depth batchSize remaining s).2 ∧
  cachedCSFFiles (loadInBatches depth batchSize remaining s).2 = cachedCSFFiles s.
Proof.
  revert remaining s. induction depth as [|depth IH]; intros remaining s.
  - destruct remaining; simpl; by repeat split.
  - destruct remaining as [|x remaining]; [simpl; by repeat split|].
    cbn [loadInBatches].
    destruct (issue_loads (take batchSize (x :: remaining)) s) as [H1 H1'].
    destruct (issue _ s) as [[jobs thrown] s1]. simpl in H1, H1'.
    destruct (settle_all_loads (completion_order jobs) (all_init (length jobs)) s1)
      as [H2 H2'].
    destruct (settle_all _ _ s1) as [a s2]. simpl in H2, H2'.
    assert (H12 : loads_only s s2) by (by eapply loads_only_trans).
    destruct thrown as [e|]; [simpl; split; [done|congruence]|].
    destruct (all_promise _ a) as [firstResults|e|];
      try (simpl; split; [done|congruence]).
    destruct (IH (drop batchSize (x :: remaining)) s2) as [H3 H3'].
    destruct (loadInBatches depth batchSize _ s2) as [[e|[restResults|e|]] s3];
      simpl in *; (split; [by eapply loads_only_trans|congruence]).
Qed.

Lemma loadAllCSFFiles_loads batchSize s :
  loads_only s (loadAllCSFFiles batchSize s).2 ∧
  cachedCSFFiles (loadAllCSFFiles batchSize s).2 = cachedCSFFiles s.
Proof.
  unfold loadAllCSFFiles. destruct (storyIndex s) as [entries|]; [|by repeat split].
  pose proof (loadInBatches_loads (length (importPaths entries)) batchSize
                (importPaths entries) s) as H.
  by destruct (loadInBatches _ _ _ s) as [[e|[l|e|]] s1].
Qed.

Lemma cacheAllCSFFiles_now_loads s : loads_only s (cacheAllCSFFiles_now s).2.
Proof.
  unfold cacheAllCSFFiles_now.
  destruct (loadAllCSFFiles_loads EXTRACT_BATCH_SIZE s) as [H _].
  by destruct (loadAllCSFFiles _ s) as [[e|[l|e|]] s1].
Qed.

Lemma storyFromCSFFile_prepares storyId file s :
  prepares_only s (storyFromCSFFile storyId file s).2.
Proof.
  unfold storyFromCSFFile.
  destruct (projectAnnotations s) as [pa|] eqn:Hpa; [|by repeat split].
  destruct file as [csfFile|]; [|by repeat split].
  destruct (assoc storyId _) as [ann|]; [|by repeat split].
  unfold prepareStoryWithCache.
  destruct (memoize _ _ _ _ _) as [[[e|story] m] n]; simpl; by repeat split.
Qed.

Lemma storiesFromCSFFile_prepares ids file s :
  prepares_only s (storiesFromCSFFile ids file s).2.
Proof.
  revert s. induction ids as [|id ids IH]; intros s; simpl;
    [apply prepares_only_refl|].
  pose proof (storyFromCSFFile_prepares id (Some file) s) as H1.
  destruct (storyFromCSFFile id (Some file) s) as [[e|story] s1]; [done|].
  pose proof (IH s1) as H2.
  destruct (storiesFromCSFFile ids file s1) as [[e|stories] s2];
    by eapply prepares_only_trans.
Qed.

Lemma extract_entries_prepares docs cached entries acc s :
  prepares_only s (extract_entries docs cached entries acc s).2.
Proof.
  revert acc s. induction entries as [|[id entry] rest IH]; intros acc s; simpl;
    [apply prepares_only_refl|].
  destruct (entryType entry); [|apply IH].
  pose proof (storyFromCSFFile_prepares id (assoc (importPath entry) cached) s) as H1.
  destruct (storyFromCSFFile id _ s) as [[e|story] s1]; [done|]. simpl in H1.
  destruct (_ && _); (eapply prepares_only_trans; [exact H1|apply IH]).
Qed.

Lemma extract_prepares docs s : prepares_only s (extract docs s).2.
Proof.
  unfold extract. destruct (storyIndex s); [|apply prepares_only_refl].
  destruct (cachedCSFFiles s); [|apply prepares_only_refl].
  apply extract_entries_prepares.
Qed.

Lemma fromId_prepares storyId s : prepares_only s (fromId storyId s).2.
Proof.
  unfold fromId. destruct (storyIndex s) as [entries|]; [|apply prepares_only_refl].
  destruct (cachedCSFFiles s) as [cached|]; [|apply prepares_only_refl].
  destruct (storyIdToEntry entries storyId) as [e|entry]; [apply prepares_only_refl|].
  pose proof (storyFromCSFFile_prepares storyId (assoc (importPath entry) cached) s) as H.
  by destruct (storyFromCSFFile storyId _ s) as [[e|story] s1].
Qed.

Lemma componentStoriesFromCSFFile_prepares file s :
  prepares_only s (componentStoriesFromCSFFile file s).2.
Proof.
  unfold componentStoriesFromCSFFile.
  destruct (storyIndex s); [|apply prepares_only_refl].
  apply storiesFromCSFFile_prepares.
Qed.

Lemma getSetIndexPayload_prepares s : prepares_only s (getSetIndexPayload s).2.
Proof.
  unfold getSetIndexPayload. destruct (storyIndex s); [|apply prepares_only_refl].
  pose proof (extract_prepares true s) as H.
  destruct (extract true s) as [[e|stories] s1]; [done|].
  by destruct (storyIndex s1).
Qed.

Lemma raw_stories_prepares records s : prepares_only s (raw_stories records s).2.
Proof.
  revert s. induction records as [|record rest IH]; intros s; simpl;
    [apply prepares_only_refl|].
  assert (H1 : prepares_only s (fromId_of_record record s).2).
  { unfold fromId_of_record.
    destruct (js_field "id" record); try apply prepares_only_refl.
    apply fromId_prepares. }
  destruct (fromId_of_record record s) as [[e|found] s1]; [done|].
  pose proof (IH s1) as H2.
  destruct (raw_stories rest s1) as [[e|stories] s2];
    by eapply prepares_only_trans.
Qed.

Lemma raw_prepares s : prepares_only s (raw s).2.
Proof.
  unfold raw. pose proof (extract_prepares false s) as H1.
  destruct (extract false s) as [[e|records] s1]; [done|].
  eapply prepares_only_trans; [exact H1|apply raw_stories_prepares].
Qed.

(** X1.  Loading modules never prepares a story: [loadAllCSFFiles], for
    every batch size, the load of one entry and [cacheAllCSFFiles] leave the
    index, the loader, the project annotations, the cache of prepared
    stories, the argument values and the hooks as they are; the first two
    leave the cached CSF files too. *)
Theorem loading_prepares_nothing s :
  (∀ batchSize,
     loads_only s (loadAllCSFFiles batchSize s).2 ∧
     cachedCSFFiles (loadAllCSFFiles batchSize s).2 = cachedCSFFiles s) ∧
  (∀ storyId,
     match loadCSFFileByStoryId storyId s with
     | inl _ => True
     | inr (job, s1) =>
         loads_only s (settle job s1).2 ∧
         cachedCSFFiles (settle job s1).2 = cachedCSFFiles s
     end) ∧
  loads_only s (cacheAllCSFFiles_now s).2.
Proof.
  split_and!.
  - intros batchSize. apply loadAllCSFFiles_loads.
  - intros storyId.
    destruct (loadCSFFileByStoryId storyId s) as [e|[job s1]] eqn:Hl; [done|].
    apply loadCSFFileByStoryId_spec in Hl as (entries & f & entry & _ & _ & _ & _ & ->).
    destruct (settle_loads job (set_imports
                (imports s ++ [import_of (clock s) (importPath entry, job)]) s))
      as [H1 H2]. split; [|done].
    eapply loads_only_trans; [|exact H1]. by repeat split.
  - apply cacheAllCSFFiles_now_loads.
Qed.

(** X2.  The views never load a module: [storyFromCSFFile],
    [componentStoriesFromCSFFile], [extract], [fromId] and
    [getSetIndexPayload] leave the index, the loader, the project
    annotations, the cached CSF files, the cache of CSF files, the clock
    and the log of the calls of the loader as they are, whether they return
    or throw. *)
Theorem views_load_nothing s :
  (∀ storyId file, prepares_only s (storyFromCSFFile storyId file s).2) ∧
  (∀ file, prepares_only s (componentStoriesFromCSFFile file s).2) ∧
  (∀ includeDocsOnly, prepares_only s (extract includeDocsOnly s).2) ∧
  (∀ storyId, prepares_only s (fromId storyId s).2) ∧
  prepares_only s (getSetIndexPayload s).2.
Proof.
  split_and!.
  - intros. apply storyFromCSFFile_prepares.
  - intros. apply componentStoriesFromCSFFile_prepares.
  - intros. apply extract_prepares.
  - intros. apply fromId_prepares.
  - apply getSetIndexPayload_prepares.
Qed.
End Frames.

(** ** Preparing the stories of a file *)

Section Preparing.
Context `{csf : CsfModule}.
Implicit Types s : StoryStore.

Lemma memoize_inl {K C} `{EqDecision K} limit (k : K) fn (m : Memoized K C)
    next e m' next' :
  memoize limit k fn m next = (inl e, m', next') → m' = m ∧ next' = next.
Proof.
  unfold memoize. destruct (assoc k (lru m)); [done|].
  destruct fn; [|done]. by intros [= <- <-].
Qed.

Lemma prepareStoryWithCache_inl file storyId ann pa s e s' :
  prepareStoryWithCache file storyId ann pa s = (inl e, s') → s' = s.
Proof.
  unfold prepareStoryWithCache.
  destruct (memoize _ _ _ _ _) as [[r m] n] eqn:Hm. intros [= -> <-].
  apply memoize_inl in Hm as [-> ->]. by destruct s.
Qed.

Lemma storyFromCSFFile_inl storyId file s e s' :
  storyFromCSFFile storyId file s = (inl e, s') → s' = s.
Proof.
  unfold storyFromCSFFile.
  destruct (projectAnnotations s) as [pa|]; [|by intros [= _ <-]].
  destruct file as [csfFile|]; [|by intros [= _ <-]].
  destruct (assoc storyId _) as [ann|]; [|by intros [= _ <-]].
  destruct (prepareStoryWithCache _ _ _ _ s) as [[e0|story] s0] eqn:Hp; [|done].
  intros [= _ <-]. by apply prepareStoryWithCache_inl in Hp.
Qed.

(** X3.  A call of [storyFromCSFFile] that throws leaves the store as it
    was: nothing is cached, no argument value is seeded and no hooks are
    made.  It throws for want of project annotations before it looks at
    the file, and for an identifier that is not a story of the file.  A
    call that returns has seeded the argument values of the story with its
    initial ones unless the story had some, has hooks for it, keeps the
    values and the hooks of the other stories, and has the story in the
    cache. *)
Theorem storyFromCSFFile_effects storyId file s :
  (∀ e s', storyFromCSFFile storyId file s = (inl e, s') → s' = s) ∧
  (projectAnnotations s = None →
     storyFromCSFFile storyId file s = (inl (NotInitialized "storyFromCSFFile"), s)) ∧
  (∀ csfFile, is_Some (projectAnnotations s) → file = Some csfFile →
     assoc storyId (stories (content csfFile)) = None →
     storyFromCSFFile storyId file s = (inl (StoryNotInCSFFile storyId), s)) ∧
  (∀ story s', storyFromCSFFile storyId file s = (inr story, s') →
     let id := story_id (content story) in
     args s' !! id =
       Some (default (story_initialArgs (content story)) (args s !! id)) ∧
     (∀ other, other ≠ id → args s' !! other = args s !! other) ∧
     hooks s' = {[ id ]} ∪ hooks s ∧
     ∃ pa csfFile, projectAnnotations s = Some pa ∧ file = Some csfFile ∧
       assoc ((ref csfFile, storyId), ref csfFile, ref pa) (lru (storyCache s'))
       = Some story).
Proof.
  split_and!.
  - intros e s'. apply storyFromCSFFile_inl.
  - unfold storyFromCSFFile. by intros ->.
  - intros csfFile [pa Hpa] -> Hnone. unfold storyFromCSFFile. by rewrite Hpa, Hnone.
  - intros story s' Hf.
    apply storyFromCSFFile_inr in Hf as (pa & csfFile & ann & s0 & Hpa & -> & Hann & Hp & ->).
    unfold prepareStoryWithCache in Hp.
    destruct (memoize _ _ _ _ _) as [[r m] n] eqn:Hm. injection Hp as -> <-.
    simpl. split_and!.
    + unfold args_setInitial.
      destruct (args s !! story_id (content story)) as [x|] eqn:Ha; simpl.
      * done.
      * apply lookup_insert_eq.
    + intros other Hne. unfold args_setInitial.
      destruct (args s !! story_id (content story)); [done|].
      by rewrite lookup_insert_ne.
    + done.
    + exists pa, csfFile. split_and!; [done..|]. by eapply memoize_cached.
Qed.

Lemma storiesFromCSFFile_threaded ids file s prepared s' :
  storiesFromCSFFile ids file s = (inr prepared, s') →
  threaded (λ storyId, storyFromCSFFile storyId (Some file)) ids s prepared s'.
Proof.
  revert s prepared. induction ids as [|id ids IH]; intros s prepared; simpl.
  - intros [= <- <-]. constructor.
  - destruct (storyFromCSFFile id (Some file) s) as [[e|story] s1] eqn:Hf; [done|].
    destruct (storiesFromCSFFile ids file s1) as [[e|rest] s2] eqn:Hr; [done|].
    intros [= <- <-].
    apply (threaded_cons (λ storyId, storyFromCSFFile storyId (Some file))
             id _ s story s1); [done|]. by apply IH.
Qed.

(** X4.  [componentStoriesFromCSFFile] throws before the initialization.
    Otherwise, when it returns, it has called [storyFromCSFFile] for each
    key of the index that is a story of the file, in the order of the
    index and each call on the store that the call before left, and it
    gives the stories that these calls gave, in that order; a story of the
    file whose identifier the index does not have is left out, and with no
    common identifier the result is empty and the store untouched. *)
Theorem componentStoriesFromCSFFile_follows_index file s :
  (storyIndex s = None →
     componentStoriesFromCSFFile file s =
     (inl (NotInitialized "componentStoriesFromCSFFile"), s)) ∧
  (∀ entries prepared s',
     storyIndex s = Some entries →
     componentStoriesFromCSFFile file s = (inr prepared, s') →
     threaded (λ storyId, storyFromCSFFile storyId (Some file))
       (filter (λ storyId, is_Some (assoc storyId (stories (content file))))
          entries.*1)
       s prepared s' ∧
     Forall (λ storyId, storyId ∈ entries.*1 ∧
                        is_Some (assoc storyId (stories (content file))))
       (filter (λ storyId, is_Some (assoc storyId (stories (content file))))
          entries.*1)) ∧
  (∀ entries,
     storyIndex s = Some entries →
     (∀ storyId, storyId ∈ entries.*1 →
        assoc storyId (stories (content file)) = None) →
     componentStoriesFromCSFFile file s = (inr [], s)).
Proof.
  unfold componentStoriesFromCSFFile. split_and!.
  - by intros ->.
  - intros entries prepared s' -> Hc. split.
    + by apply storiesFromCSFFile_threaded.
    + apply Forall_forall. intros storyId Hin.
      apply list_elem_of_filter in Hin as [? ?]. by split.
  - intros entries -> Hnone.
    replace (filter _ entries.*1) with (@nil StoryId); [done|].
    symmetry. induction entries.*1 as [|id ids IH]; [done|].
    rewrite filter_cons_False.
    + apply IH. intros storyId Hin. apply Hnone. by apply list_elem_of_further.
    + rewrite (Hnone id); [by intros [? ?]|apply list_elem_of_here].
Qed.
End Preparing.

(** ** Caching the CSF files and loading stories *)

Section Caching.
Context `{csf : CsfModule}.
Implicit Types s : StoryStore.

Lemma insertion_order_from (paths acc : list Path) :
  let r := fold_left (λ acc p, if decide (p ∈ acc) then acc else acc ++ [p]) paths acc in
  (∀ x, x ∈ r ↔ x ∈ acc ∨ x ∈ paths) ∧ (NoDup acc → NoDup r).
Proof.
  revert acc. induction paths as [|p paths IH]; intros acc; simpl.
  - split; [|done]. intros x. split; [by left|]. intros [?|Hin]; [done|].
    by apply elem_of_nil in Hin.
  - destruct (IH (if decide (p ∈ acc) then acc else acc ++ [p])) as [Hin Hnd].
    split.
    + intros x. rewrite Hin, elem_of_cons. case_decide as Hp.
      * split; [intros [?|?]; auto|]. intros [?|[->|?]]; auto.
      * rewrite elem_of_app, list_elem_of_singleton. tauto.
    + intros Hacc. apply Hnd. case_decide as Hp; [done|].
      apply NoDup_app. split_and!; [done| |apply NoDup_singleton].
      intros x Hx Hx'. apply list_elem_of_singleton in Hx' as ->. done.
Qed.

Lemma elem_of_insertion_order paths x : x ∈ insertion_order paths ↔ x ∈ paths.
Proof.
  destruct (insertion_order_from paths []) as [Hin _]. unfold insertion_order.
  rewrite Hin. split; [intros [Hnil|?]; [by apply elem_of_nil in Hnil|done]|by right].
Qed.

Lemma NoDup_insertion_order paths : NoDup (insertion_order paths).
Proof.
  destruct (insertion_order_from paths []) as [_ Hnd]. apply Hnd, NoDup_nil_2.
Qed.

(** The files of a fulfilled [loadAllCSFFiles]. *)
Lemma loadAllCSFFiles_covers batchSize s entries f files s1 :
  storyIndex s = Some entries → importFn s = Some f → NoDup entries.*1 →
  0 < batchSize →
  loadAllCSFFiles batchSize s = (inr (Fulfilled files), s1) →
  storyIndex s1 = Some entries ∧
  files.*1 = insertion_order ((λ e, importPath e.2) <$> entries) ∧
  NoDup files.*1 ∧
  ∀ storyId entry, (storyId, entry) ∈ entries →
    is_Some (assoc (importPath entry) files).
Proof.
  intros Hx Hf Hnd Hpos Hload.
  destruct (loadAllCSFFiles_loads batchSize s) as [(Hx1 & _) _].
  rewrite Hload in Hx1. simpl in Hx1.
  destruct (loadAllCSFFiles_log _ _ _ _ _ _ Hx Hf Hnd Hpos Hload)
    as (new & _ & _ & _ & Hful).
  destruct (Hful files eq_refl) as (_ & Hkeys & _).
  split_and!; [congruence | done | |].
  - rewrite Hkeys. apply NoDup_insertion_order.
  - intros storyId entry Hin.
    destruct (assoc (importPath entry) files) as [file|] eqn:Ha; [by eexists|].
    exfalso. apply assoc_None in Ha. apply Ha. rewrite Hkeys.
    apply elem_of_insertion_order. apply list_elem_of_fmap.
    by exists (storyId, entry).
Qed.

(** X5.  When [cacheAllCSFFiles] is fulfilled, [cachedCSFFiles] has a file
    under the import path of every entry of the index, each path once and
    in the order of the index, so that [extract] and [fromId] find a file
    for every entry; when it is not fulfilled, [cachedCSFFiles] is left as
    it was. *)
Theorem cacheAllCSFFiles_covers_index s entries f p s' :
  storyIndex s = Some entries → importFn s = Some f → NoDup entries.*1 →
  cacheAllCSFFiles_now s = (p, s') →
  (p = Fulfilled VVoid →
     storyIndex s' = Some entries ∧
     ∃ files, cachedCSFFiles s' = Some files ∧
       files.*1 = insertion_order ((λ e, importPath e.2) <$> entries) ∧
       NoDup files.*1 ∧
       ∀ storyId entry, (storyId, entry) ∈ entries →
         is_Some (assoc (importPath entry) files)) ∧
  (p ≠ Fulfilled VVoid → cachedCSFFiles s' = cachedCSFFiles s).
Proof.
  intros Hx Hf Hnd. unfold cacheAllCSFFiles_now.
  destruct (loadAllCSFFiles_loads EXTRACT_BATCH_SIZE s) as [_ Hc].
  destruct (loadAllCSFFiles EXTRACT_BATCH_SIZE s) as [r s1] eqn:Hload.
  simpl in Hc.
  assert (Hpos : 0 < EXTRACT_BATCH_SIZE) by (unfold EXTRACT_BATCH_SIZE; lia).
  destruct r as [e|[files|e|]]; intros [= <- <-]; (split; [|done]); try done.
  intros _.
  destruct (loadAllCSFFiles_covers _ _ _ _ _ _ Hx Hf Hnd Hpos Hload)
    as (Hx1 & Hkeys & Hnd' & Hall).
  split; [done|]. by exists files.
Qed.

Lemma processCSFFileWithCache_again m path title s file s0 s2 :
  processCSFFileWithCache m path title s = (inr file, s0) →
  csfCache s2 = csfCache s0 →
  ∃ c, processCSFFileWithCache m path title s2 =
         (inr file, set_nextRef (nextRef s2) (set_csfCache c s2)) ∧
       wasMemoized c = true.
Proof.
  unfold processCSFFileWithCache. intros Hp Hc.
  destruct (memoize CSF_CACHE_SIZE (ref m, path, title)
              (processCSFFile (content m) path title) (csfCache s) (nextRef s))
    as [[r m0] n0] eqn:Hm.
  injection Hp as -> <-. simpl in Hc.
  apply memoize_cached in Hm. rewrite Hc.
  destruct (memoize_hit CSF_CACHE_SIZE _ (processCSFFile (content m) path title)
              m0 (nextRef s2) _ Hm) as (c & -> & Hwas).
  by exists c.
Qed.

(** X6.  [loadStory] gives the same object for the same story, when the
    loader gives the same module: when a call is fulfilled with a story and
    the loader, called again for the import path of the story, gives what
    it gave the first time, the next call for the same identifier is
    fulfilled with the very same prepared story, both the CSF file and the
    story coming from the caches, without a new object being made. *)
Theorem loadStory_twice_same_story storyId s story s1 :
  initialized s = true →
  loadStory storyId s = (Fulfilled (VStory story), s1) →
  (∀ f entries entry,
     importFn s = Some f → storyIndex s = Some entries →
     storyIdToEntry entries storyId = inr entry →
     loaded (f (imports s1) (importPath entry))
       = loaded (f (imports s) (importPath entry))) →
  ∃ s2, loadStory storyId s1 = (Fulfilled (VStory story), s2) ∧
        nextRef s2 = nextRef s1 ∧
        wasMemoized (csfCache s2) = true ∧
        wasMemoized (storyCache s2) = true.
Proof.
  intros Hi Hload Hsame. unfold loadStory in *.
  rewrite gated_initialized in Hload by done. cbn [resume] in Hload.
  unfold loadStory_now in Hload.
  destruct (loadCSFFileByStoryId storyId s) as [e|[job sa]] eqn:Hl; [done|].
  apply loadCSFFileByStoryId_spec in Hl
    as (entries & f & entry & Hx & Hf & He & Hjob & ->).
  destruct (settle job _) as [[e|file] sb] eqn:Hs; [done|].
  destruct (storyFromCSFFile storyId (Some file) sb) as [[e|story0] sc] eqn:Hsf;
    [done|].
  injection Hload as -> ->. specialize (Hsame f entries entry Hf Hx He).
  pose proof (settle_spec _ _ _ _ Hs) as (_ & _ & Hxb & Hfb & _ & _ & _ & Hpb).
  simpl in Hxb, Hfb, Hpb.
  pose proof (settle_loads job (set_imports
    (imports s ++ [import_of (clock s) (importPath entry, job)]) s)) as [Hlo _].
  rewrite Hs in Hlo. destruct Hlo as (_ & _ & _ & _ & _ & _ & Hib & _).
  simpl in Hib.
  pose proof (storyFromCSFFile_prepares storyId (Some file) sb) as Hprep.
  rewrite Hsf in Hprep. simpl in Hprep.
  destruct Hprep as (Hx1 & Hf1 & Hp1 & _ & Hc1 & _ & _ & Hi1 & _).
  apply storyFromCSFFile_inr in Hsf
    as (pa & file' & ann & s0 & Hpa & [= <-] & Hann & Hp & Hs1).
  unfold settle in Hs. rewrite Hjob in Hs. simpl in Hs.
  destruct (loaded (f (imports s) (importPath entry))) as [e|m] eqn:Hloaded;
    [done|].
  rewrite gated_initialized by congruence.
  cbn [resume]. unfold loadStory_now, loadCSFFileByStoryId.
  rewrite Hx1, Hxb, Hx, Hf1, Hfb, Hf, He. cbn zeta. unfold settle.
  cbn [job_loaded job_importPath job_title job_settles]. rewrite Hsame.
  edestruct (processCSFFileWithCache_again m (importPath entry) (entryTitle entry))
    as (c & -> & Hwas); [exact Hs| |].
  { simpl. exact Hc1. }
  unfold storyFromCSFFile. simpl. rewrite Hp1, Hpa, Hann.
  edestruct (prepareStoryWithCache_again file storyId ann pa sb story s0)
    as (c' & -> & Hwas'); [exact Hp| | |].
  { simpl. by rewrite Hs1. }
  { simpl. by rewrite Hs1. }
  simpl. eexists. split_and!; [done| |done|done]. by rewrite Hs1.
Qed.
End Caching.

(** ** The records of [extract] and the payload of the index *)

Section Payload.
Context `{csf : CsfModule}.
Implicit Types s : StoryStore.

Lemma assign_fresh_keys {V} (k : StoryId) (v : V) (l : list (StoryId * V)) :
  k ∉ l.*1 → assign k v l = l ++ [(k, v)].
Proof.
  induction l as [|[k' v'] l IH]; [done|]. cbn [assign]. rewrite fmap_cons.
  cbn [fst]. rewrite not_elem_of_cons. intros [Hne Hnot].
  destruct (decide (k' = k)); [congruence|]. by rewrite IH.
Qed.

Lemma fromEntries_from {V} (l acc : list (StoryId * V)) :
  NoDup (acc.*1 ++ l.*1) →
  fold_left (λ acc e, assign e.1 e.2 acc) l acc = acc ++ l.
Proof.
  revert acc. induction l as [|[k v] l IH]; intros acc Hnd; simpl.
  - by rewrite app_nil_r.
  - rewrite fmap_cons in Hnd. cbn [fst] in Hnd.
    rewrite assign_fresh_keys.
    + rewrite IH; [by rewrite <- app_assoc|].
      by rewrite fmap_app, <- app_assoc.
    + apply NoDup_app in Hnd as (_ & Hdis & _). intros Hin.
      apply (Hdis k Hin). apply list_elem_of_here.
Qed.

Lemma fromEntries_NoDup {V} (l : list (StoryId * V)) :
  NoDup l.*1 → fromEntries l = l.
Proof. intros Hnd. unfold fromEntries. by rewrite fromEntries_from. Qed.

(** The keys that the outer loop of [extract] adds. *)
Lemma extract_entries_keys docs cached entries acc s r s' :
  NoDup (acc.*1 ++ entries.*1) →
  extract_entries docs cached entries acc s = (inr r, s') →
  ∃ new, r.*1 = acc.*1 ++ new ∧ new `sublist_of` entries.*1 ∧
    (docs = true →
       new = (filter (λ e, entryType e.2 = StoryEntry) entries).*1).
Proof.
  revert acc s. induction entries as [|[id entry] rest IH]; intros acc s Hnd.
  - simpl. intros [= <- <-]. exists []. by rewrite app_nil_r.
  - cbn [extract_entries]. rewrite fmap_cons in Hnd. cbn [fst] in Hnd.
    assert (Hnd' : NoDup (acc.*1 ++ rest.*1)).
    { apply NoDup_app in Hnd as (Ha & Hdis & Hr). apply NoDup_cons in Hr as [_ Hr].
      apply NoDup_app. split_and!; [done| |done].
      intros x Hx Hx'. apply (Hdis x Hx). by apply list_elem_of_further. }
    assert (Hskip : ∀ s1, extract_entries docs cached rest acc s1 = (inr r, s') →
      (docs = true → entryType entry = DocsEntry) →
      ∃ new, r.*1 = acc.*1 ++ new ∧ new `sublist_of` (id :: rest.*1) ∧
        (docs = true →
           new = (filter (λ e, entryType e.2 = StoryEntry) ((id, entry) :: rest)).*1)).
    { intros s1 Hr Hd. destruct (IH _ _ Hnd' Hr) as (new & Hk & Hsub & Hall).
      exists new. split_and!; [done|by apply sublist_cons|].
      intros ->. rewrite filter_cons_False; [by apply Hall|].
      simpl. by rewrite Hd. }
    destruct (entryType entry) eqn:Hty; [|intros Hr; by apply (Hskip _ Hr)].
    destruct (storyFromCSFFile id _ s) as [[e|story] s1]; [done|].
    destruct (negb docs && truthy (docsOnly (content story))) eqn:Hhide.
    { intros Hr. apply (Hskip _ Hr). intros ->. done. }
    intros Hr.
    assert (Hfresh : id ∉ acc.*1).
    { apply NoDup_app in Hnd as (_ & Hdis & _). intros Hin.
      apply (Hdis id Hin). apply list_elem_of_here. }
    rewrite assign_fresh_keys in Hr by done.
    apply IH in Hr as (new & Hk & Hsub & Hall).
    + exists (id :: new). rewrite Hk, fmap_app, <- app_assoc. simpl.
      split_and!; [done|by apply sublist_skip|].
      intros Hd. rewrite filter_cons_True by done. rewrite fmap_cons.
      by rewrite <- Hall.
    + rewrite fmap_app, <- app_assoc. simpl. done.
Qed.

(** X7.  The keys of the result of [extract] follow the index: they are
    identifiers of the index, each once, in the order of the index, and
    with [includeDocsOnly] they are exactly the identifiers of the entries
    of type story. *)
Theorem extract_keys_follow_index docs s entries records s' :
  storyIndex s = Some entries → NoDup entries.*1 →
  extract docs s = (inr records, s') →
  records.*1 `sublist_of` entries.*1 ∧ NoDup records.*1 ∧
  (docs = true →
     records.*1 = (filter (λ e, entryType e.2 = StoryEntry) entries).*1).
Proof.
  intros Hx Hnd. unfold extract. rewrite Hx.
  destruct (cachedCSFFiles s) as [cached|]; [|done]. intros Hr.
  apply extract_entries_keys in Hr as (new & Hk & Hsub & Hall); [|done].
  simpl in Hk. rewrite Hk. split_and!; [done| |done].
  by eapply sublist_NoDup.
Qed.

(** X8.  [getSetIndexPayload] throws its own error before the
    initialization and the error of [extract] before [cacheAllCSFFiles].
    Otherwise it prepares the stories of the story entries of the index,
    as [extract] does, and its result has one entry for each entry of the
    index, under the same identifier and in the same order: a docs entry
    is passed as it is, and the entry of a story gets the initial args (as
    [args] and as [initialArgs]), the arg types and the parameters of the
    story that was prepared for it. *)
Theorem getSetIndexPayload_follows_index s :
  (storyIndex s = None →
     getSetIndexPayload s = (inl (NotInitialized "getSetIndexPayload"), s)) ∧
  (is_Some (storyIndex s) → cachedCSFFiles s = None →
     getSetIndexPayload s = (inl (CacheNotReady "extract()"), s)) ∧
  (∀ entries cached payload s',
     storyIndex s = Some entries → cachedCSFFiles s = Some cached →
     NoDup entries.*1 →
     getSetIndexPayload s = (inr payload, s') →
     ∃ prepared,
       threaded (prepare_entry cached) (story_entries entries) s prepared s' ∧
       Forall2 (λ e p,
                  p.1 = e.1 ∧ p.2.1 = e.2 ∧
                  (entryType e.2 = DocsEntry → p.2.2 = None))
         entries payload ∧
       Forall2 (λ e story,
                  assoc e.1 payload =
                  Some (e.2,
                        Some (mkPreparedFields
                                (JsObject (story_initialArgs (content story)))
                                (JsObject (story_initialArgs (content story)))
                                (JsObject (story_argTypes (content story)))
                                (JsObject (story_parameters (content story))))))
         (story_entries entries) prepared).
Proof.
  unfold getSetIndexPayload. split_and!.
  - by intros ->.
  - intros [entries Hx] Hc. rewrite Hx. unfold extract. by rewrite Hx, Hc.
  - intros entries cached payload s' Hx Hc Hnd. rewrite Hx.
    pose proof (extract_prepares true s) as (Hx1 & _).
    destruct (extract true s) as [[e|stories] s1] eqn:Hex; [done|].
    simpl in Hx1. rewrite Hx1, Hx. intros [= <- <-].
    unfold extract in Hex. rewrite Hx, Hc in Hex.
    apply extract_entries_threaded in Hex as (prepared & Hth & ->).
    pose proof (threaded_length _ _ _ _ _ Hth) as Hlen.
    destruct (extract_put_assoc true (story_entries entries) prepared [] Hlen)
      as [Hout Hin].
    specialize (Hin (story_entries_NoDup _ Hnd)).
    rewrite fromEntries_NoDup by (by rewrite <- list_fmap_compose).
    set (stories := fold_left _ _ _) in *.
    exists prepared. split_and!; [done| |].
    + apply Forall2_fmap_r, Forall2_same_length_lookup_2; [done|].
      intros i e e' He He'. rewrite He in He'. injection He' as <-.
      apply list_elem_of_lookup_2 in He.
      destruct e as [id entry]. simpl. split_and!; [done|done|].
      intros Hdocs. rewrite Hout; [done|]. by eapply story_entries_docs.
    + apply Forall2_same_length_lookup_2; [by eapply Forall2_length|].
      intros i e story He Hst.
      pose proof (Forall2_lookup_lr _ _ _ _ _ _ Hin He Hst) as Hr. simpl in Hr.
      apply assoc_NoDup_elem; [by rewrite <- list_fmap_compose|].
      apply list_elem_of_fmap. exists e. split.
      * unfold payload_entry. rewrite Hr. simpl. by rewrite extract_story_eq.
      * apply story_entries_subseteq. by eapply list_elem_of_lookup_2.
Qed.
End Payload.

(** ** What holds of every store that a client can reach *)

Section ReachableInduction.
Context `{csf : CsfModule}.
Implicit Types s : StoryStore.

(** A property of the project annotations, the cache of prepared stories,
    the argument values and the hooks, *)
Variable P : StoryStore → Prop.
Hypothesis P_frame : ∀ s s',
  storyCache s' = storyCache s → projectAnnotations s' = projectAnnotations s →
  args s' = args s → hooks s' = hooks s → nextRef s ≤ nextRef s' → P s → P s'.
(** that the operations that change them keep. *)
Hypothesis P_storyFromCSFFile : ∀ id file s,
  P s → P (storyFromCSFFile id file s).2.
Hypothesis P_setProjectAnnotations : ∀ pa s,
  P s → P (setProjectAnnotations pa s).
Hypothesis P_update : ∀ id partial s,
  P s → P (set_args (args_update id partial (args s)) s).

Lemma kept_by_loads s s' : loads_only s s' → evolves s s' → P s → P s'.
Proof.
  intros (_ & _ & Hp & Ha & Hh & Hc & _) (Hn & _). by apply P_frame.
Qed.

Lemma kept_by_extract_entries docs cached entries acc s :
  P s → P (extract_entries docs cached entries acc s).2.
Proof.
  revert acc s. induction entries as [|[id entry] rest IH]; intros acc s Hok;
    simpl; [done|].
  destruct (entryType entry); [|by apply IH].
  pose proof (P_storyFromCSFFile id (assoc (importPath entry) cached) s Hok) as H1.
  destruct (storyFromCSFFile _ _ s) as [[e|story] s1]; [done|]. simpl in H1.
  destruct (negb docs && _); by apply IH.
Qed.

Lemma kept_by_extract docs s : P s → P (extract docs s).2.
Proof.
  unfold extract. destruct (storyIndex s); [|done].
  destruct (cachedCSFFiles s); [|done]. apply kept_by_extract_entries.
Qed.

Lemma kept_by_fromId id s : P s → P (fromId id s).2.
Proof.
  intros Hok. unfold fromId. destruct (storyIndex s) as [entries|]; [|done].
  destruct (cachedCSFFiles s) as [cached|]; [|done].
  destruct (storyIdToEntry entries id) as [e|entry]; [done|].
  pose proof (P_storyFromCSFFile id (assoc (importPath entry) cached) s Hok) as H1.
  by destruct (storyFromCSFFile _ _ s) as [[e|story] s1].
Qed.

Lemma kept_by_cacheAllCSFFiles_now s : P s → P (cacheAllCSFFiles_now s).2.
Proof.
  apply kept_by_loads.
  - apply cacheAllCSFFiles_now_loads.
  - destruct (cacheAllCSFFiles_now s) eqn:H. simpl.
    by eapply cacheAllCSFFiles_now_evolves.
Qed.

Lemma kept_by_load id s job s1 :
  loadCSFFileByStoryId id s = inr (job, s1) → P s → P (settle job s1).2.
Proof.
  intros Hl Hok.
  assert (H1 : P s1).
  { apply loadCSFFileByStoryId_spec in Hl as (? & ? & ? & _ & _ & _ & _ & ->).
    revert Hok. by apply P_frame. }
  revert H1. apply kept_by_loads; [apply settle_loads|].
  destruct (settle job s1) eqn:H. simpl. by eapply settle_evolves.
Qed.

Lemma kept_by_loadStory_now id s : P s → P (loadStory_now id s).2.
Proof.
  intros Hok. unfold loadStory_now.
  destruct (loadCSFFileByStoryId id s) as [e|[job s1]] eqn:Hl; [done|].
  pose proof (kept_by_load _ _ _ _ Hl Hok) as H2.
  destruct (settle job s1) as [[e|file] s2]; [done|]. simpl in H2.
  pose proof (P_storyFromCSFFile id (Some file) s2 H2) as H3.
  by destruct (storyFromCSFFile id (Some file) s2) as [[e|story] s3].
Qed.

Lemma kept_by_resume op s : P s → P (resume op s).2.
Proof.
  intros Hok. destruct op as [f entries|id|id|]; cbn [resume].
  - unfold onStoriesChanged_now.
    set (s1 := match f with Some f0 => set_importFn (Some f0) s | None => s end).
    assert (H1 : P s1).
    { subst s1. destruct f; [|done]. revert Hok. by apply P_frame. }
    clearbody s1. destruct entries as [entries|].
    + destruct (storyIndex s1); [|done].
      assert (H2 : P (set_storyIndex (Some entries) s1)).
      { revert H1. by apply P_frame. }
      destruct (cachedCSFFiles _); [|done]. by apply kept_by_cacheAllCSFFiles_now.
    + destruct (cachedCSFFiles s1); [|done]. by apply kept_by_cacheAllCSFFiles_now.
  - unfold storyIdToEntry_now. destruct (storyIndex s) as [entries|]; [|done].
    by destruct (storyIdToEntry entries id).
  - by apply kept_by_loadStory_now.
  - by apply kept_by_cacheAllCSFFiles_now.
Qed.

Lemma kept_by_run_all ops s : P s → P (run_all resume ops s).2.
Proof.
  revert s. induction ops as [|op ops IH]; intros s Hok; simpl; [done|].
  pose proof (kept_by_resume op s Hok) as H1.
  destruct (resume op s) as [p s1]. simpl in H1.
  specialize (IH s1 H1). by destruct (run_all resume ops s1).
Qed.

Lemma kept_by_gated op s : P s → P (gated op s).2.
Proof.
  intros Hok. unfold gated. destruct (initialized s); [by apply kept_by_resume|].
  simpl. revert Hok. by apply P_frame.
Qed.

Lemma kept_by_initialize entries f cache s :
  P s → P (initialize entries f cache s).2.
Proof.
  intros Hok. apply (initialize_kept P).
  - intros job s0. apply kept_by_loads; [apply settle_loads|].
    destruct (settle job s0) eqn:H. simpl. by eapply settle_evolves.
  - intros batch s0. apply kept_by_loads; [apply issue_loads|].
    destruct (issue batch s0) as [[jobs thrown] s1] eqn:H. simpl.
    by eapply issue_evolves.
  - intros id s0 job s1 Hl.
    apply loadCSFFileByStoryId_spec in Hl as (? & ? & ? & _ & _ & _ & _ & ->).
    by apply P_frame.
  - apply P_storyFromCSFFile.
  - intros v s0. by apply P_frame.
  - intros v s0. by apply P_frame.
  - intros v s0 _. by apply P_frame.
  - revert Hok. by apply P_frame.
Qed.

Lemma kept_by_step c s : P s → P (step c s).
Proof.
  intros Hok. destruct c; simpl.
  - by apply P_setProjectAnnotations.
  - by apply kept_by_initialize.
  - by apply kept_by_gated.
  - destruct (loadCSFFileByStoryId storyId s) as [e|[job s1]] eqn:Hl; [done|].
    by eapply kept_by_load.
  - revert Hok. apply kept_by_loads; [apply loadAllCSFFiles_loads|].
    destruct (loadAllCSFFiles batchSize s) eqn:H. simpl.
    by eapply loadAllCSFFiles_evolves.
  - by apply P_storyFromCSFFile.
  - by apply kept_by_extract.
  - by apply kept_by_fromId.
  - by apply P_update.
Qed.

Lemma kept_by_run calls s : P s → P (run calls s).
Proof.
  unfold run. revert s. induction calls as [|c calls IH]; intros s H0; simpl;
    [done|].
  by apply IH, kept_by_step.
Qed.

Lemma reachable_kept s : P new_StoryStore → reachable s → P s.
Proof. intros H0 [calls ->]. by apply kept_by_run. Qed.
End ReachableInduction.

(** ** The project annotations and the cache of prepared stories *)

Section Invalidation.
Context `{csf : CsfModule}.
Implicit Types s : StoryStore.

Lemma memoize_entries {K C} `{EqDecision K} limit (k : K) fn (m : Memoized K C)
    next r m' next' :
  memoize limit k fn m next = (r, m', next') →
  ∀ k' v', (k', v') ∈ lru m' → r = inr v' ∧ k' = k ∨ (k', v') ∈ lru m.
Proof.
  unfold memoize. destruct (assoc k (lru m)) as [v|] eqn:Hl.
  - intros [= <- <- <-] k' v'. simpl. rewrite elem_of_app, list_elem_of_singleton.
    intros [Hin|[= -> ->]]; [|by left]. right.
    unfold without in Hin. by apply list_elem_of_filter in Hin as [_ ?].
  - destruct fn as [e|c]; intros [= <- <- <-] k' v'; [by right|]. simpl.
    unfold purge. intros Hin.
    assert (Hin' : (k', v') ∈ lru m ++ [(k, mkObj next c)]).
    { case_bool_decide; [|done].
      destruct (lru m ++ [(k, mkObj next c)]) as [|x l]; [done|].
      by apply list_elem_of_further. }
    apply elem_of_app in Hin' as [?|Hin']; [by right|].
    apply list_elem_of_singleton in Hin'. left. split; congruence.
Qed.

Lemma memoize_miss {K C} `{EqDecision K} limit (k : K) fn (m : Memoized K C)
    next v m' next' :
  assoc k (lru m) = None →
  memoize limit k fn m next = (inr v, m', next') →
  wasMemoized m' = false ∧ ref v = next ∧ next' = S next.
Proof.
  unfold memoize. intros ->. destruct fn as [e|c]; [done|].
  by intros [= <- <- <-].
Qed.

Lemma project_refs_frame s s' :
  storyCache s' = storyCache s → projectAnnotations s' = projectAnnotations s →
  nextRef s ≤ nextRef s' → project_refs_ok s → project_refs_ok s'.
Proof.
  intros Hc Hp Hn [H1 H2]. split.
  - intros pa. rewrite Hp. intros Hpa. specialize (H1 pa Hpa). lia.
  - intros k v. rewrite Hc. intros Hin. specialize (H2 k v Hin). lia.
Qed.

Lemma storyFromCSFFile_refs id file s :
  project_refs_ok s → project_refs_ok (storyFromCSFFile id file s).2.
Proof.
  intros Hok. unfold storyFromCSFFile.
  destruct (projectAnnotations s) as [pa|] eqn:Hpa; [|done].
  destruct file as [file|]; [|done].
  destruct (assoc id (stories (content file))) as [ann|]; [|done].
  unfold prepareStoryWithCache.
  destruct (memoize STORY_CACHE_SIZE ((ref file, id), ref file, ref pa)
              (prepareStory ann (meta (content file)) (content pa))
              (storyCache s) (nextRef s)) as [[r m] n] eqn:Hm.
  pose proof (memoize_next _ _ _ _ _ _ _ _ Hm) as Hn.
  pose proof (memoize_entries _ _ _ _ _ _ _ _ Hm) as Hk.
  destruct Hok as [H1 H2]. specialize (H1 pa Hpa).
  assert (Hok' : project_refs_ok (set_nextRef n (set_storyCache m s))).
  { split; simpl.
    - rewrite Hpa. intros ? [= <-]. lia.
    - intros k v Hin. destruct (Hk k v Hin) as [[_ ->]|Hold]; simpl; [lia|].
      specialize (H2 k v Hold). lia. }
  destruct r as [e|story]; [done|]. simpl.
  revert Hok'. by apply project_refs_frame.
Qed.

Lemma reachable_refs s : reachable s → project_refs_ok s.
Proof.
  apply reachable_kept.
  - intros s1 s2 Hc Hp _ _ Hn. by apply project_refs_frame.
  - apply storyFromCSFFile_refs.
  - intros pa s1 [H1 H2]. split; simpl.
    + intros ? [= <-]. simpl. lia.
    + intros k v Hin. specialize (H2 k v Hin). lia.
  - intros id partial s1. by apply project_refs_frame.
  - split; [done|]. intros k v Hin. by apply elem_of_nil in Hin.
Qed.

(** X9.  Changing the project annotations invalidates the cache of
    prepared stories: in a store that a client can reach, after
    [setProjectAnnotations] a story is prepared anew, whatever the cache
    holds.  [storyFromCSFFile] then gives a new object, which is none of the
    stories prepared before, also when the annotations given are those
    that the store had. *)
Theorem setProjectAnnotations_invalidates s pa storyId file story s' :
  reachable s →
  storyFromCSFFile storyId (Some file) (setProjectAnnotations pa s)
    = (inr story, s') →
  wasMemoized (storyCache s') = false ∧
  ref story = S (nextRef s) ∧
  nextRef s' = S (S (nextRef s)) ∧
  ∀ k old, (k, old) ∈ lru (storyCache s) → ref old ≠ ref story.
Proof.
  intros Hreach Hsf.
  pose proof (reachable_refs s Hreach) as [_ Hkeys].
  pose proof (reachable_inv s Hreach) as [[_ (_ & _ & _ & Hrefs)] _].
  apply storyFromCSFFile_inr in Hsf
    as (pa' & file' & ann & s0 & Hpa & [= <-] & Hann & Hp & ->).
  simpl in Hpa. injection Hpa as <-.
  unfold prepareStoryWithCache in Hp.
  destruct (memoize STORY_CACHE_SIZE
              ((ref file, storyId), ref file,
               ref (mkObj (nextRef s) (normalizeProjectAnnotations pa)))
              (prepareStory ann (meta (content file))
                 (content (mkObj (nextRef s) (normalizeProjectAnnotations pa))))
              (storyCache (setProjectAnnotations pa s))
              (nextRef (setProjectAnnotations pa s))) as [[r m] n] eqn:Hm.
  injection Hp as -> <-.
  apply memoize_miss in Hm as (Hwas & Href & ->).
  - simpl. rewrite Href. split_and!; [done|done|done|].
    intros k old Hin. specialize (Hrefs k old Hin). simpl. lia.
  - simpl. apply assoc_None. intros Hin.
    apply list_elem_of_fmap in Hin as ([k v] & Hk & Hin). simpl in Hk. subst k.
    apply Hkeys in Hin. simpl in Hin. lia.
Qed.
End Invalidation.

(** ** Edge cases of the loads *)

Section LoadEdges.
Context `{csf : CsfModule}.
Implicit Types s : StoryStore.

(** X10.  With an empty index nothing is loaded: [loadAllCSFFiles] is
    fulfilled with the empty mapping and leaves the store as it is, for
    every batch size (zero included) and also when no loader is set;
    [cacheAllCSFFiles] then sets [cachedCSFFiles] to the empty mapping, with
    which [extract] and [getSetIndexPayload] give empty results. *)
Theorem empty_index_loads_nothing batchSize docs s :
  storyIndex s = Some [] →
  let s' := set_cachedCSFFiles (Some []) s in
  loadAllCSFFiles batchSize s = (inr (Fulfilled []), s) ∧
  cacheAllCSFFiles_now s = (Fulfilled VVoid, s') ∧
  extract docs s' = (inr [], s') ∧
  getSetIndexPayload s' = (inr [], s').
Proof.
  intros Hx. unfold cacheAllCSFFiles_now, getSetIndexPayload, extract,
    loadAllCSFFiles. simpl. rewrite Hx. simpl. rewrite Hx. by split_and!.
Qed.

Lemma memoize_total {K C} `{EqDecision K} limit (k : K) (c : C)
    (m : Memoized K C) next :
  ∃ v m' next', memoize limit k (inr c) m next = (inr v, m', next').
Proof.
  unfold memoize. destruct (assoc k (lru m)) as [v|]; eauto.
Qed.

(** X11.  [initialize] alone does not make [loadStory] work: without
    project annotations a call of [loadStory] is never fulfilled, and for a
    story of the index whose module loads and is processed, it is rejected
    with the error of [storyFromCSFFile], after the module was loaded and
    its CSF file put in the cache. *)
Theorem loadStory_needs_project_annotations storyId s :
  initialized s = true → projectAnnotations s = None →
  (∀ story, (loadStory storyId s).1 ≠ Fulfilled (VStory story)) ∧
  (∀ entries f entry m c,
     storyIndex s = Some entries → importFn s = Some f →
     storyIdToEntry entries storyId = inr entry →
     loaded (f (imports s) (importPath entry)) = inr m →
     processCSFFile (content m) (importPath entry) (entryTitle entry) = inr c →
     ∃ s', loadStory storyId s
             = (Rejected (NotInitialized "storyFromCSFFile"), s') ∧
           is_Some (assoc (ref m, importPath entry, entryTitle entry)
                      (lru (csfCache s'))) ∧
           imports s' = imports s ++
             [mkImport (importPath entry) (clock s)
                (clock s + latency (f (imports s) (importPath entry))) true]).
Proof.
  intros Hi Hpa. unfold loadStory. rewrite gated_initialized by done.
  cbn [resume]. unfold loadStory_now. split.
  - intros story.
    destruct (loadCSFFileByStoryId storyId s) as [e|[job s1]] eqn:Hl; [done|].
    destruct (settle job s1) as [[e|file] s2] eqn:Hs; [done|].
    apply settle_spec in Hs as (_ & _ & _ & _ & _ & _ & _ & Hp2).
    apply loadCSFFileByStoryId_spec in Hl as (? & ? & ? & _ & _ & _ & _ & ->).
    simpl in Hp2. unfold storyFromCSFFile. by rewrite Hp2, Hpa.
  - intros entries f entry m c Hx Hf He Hm Hc.
    unfold loadCSFFileByStoryId. rewrite Hx, Hf, He. unfold settle. simpl.
    rewrite Hm. unfold processCSFFileWithCache. simpl. rewrite Hc.
    edestruct (memoize_total CSF_CACHE_SIZE (ref m, importPath entry, entryTitle entry)
                 c (csfCache s) (nextRef s)) as (v & m' & n' & Hmemo).
    rewrite Hmemo. unfold storyFromCSFFile. simpl. rewrite Hpa.
    eexists. split_and!; [done| |done]. simpl.
    apply memoize_cached in Hmemo. exists v. exact Hmemo.
Qed.
End LoadEdges.

(** ** The stories of [raw] *)

Section Raw.
Context `{csf : CsfModule}.
Implicit Types s : StoryStore.

Lemma fromId_Some storyId s story s' :
  fromId storyId s = (inr (Some story), s') →
  ∃ entries cached entry,
    storyIndex s = Some entries ∧ cachedCSFFiles s = Some cached ∧
    storyIdToEntry entries storyId = inr entry ∧
    storyFromCSFFile storyId (assoc (importPath entry) cached) s
      = (inr story, s').
Proof.
  unfold fromId. destruct (storyIndex s) as [entries|]; [|done].
  destruct (cachedCSFFiles s) as [cached|]; [|done].
  destruct (storyIdToEntry entries storyId) as [e|entry] eqn:He; [done|].
  destruct (storyFromCSFFile storyId _ s) as [[e|story0] s1] eqn:Hsf; [done|].
  intros [= -> ->]. by exists entries, cached, entry.
Qed.

(** The identifiers that [raw] reads in the records. *)
Lemma fromId_of_records records s founds s' :
  Forall (λ r, ∃ storyId, js_field "id" r = JsString storyId) records →
  threaded fromId_of_record records s founds s' →
  ∃ ids, Forall2 (λ r storyId, js_field "id" r = JsString storyId) records ids ∧
         threaded fromId ids s founds s'.
Proof.
  intros Hall Hth. induction Hth as [s|record rest s found s1 founds s' Hf Hth IH].
  - exists []. split; constructor.
  - apply Forall_cons in Hall as [[storyId Hid] Hall].
    destruct (IH Hall) as (ids & Hids & Hth').
    exists (storyId :: ids). split; [by constructor|].
    apply (threaded_cons fromId storyId _ s found s1); [|done].
    unfold fromId_of_record in Hf. by rewrite Hid in Hf.
Qed.

(** X12.  [raw] goes through [extract]: it throws the errors of [extract]
    (before [cacheAllCSFFiles], the one that names [extract()]); each
    record of [extract] carries a string as its [id]; [raw] calls [fromId]
    for the [id] of each record, in the order of the records and each call
    on the store that the call before left, and gives the stories that
    these calls gave, in that order, the [null]s left out; and it loads no
    module. *)
Theorem raw_follows_extract s :
  prepares_only s (raw s).2 ∧
  (storyIndex s = None → raw s = (inl (NotInitialized "extract"), s)) ∧
  (is_Some (storyIndex s) → cachedCSFFiles s = None →
     raw s = (inl (CacheNotReady "extract()"), s)) ∧
  (∀ records s1,
     extract false s = (inr records, s1) →
     Forall (λ r, ∃ storyId, js_field "id" r.2 = JsString storyId) records ∧
     ∀ stories s2, raw s = (inr stories, s2) →
       ∃ ids founds,
         Forall2 (λ r storyId, js_field "id" r.2 = JsString storyId) records ids ∧
         threaded fromId ids s1 founds s2 ∧
         stories = omap (λ x, x) founds).
Proof.
  split_and!.
  - apply raw_prepares.
  - intros Hx. unfold raw, extract. by rewrite Hx.
  - intros [entries Hx] Hc. unfold raw, extract. by rewrite Hx, Hc.
  - intros records s1 Hex.
    assert (Hids : Forall (λ r, ∃ storyId, js_field "id" r.2 = JsString storyId)
                     records).
    { unfold extract in Hex. destruct (storyIndex s) as [entries|]; [|done].
      destruct (cachedCSFFiles s) as [cached|]; [|done].
      apply extract_entries_threaded in Hex as (prepared & _ & ->).
      apply Forall_forall. intros [id record] Hr.
      apply extract_put_elem in Hr as [Hnil|(i & entry & story & _ & _ & -> & _)].
      - by apply elem_of_nil in Hnil.
      - exists (story_id (content story)). simpl. by rewrite extract_story_eq. }
    split; [done|].
    intros stories s2. unfold raw. rewrite Hex. intros Hr.
    apply raw_stories_threaded in Hr as (founds & Hth & ->).
    apply fromId_of_records in Hth as (ids & Hall & Hth).
    + exists ids, founds. split_and!; [|done..]. by apply Forall2_fmap_l in Hall.
    + by apply Forall_fmap.
Qed.
End Raw.

(** ** The context of a story *)

Section Contexts.
Context `{csf : CsfModule}.
Implicit Types s : StoryStore.

Lemma has_context_frame storyId s s' :
  args s' = args s → hooks s' = hooks s →
  has_context storyId s → has_context storyId s'.
Proof. unfold has_context. by intros -> ->. Qed.

Lemma args_setInitial_keeps story storyId (a : gmap StoryId JsRecord) :
  is_Some (a !! storyId) → is_Some (args_setInitial story a !! storyId).
Proof.
  intros Hs. unfold args_setInitial.
  destruct (a !! story_id story) eqn:Ha; [done|].
  destruct (decide (story_id story = storyId)) as [->|Hne].
  - rewrite lookup_insert_eq. eauto.
  - by rewrite lookup_insert_ne.
Qed.

Lemma storyFromCSFFile_has_context storyId id file s :
  has_context storyId s → has_context storyId (storyFromCSFFile id file s).2.
Proof.
  intros [Ha Hh].
  destruct (storyFromCSFFile id file s) as [[e|story] s1] eqn:Hsf.
  - apply storyFromCSFFile_inl in Hsf as ->. by split.
  - apply storyFromCSFFile_inr in Hsf as (pa & f & ann & s0 & _ & _ & _ & Hp & ->).
    assert (Hs0 : args s0 = args s ∧ hooks s0 = hooks s).
    { unfold prepareStoryWithCache in Hp.
      destruct (memoize _ _ _ _ _) as [[r m] n]. by injection Hp as _ <-. }
    destruct Hs0 as [Ha0 Hh0]. split; simpl.
    + rewrite Ha0. by apply args_setInitial_keeps.
    + rewrite Hh0. apply elem_of_union. by right.
Qed.

Lemma run_has_context storyId calls s :
  has_context storyId s → has_context storyId (run calls s).
Proof.
  apply kept_by_run.
  - intros s1 s2 _ _ Ha Hh _. by apply has_context_frame.
  - intros. by apply storyFromCSFFile_has_context.
  - intros pa s1. by apply has_context_frame.
  - intros id partial s1 [Ha Hh]. split; [|done]. simpl.
    unfold args_update. destruct (decide (id = storyId)) as [->|Hne].
    + rewrite lookup_alter_eq. by apply fmap_is_Some.
    + by rewrite lookup_alter_ne.
Qed.

(** X13.  A story that [storyFromCSFFile] has prepared keeps its context:
    whatever the client calls afterwards, [getStoryContext] gives the
    fields of the story with argument values and a hooks context that are
    both defined, also when the story has left the cache; before
    [setProjectAnnotations] has set [globals], [getStoryContext] throws. *)
Theorem getStoryContext_after_preparing storyId file s story s1 calls :
  storyFromCSFFile storyId file s = (inr story, s1) →
  getStoryContext None story (run calls s1)
    = inl (NotInitialized "getStoryContext") ∧
  ∀ g, ∃ a,
    args (run calls s1) !! story_id (content story) = Some a ∧
    getStoryContext (Some g) story (run calls s1)
      = inr (mkStoryContext (content story) (Some a) g true).
Proof.
  intros Hsf. split; [done|]. intros g.
  assert (H1 : has_context (story_id (content story)) s1).
  { apply storyFromCSFFile_inr in Hsf as (pa & f & ann & s0 & _ & _ & _ & _ & ->).
    split; simpl; [apply args_setInitial_seeds|set_solver]. }
  apply (run_has_context _ calls) in H1 as [[a Ha] Hh].
  exists a. split; [done|]. unfold getStoryContext, args_get.
  by rewrite Ha, bool_decide_eq_true_2.
Qed.
End Contexts.

(** ** The payloads made of the records of [extract] *)

Section Legacy.
Context `{csf : CsfModule}.
Implicit Types s : StoryStore.

(** The records of [extract] are made of prepared stories. *)
Lemma extract_records docs s records s' :
  extract docs s = (inr records, s') →
  Forall (λ r, ∃ story : PreparedStory, r.2 = extract_story (content story))
    records.
Proof.
  unfold extract. destruct (storyIndex s) as [entries|]; [|done].
  destruct (cachedCSFFiles s) as [cached|]; [|done]. intros Hex.
  apply extract_entries_threaded in Hex as (prepared & _ & ->).
  apply Forall_forall. intros [id record] Hr.
  apply extract_put_elem in Hr as [Hnil|(i & entry & story & _ & _ & -> & _)].
  - by apply elem_of_nil in Hnil.
  - by exists story.
Qed.

Lemma kindParameters_from (records : list JsRecord) (acc : list (string * JsRecord)) :
  let r := fold_left (λ acc story,
               match property_key (js_field "title" story) with
               | Some title => assign title [] acc
               | None => acc
               end) records acc in
  (NoDup acc.*1 → NoDup r.*1) ∧
  ((∀ t ps, (t, ps) ∈ acc → ps = []) → ∀ t ps, (t, ps) ∈ r → ps = []) ∧
  (∀ t, t ∈ r.*1 ↔
        t ∈ acc.*1 ∨ ∃ record, record ∈ records ∧ js_field "title" record = JsString t).
Proof.
  revert acc. induction records as [|record rest IH]; intros acc; simpl.
  - split_and!; [done|done|]. intros t. split; [by left|].
    intros [?|(record & Hin & _)]; [done|]. by apply elem_of_nil in Hin.
  - destruct (IH (match property_key (js_field "title" record) with
                  | Some title => assign title [] acc
                  | None => acc
                  end)) as (Hnd & Hval & Hkeys).
    split_and!.
    + intros Hacc. apply Hnd.
      destruct (property_key _) as [title|]; [|done].
      rewrite assign_keys. case_decide; [done|].
      apply NoDup_app. split_and!; [done| |apply NoDup_singleton].
      intros x Hx Hx'. apply list_elem_of_singleton in Hx' as ->. done.
    + intros Hacc. apply Hval.
      destruct (property_key _) as [title|]; [|done].
      intros t ps Hin. apply elem_of_assign in Hin as [[= -> ->]|Hin]; [done|].
      by eapply Hacc.
    + intros t. rewrite Hkeys. clear IH Hnd Hval Hkeys.
      destruct (js_field "title" record) as [| | | |title| | |] eqn:Ht; simpl;
        try (split; [intros [?|(r & Hin & Hr)]; [by left|right; exists r; split;
               [by apply list_elem_of_further|done]]
             |intros [?|(r & Hin & Hr)]; [by left|];
              apply elem_of_cons in Hin as [->|Hin]; [congruence|];
              right; by exists r]).
      rewrite assign_keys. split.
      * intros [Hin|(r & Hin & Hr)].
        -- case_decide; [by left|].
           apply elem_of_app in Hin as [?|Hin]; [by left|].
           apply list_elem_of_singleton in Hin as ->. right. exists record.
           split; [apply list_elem_of_here|done].
        -- right. exists r. split; [by apply list_elem_of_further|done].
      * intros [Hin|(r & Hin & Hr)].
        -- left. case_decide; [done|]. apply elem_of_app. by left.
        -- apply elem_of_cons in Hin as [->|Hin]; [|right; by exists r].
           left. rewrite Ht in Hr. injection Hr as ->.
           case_decide; [done|]. apply elem_of_app. right.
           by apply list_elem_of_singleton.
Qed.

(** X14.  [getSetStoriesPayload] throws when [globals] is not set,
    whatever the rest of the store; otherwise it ends as
    [extract({ includeDocsOnly: true })] does, and its payload has the
    records of [extract] as [stories], each with a string as [title], and
    as [kindParameters] one key for each title of these records, each key
    once and with empty parameters. *)
Theorem getSetStoriesPayload_kinds s :
  getSetStoriesPayload None s
    = (inl (NotInitialized "getSetStoriesPayload"), s) ∧
  ∀ g,
    (∀ e s', extract true s = (inl e, s') →
       getSetStoriesPayload (Some g) s = (inl e, s')) ∧
    (∀ stories s', extract true s = (inr stories, s') →
       ∃ payload,
         getSetStoriesPayload (Some g) s = (inr payload, s') ∧
         payload_stories payload = stories ∧ payload_globals payload = g ∧
         Forall (λ r, ∃ title, js_field "title" r.2 = JsString title) stories ∧
         NoDup (payload_kindParameters payload).*1 ∧
         (∀ title ps, (title, ps) ∈ payload_kindParameters payload → ps = []) ∧
         (∀ title, title ∈ (payload_kindParameters payload).*1 ↔
            ∃ r, r ∈ stories ∧ js_field "title" r.2 = JsString title)).
Proof.
  split; [done|]. intros g. unfold getSetStoriesPayload. split.
  - by intros e s' ->.
  - intros stories s' Hex. rewrite Hex. eexists. split; [done|]. simpl.
    destruct (kindParameters_from stories.*2 []) as (Hnd & Hval & Hkeys).
    split_and!; [done|done| | | |].
    + apply extract_records in Hex. eapply Forall_impl; [exact Hex|].
      intros r [story ->]. exists (story_title (content story)).
      by rewrite extract_story_eq.
    + apply Hnd, NoDup_nil_2.
    + apply Hval. intros t ps Hin. by apply elem_of_nil in Hin.
    + intros title. unfold kindParameters. rewrite Hkeys. split.
      * intros [Hin|(record & Hin & Hr)]; [by apply elem_of_nil in Hin|].
        apply list_elem_of_fmap in Hin as (r & -> & Hin). by exists r.
      * intros (r & Hin & Hr). right. exists r.2. split; [|done].
        apply list_elem_of_fmap. by exists r.
Qed.

Lemma assoc_pick (keys : list string) (obj : JsRecord) key :
  assoc key (pick keys obj) = if decide (key ∈ keys) then assoc key obj else None.
Proof.
  unfold pick. induction keys as [|k keys IH].
  - rewrite decide_False by apply not_elem_of_nil. done.
  - cbn [omap list_omap]. destruct (decide (k = key)) as [->|Hne].
    + rewrite (decide_True (P := key ∈ key :: keys)) by apply list_elem_of_here.
      destruct (assoc key obj) as [v|] eqn:Hk; simpl.
      * by rewrite decide_True.
      * rewrite IH. by case_decide.
    + assert (Hiff : key ∈ k :: keys ↔ key ∈ keys).
      { rewrite elem_of_cons. split; [intros [?|?]; [congruence|done]|by right]. }
      destruct (assoc k obj) as [v|]; simpl.
      * rewrite decide_False by done. rewrite IH.
        destruct (decide (key ∈ keys)) as [Hin|Hnin].
        -- by rewrite decide_True by (by apply Hiff).
        -- by rewrite decide_False by (by rewrite Hiff).
      * rewrite IH. destruct (decide (key ∈ keys)) as [Hin|Hnin].
        -- by rewrite decide_True by (by apply Hiff).
        -- by rewrite decide_False by (by rewrite Hiff).
Qed.

Lemma pick_keys (keys : list string) (obj : JsRecord) :
  (pick keys obj).*1 ⊆ keys.
Proof.
  unfold pick. intros k Hin. apply list_elem_of_fmap in Hin as ([k' v] & -> & Hin).
  apply list_elem_of_omap in Hin as (key & Hkey & Hv).
  destruct (assoc key obj); [|done]. simpl in Hv. injection Hv as <- <-. done.
Qed.

(** The legacy entry made of the record of a prepared story. *)
Lemma v2_compat_entry_story entries (story : PreparedStoryData) :
  v2_compat_entry entries (extract_story story) =
  match assoc (story_id story) entries with
  | None =>
      inl (TypeError
             "Cannot destructure property 'importPath' of 'storyIndex.entries[story.id]' as it is undefined.")
  | Some entry =>
      inr [ ("id", JsString (story_id story));
            ("name", JsString (story_name story));
            ("title", JsString (story_title story));
            ("importPath", JsString (importPath entry));
            ("kind", JsString (story_title story));
            ("story", JsString (story_name story));
            ("parameters",
              JsObject (assign "fileName" (JsString (importPath entry))
                          (pick allowedParameters (story_parameters story)))) ]
  end.
Proof.
  rewrite extract_story_eq. unfold v2_compat_entry. simpl.
  by destruct (assoc (story_id story) entries).
Qed.

Lemma v2_compat_entries_spec entries stories result :
  Forall (λ r, ∃ story : PreparedStory, r.2 = extract_story (content story))
    stories →
  v2_compat_entries entries stories = inr result →
  Forall2 (λ r legacy,
    legacy.1 = r.1 ∧
    ∃ (story : PreparedStory) entry,
      r.2 = extract_story (content story) ∧
      assoc (story_id (content story)) entries = Some entry ∧
      legacy.2 =
        [ ("id", JsString (story_id (content story)));
          ("name", JsString (story_name (content story)));
          ("title", JsString (story_title (content story)));
          ("importPath", JsString (importPath entry));
          ("kind", JsString (story_title (content story)));
          ("story", JsString (story_name (content story)));
          ("parameters",
            JsObject (assign "fileName" (JsString (importPath entry))
                        (pick allowedParameters
                           (story_parameters (content story))))) ])
    stories result.
Proof.
  revert result. induction stories as [|[id record] rest IH]; intros result Hall.
  - simpl. intros [= <-]. constructor.
  - apply Forall_cons in Hall as [[story Hrec] Hall]. simpl in Hrec. subst record.
    cbn [v2_compat_entries]. rewrite v2_compat_entry_story.
    destruct (assoc (story_id (content story)) entries) as [entry|] eqn:He; [|done].
    destruct (v2_compat_entries entries rest) as [e|rest'] eqn:Hrest; [done|].
    intros [= <-]. constructor; [|by apply IH].
    split; [done|]. by exists story, entry.
Qed.

(** X15.  [getStoriesJsonData] throws its own error when the index is not
    set, and then the error of [getSetStoriesPayload] when [globals] is
    not set.  Its result has an entry for each record of
    [extract({ includeDocsOnly: true })], under the same key and in the same
    order, made of the prepared story of the record and of the entry that
    the index has under the [id] of this story: [id], [name] and [title]
    are kept, [kind] is the title and [story] the name, and the parameters
    are those among the five allowed ones, with [fileName] set to the
    import path of the entry. *)
Theorem getStoriesJsonData_legacy_entries s :
  (∀ globals, storyIndex s = None →
     getStoriesJsonData globals s
       = (inl (NotInitialized "getStoriesJsonData"), s)) ∧
  (is_Some (storyIndex s) →
     getStoriesJsonData None s
       = (inl (NotInitialized "getSetStoriesPayload"), s)) ∧
  (∀ entries g result s',
     storyIndex s = Some entries →
     getStoriesJsonData (Some g) s = (inr result, s') →
     ∃ stories,
       extract true s = (inr stories, s') ∧
       Forall2 (λ r legacy,
         legacy.1 = r.1 ∧
         ∃ (story : PreparedStory) entry parameters,
           r.2 = extract_story (content story) ∧
           assoc (story_id (content story)) entries = Some entry ∧
           legacy.2 =
             [ ("id", JsString (story_id (content story)));
               ("name", JsString (story_name (content story)));
               ("title", JsString (story_title (content story)));
               ("importPath", JsString (importPath entry));
               ("kind", JsString (story_title (content story)));
               ("story", JsString (story_name (content story)));
               ("parameters", JsObject parameters) ] ∧
           parameters.*1 ⊆ allowedParameters ∧
           assoc "fileName" parameters = Some (JsString (importPath entry)) ∧
           ∀ key, key ≠ "fileName" →
             assoc key parameters =
             if decide (key ∈ allowedParameters)
             then assoc key (story_parameters (content story)) else None)
         stories result).
Proof.
  unfold getStoriesJsonData. split_and!.
  - by intros globals ->.
  - by intros [entries ->].
  - intros entries g result s' Hx. rewrite Hx. unfold getSetStoriesPayload.
    destruct (extract true s) as [[e|stories] s1] eqn:Hex; [done|]. simpl.
    destruct (v2_compat_entries entries stories) as [e|legacy] eqn:Hv; [done|].
    intros [= <- <-]. exists stories. split; [done|].
    apply extract_records in Hex.
    pose proof (v2_compat_entries_spec _ _ _ Hex Hv) as Hall.
    eapply Forall2_impl; [exact Hall|]. clear.
    intros r legacy (Hk & story & entry & Hr & He & Hl). split; [done|].
    exists story, entry. eexists. split_and!; [done|done|exact Hl| | |].
    + intros k Hin. rewrite assign_keys in Hin.
      case_decide as Hf.
      * by apply pick_keys in Hin.
      * apply elem_of_app in Hin as [Hin|Hin]; [by apply pick_keys in Hin|].
        apply list_elem_of_singleton in Hin as ->. apply list_elem_of_here.
    + apply assoc_assign_eq.
    + intros key Hne. rewrite assoc_assign_ne by done. apply assoc_pick.
Qed.
End Legacy.

(** ** What [initialize] replaces *)

Section Initialize.
Context `{csf : CsfModule}.
Implicit Types s : StoryStore.

(** X16.  [initialize] replaces the index and the loader and nothing
    else.  Without [cache], the CSF files cached before stay in
    [cachedCSFFiles] and the two caches are kept, so that [fromId] throws a
    type error for an entry of the new index whose import path has no
    cached file; with [cache], when the promise is fulfilled,
    [cachedCSFFiles] has a file for every entry of the new index. *)
Theorem initialize_replaces_index_and_loader entries f s :
  initialized s = true ∨ waiting s = [] →
  (∃ s',
     initialize entries f false s = (Fulfilled VVoid, [], s') ∧
     storyIndex s' = Some (default [] entries) ∧ importFn s' = Some f ∧
     cachedCSFFiles s' = cachedCSFFiles s ∧ csfCache s' = csfCache s ∧
     storyCache s' = storyCache s ∧ imports s' = imports s ∧
     ∀ storyId entry cached,
       cachedCSFFiles s = Some cached → is_Some (projectAnnotations s) →
       storyIdToEntry (default [] entries) storyId = inr entry →
       assoc (importPath entry) cached = None →
       fromId storyId s' =
         (inl (TypeError "Cannot read properties of undefined (reading 'stories')"),
          s')) ∧
  (∀ rs s',
     initialize entries f true s = (Fulfilled VVoid, rs, s') →
     NoDup (default [] entries).*1 →
     storyIndex s' = Some (default [] entries) ∧
     ∃ files, cachedCSFFiles s' = Some files ∧
       ∀ storyId entry, (storyId, entry) ∈ default [] entries →
         is_Some (assoc (importPath entry) files)).
Proof.
  intros Hw. split.
  - destruct (initialize_alone entries f false s Hw)
      as (s2 & -> & Hi & Hx & Hf & Hp & Hc & Hcc & Hsc & Him & _).
    exists s2. split_and!; try done.
    intros storyId entry cached Hcached [pa Hpa] He Hnone.
    unfold fromId. rewrite Hx, Hc, Hcached, He, Hnone.
    unfold storyFromCSFFile. by rewrite Hp, Hpa.
  - intros rs s'.
    destruct (initialize_alone entries f true s Hw)
      as (s2 & -> & Hi & Hx & Hf & _).
    unfold cacheAllCSFFiles_now.
    destruct (loadAllCSFFiles EXTRACT_BATCH_SIZE s2) as [r s3] eqn:Hload.
    assert (Hpos : 0 < EXTRACT_BATCH_SIZE) by (unfold EXTRACT_BATCH_SIZE; lia).
    destruct r as [e|[files|e|]]; try done. intros [= <- <-] Hnd.
    destruct (loadAllCSFFiles_covers _ _ _ _ _ _ Hx Hf Hnd Hpos Hload)
      as (Hx3 & _ & _ & Hall).
    split; [done|]. by exists files.
Qed.
End Initialize.

(** ** A change of the stories whose files cannot be loaded *)

Section Changes.
Context `{csf : CsfModule}.
Implicit Types s : StoryStore.

(** X17.  When [onStoriesChanged] runs [cacheAllCSFFiles] again and this
    is not fulfilled, the store is left with the new index and the new
    loader but with the CSF files that were cached before the change; the
    prepared stories and the argument values are kept. *)
Theorem onStoriesChanged_failure_keeps_old_files f entries s old p s' :
  initialized s = true → is_Some (storyIndex s) → cachedCSFFiles s = Some old →
  onStoriesChanged f entries s = (p, s') → p ≠ Fulfilled VVoid →
  (∀ new, entries = Some new → storyIndex s' = Some new) ∧
  (entries = None → storyIndex s' = storyIndex s) ∧
  (∀ g, f = Some g → importFn s' = Some g) ∧
  (f = None → importFn s' = importFn s) ∧
  cachedCSFFiles s' = Some old ∧
  storyCache s' = storyCache s ∧ args s' = args s.
Proof.
  intros Hi [old_index Hx] Hc. unfold onStoriesChanged.
  rewrite gated_initialized by done. cbn [resume].
  assert (Heq : onStoriesChanged_now f entries s =
                cacheAllCSFFiles_now (with_changes f entries s)).
  { unfold onStoriesChanged_now, with_changes.
    destruct f as [g|], entries as [new|]; simpl; rewrite ?Hx; simpl;
      rewrite ?Hc; done. }
  rewrite Heq. clear Heq. intros Hrun Hp.
  pose proof (cacheAllCSFFiles_now_loads (with_changes f entries s))
    as (Hx' & Hf' & _ & Ha' & _ & Hsc' & _).
  rewrite Hrun in Hx', Hf', Ha', Hsc'. simpl in Hx', Hf', Ha', Hsc'.
  assert (Hfiles : cachedCSFFiles s' = cachedCSFFiles (with_changes f entries s)).
  { unfold cacheAllCSFFiles_now in Hrun.
    destruct (loadAllCSFFiles_loads EXTRACT_BATCH_SIZE (with_changes f entries s))
      as [_ Hkeep].
    destruct (loadAllCSFFiles _ _) as [[e|[files|e|]] s1]; injection Hrun as <- <-;
      done. }
  destruct (with_changes_frame f entries s) as (_ & Hsc & Hcc & Ha).
  rewrite Hx', Hf', Hfiles, Hsc', Ha', Hcc, Hsc, Ha, Hc.
  unfold with_changes.
  split_and!; try done.
  - by intros new ->.
  - intros ->. by destruct f.
  - intros g ->. by destruct entries.
  - intros ->. by destruct entries.
Qed.
End Changes.

(** ** The sample project: the theorems at work, and what fails *)

(** The cache of CSF files at work on the sample project: the module of
    the buttons is asked for, then the module of the inputs, then the
    module of the buttons again. *)
Lemma cache_identity_witness :
  ∃ s3, csf_call button_call
          (csf_calls [input_call]
             (csf_call button_call (run sample_setup new_StoryStore)).2)
        = (inr button_file, s3) ∧
        wasMemoized (csfCache s3) = true ∧
        nextRef s3 =
        nextRef (csf_calls [input_call]
                   (csf_call button_call (run sample_setup new_StoryStore)).2).
Proof.
  apply (proj1 (@cache_identity sample_csf sample_setup) button_call [input_call]).
  - vm_compute. reflexivity.
  - apply Nat.ltb_lt. vm_compute. reflexivity.
Defined.




(** The operations that waited go on after [initialize] has issued the
    loads of its own: the import of [loadStory] is the fourth. *)
Lemma waiting_operations_go_on_after_initialize :
  let r := initialize (Some sample_index) sample_importFn true
             (run_all gated early_ops configured_store).2 in
  r.1 = (Fulfilled VVoid,
         [Fulfilled (VStory (mkObj 3 (sample_story "button--primary" [] "Button" [])));
          Fulfilled (VEntry (mkIndexEntry StoryEntry "./Input.stories.js" "Input"))]) ∧
  imp_path <$> imports r.2 =
    ["./Button.stories.js"; "./Input.stories.js"; "./Button.stories.js";
     "./Button.stories.js"] ∧
  (default [] (cachedCSFFiles r.2)).*1 =
    ["./Button.stories.js"; "./Input.stories.js"].
Proof. split_and!; vm_compute; reflexivity. Qed.

(** A [cacheAllCSFFiles] that waited issues its loads when the promise is
    resolved, before [initialize] issues its own; [loadStory] comes
    last. *)
Lemma waiting_cacheAllCSFFiles_goes_first :
  let r := initialize (Some sample_index) sample_importFn true
             (run_all gated early_caching configured_store).2 in
  r.1.1 = Fulfilled VVoid ∧
  r.1.2 = [Fulfilled VVoid;
           Fulfilled (VStory (mkObj 2 (sample_story "input--basic" [] "Input" [])))] ∧
  imp_path <$> imports r.2 =
    ["./Button.stories.js"; "./Input.stories.js"; "./Button.stories.js";
     "./Button.stories.js"; "./Input.stories.js"; "./Button.stories.js";
     "./Input.stories.js"].
Proof. split_and!; vm_compute; reflexivity. Qed.

(** The batches of two of [ready_store]. *)
Lemma batches_in_sequence_witness :
  EXTRACT_BATCH_SIZE = 20 ∧
  ∃ new,
    imports (loadAllCSFFiles 2 ready_store).2 = imports ready_store ++ new ∧
    batched 2 (clock ready_store) new ∧
    imp_path <$> new `prefix_of` ((λ e, importPath e.2) <$> sample_index) ∧
    ∀ files, (loadAllCSFFiles 2 ready_store).1 = inr (Fulfilled files) →
      imp_path <$> new = (λ e, importPath e.2) <$> sample_index ∧
      files.*1 = insertion_order ((λ e, importPath e.2) <$> sample_index).
Proof.
  apply (@batches_in_sequence sample_csf 2 ready_store sample_index sample_importFn).
  - vm_compute. reflexivity.
  - vm_compute. reflexivity.
  - refine (bool_decide_unpack _ _). vm_compute. exact I.
  - lia.
  - vm_compute. reflexivity.
Defined.

(** C4, as it is stated, fails: the index has two import paths, which fit
    in one batch of two, but the loads are three, one for each entry, in
    two batches, and the module of the buttons is loaded twice. *)
Lemma loadAllCSFFiles_loads_each_entry :
  remove_dups ((importPaths sample_index).*1) =
    ["./Input.stories.js"; "./Button.stories.js"] ∧
  imp_path <$> imports (loadAllCSFFiles 2 ready_store).2 =
    ["./Button.stories.js"; "./Input.stories.js"; "./Button.stories.js"] ∧
  imp_issued <$> imports (loadAllCSFFiles 2 ready_store).2 = [0; 0; 5].
Proof. split_and!; vm_compute; reflexivity. Qed.

(** The arguments of a story are updated between two preparations. *)
Lemma preparing_twice_keeps_args_witness :
  ∃ s3,
    storyFromCSFFile "button--primary" (Some button_file)
      (set_args
         (args_update "button--primary" [("label", JsString "Submit")]
            (args (storyFromCSFFile "button--primary" (Some button_file)
                     configured_store).2))
         (storyFromCSFFile "button--primary" (Some button_file) configured_store).2)
    = (inr primary_story, s3) ∧
    args_get "button--primary" (args s3) =
    merge_args [("label", JsString "Submit")] <$>
      args_get "button--primary"
        (args (storyFromCSFFile "button--primary" (Some button_file)
                 configured_store).2).
Proof.
  assert (H1 : storyFromCSFFile "button--primary" (Some button_file) configured_store =
               (inr primary_story,
                (storyFromCSFFile "button--primary" (Some button_file)
                   configured_store).2))
    by (vm_compute; reflexivity).
  apply (proj2 (@preparing_twice_keeps_args sample_csf "button--primary" button_file
                  configured_store primary_story _ H1)
           [("label", JsString "Submit")]).
Defined.



(** [extract] on [ready_store], where no CSF file was cached. *)
Lemma extract_requires_cache_witness :
  extract false ready_store = (inl (CacheNotReady "extract()"), ready_store).
Proof.
  apply (proj1 (proj2 (@extract_requires_cache sample_csf ready_store false))
           sample_index); vm_compute; reflexivity.
Defined.

(** [extract] on [cached_store]: the stories that it prepares and the
    records that it makes of them. *)
Lemma extract_serializable_witness :
  ∃ prepared,
    threaded (prepare_entry (default [] (cachedCSFFiles cached_store)))
      (story_entries sample_index) cached_store prepared
      (extract false cached_store).2 ∧
    sample_extracted
    = fold_left (extract_put false) (zip (story_entries sample_index) prepared) [] ∧
    (∀ id record, (id, record) ∈ sample_extracted →
       ∃ i entry story,
         story_entries sample_index !! i = Some (id, entry) ∧
         prepared !! i = Some story ∧
         record = extract_story (content story) ∧
         (false = false → truthy (docsOnly (content story)) = false)) ∧
    (NoDup sample_index.*1 →
     Forall2 (λ e story,
                assoc e.1 sample_extracted =
                if negb false && truthy (docsOnly (content story))
                then None
                else Some (extract_story (content story)))
       (story_entries sample_index) prepared).
Proof.
  assert (H1 : storyIndex cached_store = Some sample_index)
    by (vm_compute; reflexivity).
  assert (H2 : cachedCSFFiles cached_store =
               Some (default [] (cachedCSFFiles cached_store)))
    by (vm_compute; reflexivity).
  assert (H3 : extract false cached_store =
               (inr sample_extracted, (extract false cached_store).2))
    by (vm_compute; reflexivity).
  apply (proj1 (@extract_serializable sample_csf false cached_store
                  sample_index _ _ _ H1 H2 H3)).
Defined.

(** [onStoriesChanged] on [ready_store], where no CSF file was cached. *)
Lemma onStoriesChanged_recaches_witness :
  onStoriesChanged None None ready_store =
  (Fulfilled VVoid, with_changes None None ready_store).
Proof.
  apply (proj1 (proj2 (proj2 (@onStoriesChanged_recaches sample_csf None None
                                ready_store)))).
  - vm_compute. reflexivity.
  - exists sample_index. vm_compute. reflexivity.
  - vm_compute. reflexivity.
Defined.

(** The records of [extract] on [cached_store]. *)
Lemma extract_shows_initial_args_witness :
  ∃ entries cached prepared,
    storyIndex cached_store = Some entries ∧
    cachedCSFFiles cached_store = Some cached ∧
    threaded (prepare_entry cached) (story_entries entries) cached_store prepared
      (extract false cached_store).2 ∧
    (∀ id record, (id, record) ∈ sample_extracted →
       ∃ i entry story,
         story_entries entries !! i = Some (id, entry) ∧
         prepared !! i = Some story ∧
         assoc "args" record
         = Some (JsObject (story_initialArgs (content story)))) ∧
    (NoDup entries.*1 →
     Forall2 (λ e story,
                negb false && truthy (docsOnly (content story)) = false →
                ∃ record,
                  assoc e.1 sample_extracted = Some record ∧
                  assoc "args" record
                  = Some (JsObject (story_initialArgs (content story))))
       (story_entries entries) prepared).
Proof.
  assert (H1 : extract false cached_store =
               (inr sample_extracted, (extract false cached_store).2))
    by (vm_compute; reflexivity).
  apply (proj1 (@extract_shows_initial_args sample_csf false cached_store)
           sample_extracted (extract false cached_store).2 H1).
Defined.

(** The arguments of a story are updated after [extract] has seeded
    them: the store holds the new values and [extract] shows the initial
    ones. *)
Lemma extract_ignores_updated_args :
  let s1 := (extract false cached_store).2 in
  let s2 := set_args
              (args_update "button--primary" [("label", JsString "Submit")]
                 (args s1)) s1 in
  args_get "button--primary" (args s2) = Some [("label", JsString "Submit")] ∧
  (extract false s2).1 = inr sample_extracted ∧
  (assoc "button--primary" sample_extracted) ≫= assoc "args"
  = Some (JsObject [("label", JsString "Button")]).
Proof. split_and!; vm_compute; reflexivity. Qed.

(** The arrays are sorted by UTF-16 code units: a character outside of the
    basic plane comes before one at the end of it. *)
Lemma js_sort_by_code_units :
  utf16 grinning_face = [55357; 56832]%N ∧
  utf16 fullwidth_tilde = [65374]%N ∧
  js_sort [fullwidth_tilde; grinning_face; "b"; "a"; "ab"]
  = ["a"; "ab"; "b"; grinning_face; fullwidth_tilde].
Proof. split_and!; vm_compute; reflexivity. Qed.

(** ** The sample project: more of the store at work *)

(** The first story of the buttons is prepared on [configured_store]. *)
Lemma storyFromCSFFile_effects_witness :
  let s := configured_store in
  let s' := (storyFromCSFFile "button--primary" (Some button_file) s).2 in
  let id := story_id (content primary_story) in
  args s' !! id =
    Some (default (story_initialArgs (content primary_story)) (args s !! id)) ∧
  (∀ other, other ≠ id → args s' !! other = args s !! other) ∧
  hooks s' = {[ id ]} ∪ hooks s ∧
  ∃ pa csfFile, projectAnnotations s = Some pa ∧ Some button_file = Some csfFile ∧
    assoc ((ref csfFile, "button--primary"), ref csfFile, ref pa)
      (lru (storyCache s')) = Some primary_story.
Proof.
  assert (H1 : storyFromCSFFile "button--primary" (Some button_file) configured_store =
               (inr primary_story,
                (storyFromCSFFile "button--primary" (Some button_file)
                   configured_store).2))
    by (vm_compute; reflexivity).
  exact (proj2 (proj2 (proj2 (@storyFromCSFFile_effects sample_csf "button--primary"
                                (Some button_file) configured_store)))
           primary_story _ H1).
Defined.

(** The stories of the file of the buttons, on [ready_store]. *)
Lemma componentStoriesFromCSFFile_follows_index_witness :
  threaded (λ storyId, storyFromCSFFile storyId (Some button_file))
    (filter (λ storyId, is_Some (assoc storyId (stories (content button_file))))
       sample_index.*1)
    ready_store sample_component_stories
    (componentStoriesFromCSFFile button_file ready_store).2 ∧
  Forall (λ storyId, storyId ∈ sample_index.*1 ∧
                     is_Some (assoc storyId (stories (content button_file))))
    (filter (λ storyId, is_Some (assoc storyId (stories (content button_file))))
       sample_index.*1).
Proof.
  apply (proj1 (proj2 (@componentStoriesFromCSFFile_follows_index sample_csf
                         button_file ready_store))
           sample_index sample_component_stories
           (componentStoriesFromCSFFile button_file ready_store).2).
  - vm_compute. reflexivity.
  - vm_compute. reflexivity.
Defined.

(** [cacheAllCSFFiles] on [ready_store]. *)
Lemma cacheAllCSFFiles_covers_index_witness :
  let s' := (cacheAllCSFFiles_now ready_store).2 in
  storyIndex s' = Some sample_index ∧
  ∃ files, cachedCSFFiles s' = Some files ∧
    files.*1 = insertion_order ((λ e, importPath e.2) <$> sample_index) ∧
    NoDup files.*1 ∧
    ∀ storyId entry, (storyId, entry) ∈ sample_index →
      is_Some (assoc (importPath entry) files).
Proof.
  assert (H1 : storyIndex ready_store = Some sample_index)
    by (vm_compute; reflexivity).
  assert (H2 : importFn ready_store = Some sample_importFn)
    by (vm_compute; reflexivity).
  assert (H3 : NoDup sample_index.*1)
    by (refine (bool_decide_unpack _ _); vm_compute; exact I).
  assert (H4 : cacheAllCSFFiles_now ready_store =
               (Fulfilled VVoid, (cacheAllCSFFiles_now ready_store).2))
    by (vm_compute; reflexivity).
  exact (proj1 (@cacheAllCSFFiles_covers_index sample_csf ready_store sample_index
                  sample_importFn _ _ H1 H2 H3 H4) eq_refl).
Defined.

(** The first story of the buttons is loaded twice on [ready_store]. *)
Lemma loadStory_twice_same_story_witness :
  ∃ s2, loadStory "button--primary" (loadStory "button--primary" ready_store).2
          = (Fulfilled (VStory loaded_story), s2) ∧
        nextRef s2 = nextRef (loadStory "button--primary" ready_store).2 ∧
        wasMemoized (csfCache s2) = true ∧
        wasMemoized (storyCache s2) = true.
Proof.
  apply (@loadStory_twice_same_story sample_csf "button--primary" ready_store).
  - vm_compute. reflexivity.
  - vm_compute. reflexivity.
  - intros f entries entry Hf _ _.
    assert (Hs : importFn ready_store = Some sample_importFn)
      by (vm_compute; reflexivity).
    rewrite Hs in Hf. injection Hf as <-. reflexivity.
Defined.

(** With a loader that gives a new module object at each call, the
    second [loadStory] finds nothing in the caches and gives another
    object. *)
Lemma loadStory_twice_fresh_modules :
  let first := loadStory "button--primary" fresh_store in
  let second := loadStory "button--primary" first.2 in
  first.1 = Fulfilled (VStory (mkObj 2 (sample_story "button--primary" [] "Button" []))) ∧
  second.1 = Fulfilled (VStory (mkObj 4 (sample_story "button--primary" [] "Button" []))) ∧
  wasMemoized (csfCache second.2) = false ∧
  wasMemoized (storyCache second.2) = false.
Proof. split_and!; vm_compute; reflexivity. Qed.

(** The keys of [extract()] on [cached_store]. *)
Lemma extract_keys_follow_index_witness :
  sample_extracted.*1 `sublist_of` sample_index.*1 ∧ NoDup sample_extracted.*1 ∧
  (false = true →
     sample_extracted.*1 =
     (filter (λ e, entryType e.2 = StoryEntry) sample_index).*1).
Proof.
  apply (@extract_keys_follow_index sample_csf false cached_store sample_index
           sample_extracted (extract false cached_store).2).
  - vm_compute. reflexivity.
  - refine (bool_decide_unpack _ _). vm_compute. exact I.
  - vm_compute. reflexivity.
Defined.

(** The payload of the index on [cached_store]. *)
Lemma getSetIndexPayload_follows_index_witness :
  ∃ prepared,
    threaded (prepare_entry sample_cached_files) (story_entries sample_index)
      cached_store prepared (getSetIndexPayload cached_store).2 ∧
    Forall2 (λ e p,
               p.1 = e.1 ∧ p.2.1 = e.2 ∧
               (entryType e.2 = DocsEntry → p.2.2 = None))
      sample_index sample_index_payload ∧
    Forall2 (λ e (story : PreparedStory),
               assoc e.1 sample_index_payload =
               Some (e.2,
                     Some (mkPreparedFields
                             (JsObject (story_initialArgs (content story)))
                             (JsObject (story_initialArgs (content story)))
                             (JsObject (story_argTypes (content story)))
                             (JsObject (story_parameters (content story))))))
      (story_entries sample_index) prepared.
Proof.
  apply (proj2 (proj2 (@getSetIndexPayload_follows_index sample_csf cached_store))
           sample_index sample_cached_files sample_index_payload
           (getSetIndexPayload cached_store).2).
  - vm_compute. reflexivity.
  - vm_compute. reflexivity.
  - refine (bool_decide_unpack _ _). vm_compute. exact I.
  - vm_compute. reflexivity.
Defined.

(** The project annotations are set again on the store that
    [sample_setup] leads to. *)
Lemma setProjectAnnotations_invalidates_witness :
  let s := run sample_setup new_StoryStore in
  let s' := (storyFromCSFFile "button--primary" (Some button_file)
               (setProjectAnnotations ([] : @ProjectAnnotations sample_csf) s)).2 in
  wasMemoized (storyCache s') = false ∧
  ref reprepared_story = S (nextRef s) ∧
  nextRef s' = S (S (nextRef s)) ∧
  ∀ k old, (k, old) ∈ lru (storyCache s) → ref old ≠ ref reprepared_story.
Proof.
  apply (@setProjectAnnotations_invalidates sample_csf
           (run sample_setup new_StoryStore) [] "button--primary" button_file).
  - by exists sample_setup.
  - vm_compute. reflexivity.
Defined.

(** A store whose index is empty, with batches of size zero. *)
Lemma empty_index_loads_nothing_witness :
  let s' := set_cachedCSFFiles (Some []) empty_store in
  loadAllCSFFiles 0 empty_store = (inr (Fulfilled []), empty_store) ∧
  cacheAllCSFFiles_now empty_store = (Fulfilled VVoid, s') ∧
  extract false s' = (inr [], s') ∧
  getSetIndexPayload s' = (inr [], s').
Proof.
  apply (@empty_index_loads_nothing sample_csf 0 false empty_store).
  vm_compute. reflexivity.
Defined.

(** [loadStory] on a store that has no project annotations. *)
Lemma loadStory_needs_project_annotations_witness :
  ∃ s', loadStory "input--basic" unconfigured_store
          = (Rejected (NotInitialized "storyFromCSFFile"), s') ∧
        is_Some (assoc (ref input_module, "./Input.stories.js", "Input")
                   (lru (csfCache s'))) ∧
        imports s' = imports unconfigured_store ++
          [mkImport "./Input.stories.js" (clock unconfigured_store)
             (clock unconfigured_store + latency (sample_importFn (imports unconfigured_store) "./Input.stories.js"))
             true].
Proof.
  assert (H1 : initialized unconfigured_store = true) by (vm_compute; reflexivity).
  assert (H2 : projectAnnotations unconfigured_store = None)
    by (vm_compute; reflexivity).
  assert (H3 : storyIndex unconfigured_store = Some sample_index)
    by (vm_compute; reflexivity).
  assert (H4 : importFn unconfigured_store = Some sample_importFn)
    by (vm_compute; reflexivity).
  assert (H5 : storyIdToEntry sample_index "input--basic" =
               inr (mkIndexEntry StoryEntry "./Input.stories.js" "Input"))
    by (vm_compute; reflexivity).
  assert (H6 : loaded (sample_importFn (imports unconfigured_store) "./Input.stories.js") = inr input_module)
    by (vm_compute; reflexivity).
  exact (proj2 (@loadStory_needs_project_annotations sample_csf "input--basic"
                  unconfigured_store H1 H2)
           sample_index sample_importFn
           (mkIndexEntry StoryEntry "./Input.stories.js" "Input") input_module
           _ H3 H4 H5 H6 eq_refl).
Defined.

(** The records of [extract()] on [cached_store] carry their
    identifiers, for which [raw] calls [fromId]. *)
Lemma raw_follows_extract_witness :
  Forall (λ r, ∃ storyId, js_field "id" r.2 = JsString storyId) sample_extracted ∧
  ∀ stories s2, raw cached_store = (inr stories, s2) →
    ∃ ids (founds : list (option PreparedStory)),
      Forall2 (λ r storyId, js_field "id" r.2 = JsString storyId)
        sample_extracted ids ∧
      threaded fromId ids (extract false cached_store).2 founds s2 ∧
      stories = omap (λ x, x) founds.
Proof.
  apply (proj2 (proj2 (proj2 (@raw_follows_extract sample_csf cached_store)))
           sample_extracted (extract false cached_store).2).
  vm_compute. reflexivity.
Defined.

(** The context of the first story of the buttons after [later_calls]. *)
Lemma getStoryContext_after_preparing_witness :
  let s1 := (storyFromCSFFile "button--primary" (Some button_file)
               configured_store).2 in
  getStoryContext None primary_story (run later_calls s1)
    = inl (NotInitialized "getStoryContext") ∧
  ∀ g, ∃ a,
    args (run later_calls s1) !! story_id (content primary_story) = Some a ∧
    getStoryContext (Some g) primary_story (run later_calls s1)
      = inr (mkStoryContext (content primary_story) (Some a) g true).
Proof.
  apply (@getStoryContext_after_preparing sample_csf "button--primary"
           (Some button_file) configured_store).
  vm_compute. reflexivity.
Defined.

(** The payload of the stories on [cached_store]. *)
Lemma getSetStoriesPayload_kinds_witness :
  ∃ payload,
    getSetStoriesPayload (Some sample_globals) cached_store
      = (inr payload, (extract true cached_store).2) ∧
    payload_stories payload = sample_extracted_all ∧
    payload_globals payload = sample_globals ∧
    Forall (λ r, ∃ title, js_field "title" r.2 = JsString title)
      sample_extracted_all ∧
    NoDup (payload_kindParameters payload).*1 ∧
    (∀ title ps, (title, ps) ∈ payload_kindParameters payload → ps = []) ∧
    (∀ title, title ∈ (payload_kindParameters payload).*1 ↔
       ∃ r, r ∈ sample_extracted_all ∧ js_field "title" r.2 = JsString title).
Proof.
  apply (proj2 (proj2 (@getSetStoriesPayload_kinds sample_csf cached_store)
                  sample_globals)).
  vm_compute. reflexivity.
Defined.

(** The legacy entries on [cached_store]. *)
Lemma getStoriesJsonData_legacy_entries_witness :
  ∃ records,
    extract true cached_store
      = (inr records, (getStoriesJsonData (Some sample_globals) cached_store).2) ∧
    Forall2 (λ r legacy,
      legacy.1 = r.1 ∧
      ∃ (story : PreparedStory) entry parameters,
        r.2 = extract_story (content story) ∧
        assoc (story_id (content story)) sample_index = Some entry ∧
        legacy.2 =
          [ ("id", JsString (story_id (content story)));
            ("name", JsString (story_name (content story)));
            ("title", JsString (story_title (content story)));
            ("importPath", JsString (importPath entry));
            ("kind", JsString (story_title (content story)));
            ("story", JsString (story_name (content story)));
            ("parameters", JsObject parameters) ] ∧
        parameters.*1 ⊆ allowedParameters ∧
        assoc "fileName" parameters = Some (JsString (importPath entry)) ∧
        ∀ key, key ≠ "fileName" →
          assoc key parameters =
          if decide (key ∈ allowedParameters)
          then assoc key (story_parameters (content story)) else None)
      records sample_legacy.
Proof.
  apply (proj2 (proj2 (@getStoriesJsonData_legacy_entries sample_csf cached_store))
           sample_index sample_globals sample_legacy).
  - vm_compute. reflexivity.
  - vm_compute. reflexivity.
Defined.

(** [cached_store] is initialized again, with another index. *)
Lemma initialize_replaces_index_and_loader_witness :
  ∃ s',
    initialize (Some link_index) sample_importFn false cached_store
      = (Fulfilled VVoid, [], s') ∧
    storyIndex s' = Some link_index ∧
    cachedCSFFiles s' = cachedCSFFiles cached_store ∧
    fromId "link--basic" s' =
      (inl (TypeError "Cannot read properties of undefined (reading 'stories')"), s').
Proof.
  assert (H1 : initialized cached_store = true ∨ waiting cached_store = [])
    by (left; vm_compute; reflexivity).
  destruct (proj1 (@initialize_replaces_index_and_loader sample_csf
                     (Some link_index) sample_importFn cached_store H1))
    as (s' & Hi & Hx & _ & Hc & _ & _ & _ & Hfrom).
  exists s'. split_and!; [exact Hi|exact Hx|exact Hc|].
  apply (Hfrom "link--basic" (mkIndexEntry StoryEntry "./Link.stories.js" "Link")
           sample_cached_files).
  - vm_compute. reflexivity.
  - vm_compute. eexists. reflexivity.
  - vm_compute. reflexivity.
  - vm_compute. reflexivity.
Defined.

(** The loader of [cached_store] is replaced by one that fails for the
    module of the buttons. *)
Lemma onStoriesChanged_failure_keeps_old_files_witness :
  let s' := (onStoriesChanged (Some failing_importFn) None cached_store).2 in
  (∀ new, None = Some new → storyIndex s' = Some new) ∧
  (@None StoryIndex = None → storyIndex s' = storyIndex cached_store) ∧
  (∀ g, Some failing_importFn = Some g → importFn s' = Some g) ∧
  (Some failing_importFn = None → importFn s' = importFn cached_store) ∧
  cachedCSFFiles s' = Some sample_cached_files ∧
  storyCache s' = storyCache cached_store ∧ args s' = args cached_store.
Proof.
  apply (@onStoriesChanged_failure_keeps_old_files sample_csf
           (Some failing_importFn) None cached_store sample_cached_files
           (Rejected (OtherError "Failed to fetch"))).
  - vm_compute. reflexivity.
  - vm_compute. eexists. reflexivity.
  - vm_compute. reflexivity.
  - vm_compute. reflexivity.
  - discriminate.
Defined.
